(** * Data-parallel training step of the multiple-GPU notebook

    A shallow embedding of the four functions of the notebook
    [multiple-gpus-scratch] that make up one data-parallel training step:
    [split_and_load], [allreduce], [SGD] and [train_batch].

    Tensors of the framework are modelled with exact rational entries
    (type [Q]); "numerically identical" is elementwise [Qeq].  Tensors that
    the code mutates in place live in a store indexed by object identity, so
    that aliasing between the entries of a Python list is visible. *)

From Stdlib Require Import QArith ZArith Lia.
From stdpp Require Import base option list gmap.

Close Scope Q_scope.
Open Scope nat_scope.

(** ** Python exceptions and the result type *)

Inductive exn : Type :=
  | AssertionError   (* a failed [assert] *)
  | ValueError       (* [range] with a zero step *)
  | ZeroDivisionError
  | IndexError
  | TypeError        (* arithmetic on [None] *)
  | AttributeError   (* attribute access on [None] or on a plain [bool] *)
  | MXNetError       (* shape or device mismatch inside the framework *)
  | DanglingRef.     (* a reference outside the store: no Python value *)

Inductive result (A : Type) : Type :=
  | Ok (a : A)
  | Raise (e : exn).
Arguments Ok {A} a.
Arguments Raise {A} e.

#[export] Instance result_ret : MRet result := fun _ a => Ok a.
#[export] Instance result_bind : MBind result := fun _ _ f m =>
  match m with
  | Ok a => f a
  | Raise e => Raise e
  end.

Definition from_option {A} (e : exn) (o : option A) : result A :=
  match o with
  | Some a => Ok a
  | None => Raise e
  end.

(** [[f(x) for x in l]] where [f] may raise: the first exception wins. *)
Fixpoint traverse {A B} (f : A → result B) (l : list A) : result (list B) :=
  match l with
  | [] => Ok []
  | x :: l' => y ← f x; ys ← traverse f l'; mret (y :: ys)
  end.

(** ** Devices and tensors *)

Inductive device : Type :=
  | cpu (i : nat)
  | gpu (i : nat).

#[export] Instance device_eq_dec : EqDecision device.
Proof. solve_decision. Defined.

(** Object identity of a tensor held in the store. *)
Abbreviation loc := nat (only parsing).

(** An [NDArray]: the device it lives on, its shape, its entries in
    row-major order, and the gradient buffer attached by [attach_grad]. *)
Record NDArray : Type := mkNDArray {
  context : device;
  shape : list nat;
  values : list Q;
  grad : option loc
}.

Definition size_of (s : list nat) : nat := foldr Nat.mul 1 s.

(** Number of entries of one row (one index along axis 0). *)
Definition row_size (x : NDArray) : nat := size_of (tail (shape x)).

Definition wf_NDArray (x : NDArray) : Prop :=
  length (values x) = size_of (shape x).

(** [x.shape[0]] *)
Definition shape0 (x : NDArray) : result nat :=
  from_option IndexError (shape x !! 0).

(** Row [r] of [x] along axis 0. *)
Definition row (x : NDArray) (r : nat) : list Q :=
  take (row_size x) (drop (r * row_size x) (values x)).

(** [x[a:b]]: basic slicing along axis 0, bounds clamped as Python does. *)
Definition slice (x : NDArray) (a b : nat) : NDArray :=
  let n := default 0 (shape x !! 0) in
  let a' := a `min` n in
  let b' := b `min` n in
  {| context := context x;
     shape := (b' - a') :: tail (shape x);
     values := take ((b' - a') * row_size x) (drop (a' * row_size x) (values x));
     grad := None |}.

(** [x.as_in_context(c)]: the same tensor, placed on device [c]. *)
Definition as_in_context (x : NDArray) (c : device) : NDArray :=
  {| context := c; shape := shape x; values := values x; grad := grad x |}.

(** ** Python integer helpers *)

(** [n // k] on non-negative integers. *)
Definition floordiv (n k : nat) : result nat :=
  if decide (k = 0) then Raise ZeroDivisionError else Ok (n / k).

Fixpoint range_from (start step count : nat) : list nat :=
  match count with
  | 0 => []
  | S c => start :: range_from (start + step) step c
  end.

(** [list(range(start, stop, step))] for a non-negative step. *)
Definition py_range (start stop step : nat) : result (list nat) :=
  if decide (step = 0) then Raise ValueError
  else Ok (range_from start step ((stop - start + step - 1) / step)).

(** ** [split_and_load]

<<
def split_and_load(data, ctx):
    n, k = data.shape[0], len(ctx)
    assert (n//k)*k == n, '# examples is not divided by # devices'
    idx = list(range(0, n+1, n//k))
    return [data[idx[i]:idx[i+1]].as_in_context(ctx[i]) for i in range(k)]
>> *)
Definition split_and_load (data : NDArray) (ctx : list device)
  : result (list NDArray) :=
  n ← shape0 data;
  let k := length ctx in
  q ← floordiv n k;
  if negb (q * k =? n) then Raise AssertionError else
  step ← floordiv n k;
  idx ← py_range 0 (n + 1) step;
  traverse (λ i,
      a ← from_option IndexError (idx !! i);
      b ← from_option IndexError (idx !! (i + 1));
      c ← from_option IndexError (ctx !! i);
      mret (as_in_context (slice data a b) c))
    (seq 0 k).

(** ** The store and the monad of the notebook's stateful code *)

(** Framework calls that touch stored tensors, in the order they are issued. *)
Inductive event : Type :=
  | EvCopyCtx (src : loc) (c : device)  (* [src.copyto(c)]: a fresh copy on [c] *)
  | EvIAdd (dst : loc) (t : list Q)     (* [dst[:] += t], entries of [t] *)
  | EvCopyTo (src dst : loc)            (* [src.copyto(dst)] *)
  | EvSetItem (dst : loc)               (* [dst[:] = t] *)
  | EvBackward (dst : loc).             (* autograd writes gradient buffer [dst] *)

Record state : Type := mkState {
  heap : gmap loc NDArray;
  trace : list event
}.

Definition M (A : Type) : Type := state → result (A * state).

#[export] Instance M_ret : MRet M := fun _ a s => Ok (a, s).
#[export] Instance M_bind : MBind M := fun _ _ f m s =>
  match m s with
  | Ok (a, s') => f a s'
  | Raise e => Raise e
  end.

Definition raise {A} (e : exn) : M A := fun _ => Raise e.

Definition lift {A} (r : result A) : M A := fun s =>
  match r with
  | Ok a => Ok (a, s)
  | Raise e => Raise e
  end.

(** [l[i]] on a Python list. *)
Definition index {A} (l : list A) (i : nat) : result A :=
  from_option IndexError (l !! i).

(** [for x in l: body(x)] *)
Fixpoint for_ {A} (l : list A) (body : A → M unit) : M unit :=
  match l with
  | [] => mret tt
  | x :: l' => body x;; for_ l' body
  end.

(** [[f(x) for x in l]] in the store monad. *)
Fixpoint mapM_ {A B} (f : A → M B) (l : list A) : M (list B) :=
  match l with
  | [] => mret []
  | x :: l' => y ← f x; ys ← mapM_ f l'; mret (y :: ys)
  end.

Definition emit (e : event) : M unit := fun s =>
  Ok (tt, {| heap := heap s; trace := trace s ++ [e] |}).

(** Read the tensor behind a reference. *)
Definition deref (l : loc) : M NDArray := fun s =>
  match heap s !! l with
  | Some x => Ok (x, s)
  | None => Raise DanglingRef
  end.

Definition with_values (x : NDArray) (vs : list Q) : NDArray :=
  {| context := context x; shape := shape x; values := vs; grad := grad x |}.

(** Overwrite the entries of a stored tensor in place; its identity, device,
    shape and gradient buffer stay. *)
Definition store_values (l : loc) (vs : list Q) : M unit := fun s =>
  match heap s !! l with
  | Some x => Ok (tt, {| heap := <[l := with_values x vs]> (heap s);
                         trace := trace s |})
  | None => Raise DanglingRef
  end.

(** ** Framework operations on tensors *)

Definition same_shape (x y : NDArray) : bool := bool_decide (shape x = shape y).
Definition same_context (x y : NDArray) : bool :=
  bool_decide (context x = context y).

(** [x.copyto(c)] for a device [c]: a fresh tensor on [c] with the entries of
    [x]; it is a temporary and is not entered in the store. *)
Definition copyto_ctx (src : loc) (c : device) : M NDArray :=
  x ← deref src;
  emit (EvCopyCtx src c);;
  mret {| context := c; shape := shape x; values := values x; grad := None |}.

(** [dst[:] += t]: elementwise in-place addition, recorded with the entries
    added.  Operands must live on one device.  Operands of different shapes
    are outside the model: the framework broadcasts them, and a mismatch
    surfaces later or not at all; the model reports a framework error at the
    addition. *)
Definition iadd (dst : loc) (t : NDArray) : M unit :=
  x ← deref dst;
  if negb (same_context x t) then raise MXNetError else
  if negb (same_shape x t) then raise MXNetError else
  emit (EvIAdd dst (values t));;
  store_values dst (zip_with Qplus (values x) (values t)).

(** [src.copyto(dst)] for a tensor [dst]: overwrite [dst] with the entries of
    [src], across devices.  Copying an array to itself only warns. *)
Definition copyto (src dst : loc) : M unit :=
  x ← deref src;
  y ← deref dst;
  if decide (src = dst) then mret tt else
  if negb (same_shape x y) then raise MXNetError else
  emit (EvCopyTo src dst);;
  store_values dst (values x).

(** [t * lr] for a Python number [lr]. *)
Definition mul_scalar (t : NDArray) (lr : Q) : NDArray :=
  {| context := context t; shape := shape t;
     values := map (λ g, Qmult g lr) (values t); grad := None |}.

(** [x - t], elementwise, on one device. *)
Definition nd_sub (x t : NDArray) : result NDArray :=
  if negb (same_context x t) then Raise MXNetError else
  if negb (same_shape x t) then Raise MXNetError else
  Ok {| context := context x; shape := shape x;
        values := zip_with Qminus (values x) (values t); grad := None |}.

(** [dst[:] = t] *)
Definition setitem (dst : loc) (t : NDArray) : M unit :=
  x ← deref dst;
  if negb (same_shape x t) then raise MXNetError else
  emit (EvSetItem dst);;
  store_values dst (values t).

(** [p.grad], used as a tensor: [None] when no buffer was attached. *)
Definition grad_of (e : exn) (p : loc) : M loc :=
  x ← deref p;
  lift (from_option e (grad x)).

(** ** [allreduce]

<<
def allreduce(data):
    # sum on data[0].context, and then broadcast
    for i in range(1, len(data)):
        data[0][:] += data[i].copyto(data[0].context)
    for i in range(1, len(data)):
        data[0].copyto(data[i])
>> *)
Definition allreduce (data : list loc) : M unit :=
  for_ (seq 1 (length data - 1)) (λ i,
    d0 ← lift (index data 0);
    di ← lift (index data i);
    x0 ← deref d0;
    t ← copyto_ctx di (context x0);
    iadd d0 t);;
  for_ (seq 1 (length data - 1)) (λ i,
    d0 ← lift (index data 0);
    di ← lift (index data i);
    copyto d0 di).

(** [p.grad] as an attribute: the gradient buffer of [p], or [None] when
    none was attached. *)
Definition grad_attr (p : loc) : M (option loc) :=
  x ← deref p;
  mret (grad x).

(** [allreduce] on a list of [.grad] attributes, as [train_batch] calls it:
    any element of the list may be [None].  The statements are those of
    [allreduce]; [None] as element 0 fails at [data[0][:]] (not
    subscriptable), [None] as another element at [data[i].copyto] (no such
    attribute), and a list of one element is never looked at. *)
Definition allreduce_attrs (data : list (option loc)) : M unit :=
  for_ (seq 1 (length data - 1)) (λ i,
    a0 ← lift (index data 0);
    d0 ← lift (from_option TypeError a0);
    ai ← lift (index data i);
    di ← lift (from_option AttributeError ai);
    x0 ← deref d0;
    t ← copyto_ctx di (context x0);
    iadd d0 t);;
  for_ (seq 1 (length data - 1)) (λ i,
    a0 ← lift (index data 0);
    d0 ← lift (from_option AttributeError a0);
    ai ← lift (index data i);
    di ← lift (from_option TypeError ai);
    copyto d0 di).

(** ** [SGD]

<<
def SGD(params, lr):
    for p in params:
        p[:] = p - lr * p.grad
>> *)
Definition SGD (params : list loc) (lr : Q) : M unit :=
  for_ params (λ p,
    x ← deref p;
    gl ← grad_of TypeError p;
    g ← deref gl;
    t ← lift (nd_sub x (mul_scalar g lr));
    setitem p t).

(** ** [train_batch] *)

(** A batch of the data iterator: [batch.data] and [batch.label]. *)
Record DataBatch : Type := mkDataBatch {
  data : list NDArray;
  label : list NDArray
}.

(** [lr / n] for a Python float [lr] and an integer [n]. *)
Definition truediv (lr : Q) (n : nat) : result Q :=
  if decide (n = 0) then Raise ZeroDivisionError
  else Ok (Qdiv lr (inject_Z (Z.of_nat n))).

Section TrainBatch.

(** The forward pass [loss(lenet(X, W), Y)] under [autograd.record()]
    followed by [backward()] belongs to the framework.  It is a parameter
    of the model: from one shard, its labels and the parameter replica of
    one device it yields the gradient of every parameter of the replica,
    or a framework error. *)
Variable forward_backward :
  NDArray → NDArray → list NDArray → result (list (list Q)).

(** [backward()] fills the gradient buffer attached to parameter [p] with the
    gradient [g].  A parameter without buffer is not differentiated; a
    gradient that does not have the size of the buffer is a framework
    error. *)
Definition write_grad (p : loc) (g : list Q) : M unit :=
  x ← deref p;
  match grad x with
  | None => mret tt
  | Some gl =>
      b ← deref gl;
      if negb (length g =? size_of (shape b)) then raise MXNetError else
      emit (EvBackward gl);;
      store_values gl g
  end.

(**
<<
def train_batch(batch, params, ctx, lr):
    # split the data batch and load them on GPUs
    data = split_and_load(batch.data[0], ctx)
    label = split_and_load(batch.label[0], ctx)
    # run forward on each GPU
    with gluon.autograd.record():
        losses = [loss(lenet(X, W), Y)
                  for X, Y, W in zip(data, label, params)]
    # run backward on each gpu
    for l in losses:
        l.backward()
    # aggregate gradient over GPUs
    for i in range(len(params[0])):
        allreduce([params[c][i].grad for c in range(len(ctx))])
    # update parameters with SGD on each GPU
    for p in params:
        SGD(p, lr/batch.data[0].shape[0])
>>
    The shards are bound to [shards] and [labels] here.  The [.grad] of a
    parameter without gradient buffer is [None]; it is gathered like any
    other and raises where [allreduce] or [SGD] first uses it. *)
Definition train_batch (batch : DataBatch) (params : list (list loc))
    (ctx : list device) (lr : Q) : M unit :=
  shards ← lift (d ← index (data batch) 0; split_and_load d ctx);
  labels ← lift (l ← index (label batch) 0; split_and_load l ctx);
  losses ← mapM_ (λ '(X, (Y, W)),
      ws ← mapM_ deref W;
      gs ← lift (forward_backward X Y ws);
      mret (W, gs))
    (zip shards (zip labels params));
  for_ losses (λ '(W, gs),
    for_ (zip W gs) (λ '(p, g), write_grad p g));;
  p0 ← lift (index params 0);
  for_ (seq 0 (length p0)) (λ i,
    grads ← mapM_ (λ c,
        pc ← lift (index params c);
        p ← lift (index pc i);
        grad_attr p)
      (seq 0 (length ctx));
    allreduce_attrs grads);;
  for_ params (λ p,
    d ← lift (index (data batch) 0);
    n ← lift (shape0 d);
    lr' ← lift (truediv lr n);
    SGD p lr').

(** The gradient phase of [train_batch]: forward on every device, then
    backward on every device. *)
Definition compute_gradients (shards labels : list NDArray)
    (params : list (list loc)) : M unit :=
  losses ← mapM_ (λ '(X, (Y, W)),
      ws ← mapM_ deref W;
      gs ← lift (forward_backward X Y ws);
      mret (W, gs))
    (zip shards (zip labels params));
  for_ losses (λ '(W, gs),
    for_ (zip W gs) (λ '(p, g), write_grad p g)).

End TrainBatch.

(** The update phase of [train_batch]: its last loop. *)
Definition update_params (batch : DataBatch) (params : list (list loc))
    (lr : Q) : M unit :=
  for_ params (λ p,
    d ← lift (index (data batch) 0);
    n ← lift (shape0 d);
    lr' ← lift (truediv lr n);
    SGD p lr').

(** The aggregation phase of [train_batch]: its all-reduce loop. *)
Definition sync_gradients (params : list (list loc)) (ctx : list device)
  : M unit :=
  p0 ← lift (index params 0);
  for_ (seq 0 (length p0)) (λ i,
    grads ← mapM_ (λ c,
        pc ← lift (index params c);
        p ← lift (index pc i);
        grad_attr p)
      (seq 0 (length ctx));
    allreduce_attrs grads).

(** ** Specification vocabulary *)

(** The shard of device [i] when [q] rows go to each device. *)
Definition shard_of (x : NDArray) (q : nat) (i : nat) (c : device) : NDArray :=
  as_in_context (slice x (i * q) ((i + 1) * q)) c.

(** Concatenation of tensors along axis 0: the entries and the row count. *)
Definition concat_values (xs : list NDArray) : list Q :=
  concat (values <$> xs).
Definition concat_rows (xs : list NDArray) : nat :=
  sum_list ((λ x, default 0 (shape x !! 0)) <$> xs).

(** Entry [j] of the sum [g_1 + ... + g_K] of a list of tensors' entries. *)
Definition sum_at (gs : list (list Q)) (j : nat) : Q :=
  foldr Qplus 0%Q ((λ g, nth j g 0%Q) <$> gs).

(** Numerically identical entries. *)
Definition values_eq (u v : list Q) : Prop := Forall2 Qeq u v.

(** [xs] are the tensors stored behind [ls], one per reference. *)
Definition stored_at (s : state) (ls : list loc) (xs : list NDArray) : Prop :=
  Forall2 (λ l x, heap s !! l = Some x) ls xs.

(** One iteration of each loop of [allreduce], with [data[0]] and [data[i]]
    already looked up. *)
Definition reduce_step (d0 di : loc) : M unit :=
  x0 ← deref d0;
  t ← copyto_ctx di (context x0);
  iadd d0 t.
Definition broadcast_step (d0 di : loc) : M unit := copyto d0 di.

(** The running sum on the home device: [(((g_1 + g_2) + g_3) + ...)]. *)
Definition running_sum (g1 : list Q) (gs : list (list Q)) : list Q :=
  foldl (zip_with Qplus) g1 gs.

(** The framework calls issued by [allreduce] on home [d0] and the others. *)
Definition reduce_events (c : device) (d0 : loc) (rest : list loc)
    (xs : list NDArray) : list event :=
  zip rest xs ≫= λ lx, [EvCopyCtx lx.1 c; EvIAdd d0 (values lx.2)].
Definition broadcast_events (d0 : loc) (rest : list loc) : list event :=
  EvCopyTo d0 <$> rest.

(** The store in which the entries of every tensor of [ls] have been
    replaced by [v]; everything else is as in [h]. *)
Definition overwrite (v : list Q) (ls : list loc) (h : gmap loc NDArray)
  : gmap loc NDArray :=
  foldl (λ h l, alter (λ x, with_values x v) l h) h ls.

(** Well-formed tensors of one shape. *)
Definition same_shaped (sh : list nat) (gs : list NDArray) : Prop :=
  Forall (λ g, wf_NDArray g ∧ shape g = sh) gs.

(** The tensors that a trace adds into an accumulator, in issue order: the
    sources of the device copies that feed the in-place additions. *)
Definition added_sources (tr : list event) : list loc :=
  omap (λ e, match e with EvCopyCtx src _ => Some src | _ => None end) tr.

(** The in-place additions of a trace, in issue order: the accumulator and
    the entries added into it. *)
Definition additions (tr : list event) : list (loc * list Q) :=
  omap (λ e, match e with EvIAdd dst t => Some (dst, t) | _ => None end) tr.

(** ** Vocabulary for the training step *)

(** A sequence of in-place writes [l[:] = v], applied in order. *)
Definition apply_writes (ws : list (loc * list Q)) (h : gmap loc NDArray)
  : gmap loc NDArray :=
  foldl (λ h w, alter (λ x, with_values x w.2) w.1 h) h ws.

(** What in-place writes never change: device, shape and gradient buffer. *)
Definition skeleton (x : NDArray) : device * list nat * option loc :=
  (context x, shape x, grad x).

(** The entries [w - g * lr] that [SGD] stores. *)
Definition sgd_values (w g : list Q) (lr : Q) : list Q :=
  zip_with Qminus w ((λ gv, Qmult gv lr) <$> g).

(** One iteration of the loop of [SGD]. *)
Definition sgd_step (lr : Q) (p : loc) : M unit :=
  x ← deref p;
  gl ← grad_of TypeError p;
  g ← deref gl;
  t ← lift (nd_sub x (mul_scalar g lr));
  setitem p t.

(** The write that [SGD] performs on parameter [p] in store [h]. *)
Definition sgd_write (h : gmap loc NDArray) (lr : Q) (p : loc)
  : list (loc * list Q) :=
  match h !! p with
  | Some x =>
      match grad x ≫= (h !!.) with
      | Some g => [(p, sgd_values (values x) (values g) lr)]
      | None => []
      end
  | None => []
  end.

(** A parameter ready for [SGD] in store [h]: stored, with a stored gradient
    buffer of its shape on its device. *)
Definition sgd_ready (h : gmap loc NDArray) (p : loc) : Prop :=
  ∃ x gl g, h !! p = Some x ∧ grad x = Some gl ∧ h !! gl = Some g ∧
            context x = context g ∧ shape x = shape g.

(** [x] is the replica on device [c] of parameter [i]. *)
Definition replica_at (h : gmap loc NDArray) (params : list (list loc))
    (c i : nat) (x : NDArray) : Prop :=
  ∃ W p, params !! c = Some W ∧ W !! i = Some p ∧ h !! p = Some x.

(** [g] is the gradient buffer on device [c] of parameter [i]. *)
Definition grad_replica_at (h : gmap loc NDArray) (params : list (list loc))
    (c i : nat) (g : NDArray) : Prop :=
  ∃ x gl, replica_at h params c i x ∧ grad x = Some gl ∧ h !! gl = Some g.

(** All replicas of parameter [i] are numerically identical. *)
Definition replicas_identical (h : gmap loc NDArray)
    (params : list (list loc)) (i : nat) : Prop :=
  ∀ c c' x x', replica_at h params c i x → replica_at h params c' i x' →
               values_eq (values x) (values x').

(** All devices hold numerically identical gradients of parameter [i]. *)
Definition grads_identical (h : gmap loc NDArray)
    (params : list (list loc)) (i : nat) : Prop :=
  ∀ c c' g g', grad_replica_at h params c i g →
               grad_replica_at h params c' i g' →
               values_eq (values g) (values g').

(** The parameters are ready for the update phase: distinct tensors, each
    with a gradient buffer of its shape on its device, and no gradient
    buffer is itself a parameter. *)
Definition update_ready (h : gmap loc NDArray) (params : list (list loc))
  : Prop :=
  NoDup (concat params) ∧
  (∀ p, p ∈ concat params → sgd_ready h p) ∧
  (∀ p x gl, p ∈ concat params → h !! p = Some x → grad x = Some gl →
             gl ∉ concat params).

(** The write that [backward()] performs for parameter [p] in store [h]. *)
Definition grad_write (h : gmap loc NDArray) (pg : loc * list Q)
  : list (loc * list Q) :=
  match h !! pg.1 ≫= grad with
  | Some gl => [(gl, pg.2)]
  | None => []
  end.

(** [backward()] can store gradient [g] for parameter [p]: the parameter has
    a stored gradient buffer with as many entries as [g]. *)
Definition grad_writable (h : gmap loc NDArray) (p : loc) (g : list Q) : Prop :=
  ∃ x gl b, h !! p = Some x ∧ grad x = Some gl ∧ h !! gl = Some b ∧
            length g = size_of (shape b).

(** Two stores that differ in entries only. *)
Definition same_skeleton (h h' : gmap loc NDArray) : Prop :=
  ∀ k, skeleton <$> h' !! k = skeleton <$> h !! k.

(** Column [i] of a device-major table: entry [i] of every row. *)
Definition column {A} (rows : list (list A)) (i : nat) : list A :=
  omap (.!! i) rows.

(** The synchronized gradient of parameter [i]: the running sum, over the
    devices in order, of the gradients [gradvals[c][i]]. *)
Definition total_gradient (gradvals : list (list (list Q))) (i : nat) : list Q :=
  match column gradvals i with
  | [] => []
  | g0 :: gs => running_sum g0 gs
  end.

(** Parameter [p] with gradient buffer [gl], both stored, well-formed, of
    shape [sh] and on one device. *)
Definition param_ok (h : gmap loc NDArray) (p gl : loc) (sh : list nat) : Prop :=
  ∃ x g, h !! p = Some x ∧ grad x = Some gl ∧ h !! gl = Some g ∧
         context x = context g ∧ shape x = sh ∧ shape g = sh ∧
         wf_NDArray x ∧ wf_NDArray g.

(** The replicas [params] (one list of parameters per device) with their
    gradient buffers [gparams]: every device holds parameters of the shapes
    [shapes], and all the tensors are distinct. *)
Definition training_state (h : gmap loc NDArray)
    (params gparams : list (list loc)) (shapes : list (list nat)) : Prop :=
  Forall2 (λ W G, Forall3 (param_ok h) W G shapes) params gparams ∧
  NoDup (concat params ++ concat gparams).

(** The gradients [gradvals[c][i]] computed on the devices have the shapes
    of the parameters. *)
Definition gradvals_ok (shapes : list (list nat))
    (gradvals : list (list (list Q))) : Prop :=
  Forall (Forall2 (λ sh g, length g = size_of sh) shapes) gradvals.

(** The writes of the backward passes: [gradvals[c][i]] into [gparams[c][i]]. *)
Definition grad_writes (gparams : list (list loc))
    (gradvals : list (list (list Q))) : list (loc * list Q) :=
  concat (zip_with zip gparams gradvals).

(** The writes of the all-reduce of parameter [i]: the synchronized gradient
    into the buffer of every device. *)
Definition sync_writes (gparams : list (list loc))
    (gradvals : list (list (list Q))) (i : nat) : list (loc * list Q) :=
  (λ l, (l, total_gradient gradvals i)) <$> column gparams i.

(** The gradient buffers [gparams] hold the gradients [gradvals]. *)
Definition grads_hold (h : gmap loc NDArray) (gparams : list (list loc))
    (gradvals : list (list (list Q))) : Prop :=
  ∀ c i G gs gl g,
    gparams !! c = Some G → G !! i = Some gl →
    gradvals !! c = Some gs → gs !! i = Some g →
    values <$> h !! gl = Some g.

(** The shards [split_and_load] hands to the devices [ctx] from a tensor of
    [n] rows. *)
Definition shards_of (x : NDArray) (ctx : list device) (n : nat)
  : list NDArray :=
  imap (shard_of x (n / length ctx)) ctx.

(** A batch of [n] samples with their labels that the devices [ctx] divide
    evenly. *)
Definition batch_ok (batch : DataBatch) (d lb : NDArray) (ctx : list device)
    (n : nat) : Prop :=
  data batch !! 0 = Some d ∧ label batch !! 0 = Some lb ∧
  shape d !! 0 = Some n ∧ shape lb !! 0 = Some n ∧
  0 < n ∧ 0 < length ctx ∧ n `mod` length ctx = 0.

(** ** The notebook's demonstration inputs *)

(** [nd.arange(16).reshape((4,4))] *)
Definition batch44 : NDArray :=
  {| context := cpu 0; shape := [4; 4];
     values := (λ i, inject_Z (Z.of_nat i)) <$> seq 0 16; grad := None |}.

(** [nd.ones((1,2), ctx=c) * v] *)
Definition ones12 (c : device) (v : Q) : NDArray :=
  {| context := c; shape := [1; 2]; values := [v; v]; grad := None |}.

(** [data = [nd.ones((1,2), ctx=gpu(i))*(i+1) for i in range(2)]], stored
    at references 0 and 1. *)
Definition demo_state : state :=
  {| heap := {[ 0 := ones12 (gpu 0) 1%Q; 1 := ones12 (gpu 1) 2%Q ]};
     trace := [] |}.

(** Three devices: [nd.ones((1,2), ctx=gpu(i)) * 2**i] for [i] in 0, 1, 2,
    stored at references 0, 1 and 2. *)
Definition demo_state3 : state :=
  {| heap := {[ 0 := ones12 (gpu 0) 1%Q; 1 := ones12 (gpu 1) 2%Q;
                2 := ones12 (gpu 2) 4%Q ]};
     trace := [] |}.

(** A batch without rows, [nd.zeros((0,4))]. *)
Definition empty_batch : NDArray :=
  {| context := cpu 0; shape := [0; 4]; values := []; grad := None |}.

(** A small training state: two devices, one parameter of shape [(2,)] per
    replica at references 10 and 20, with gradient buffers at 11 and 21. *)
Definition demo_param (c : device) (gl : loc) : NDArray :=
  {| context := c; shape := [2]; values := [1%Q; 2%Q]; grad := Some gl |}.
Definition demo_grad (c : device) (v : Q) : NDArray :=
  {| context := c; shape := [2]; values := [v; v]; grad := None |}.
Definition demo_training : state :=
  {| heap := {[ 10 := demo_param (gpu 0) 11; 11 := demo_grad (gpu 0) 3%Q;
                20 := demo_param (gpu 1) 21; 21 := demo_grad (gpu 1) 3%Q ]};
     trace := [] |}.

(** The demonstration batch with one label per row. *)
Definition demo_labels : NDArray :=
  {| context := cpu 0; shape := [4];
     values := [0%Q; 1%Q; 0%Q; 1%Q]; grad := None |}.
Definition demo_batch : DataBatch :=
  {| data := [batch44]; label := [demo_labels] |}.

(** A stand-in for the framework's forward and backward pass: the gradient
    of every parameter entry is the entry times the number of labels of the
    shard. *)
Definition demo_backward (X Y : NDArray) (ws : list NDArray)
  : result (list (list Q)) :=
  Ok ((λ w, (λ v, Qmult v (inject_Z (Z.of_nat (length (values Y)))))
              <$> values w) <$> ws).

(** ** Further functions of the notebook *)

(** A new tensor object: Python returns an object distinct from all live
    ones, the store a reference outside its domain. *)
Definition alloc (x : NDArray) : M loc := fun s =>
  let l := fresh (dom (heap s)) in
  Ok (l, {| heap := <[l := x]> (heap s); trace := trace s |}).

(** [x.copyto(c)] for a device [c], where the copy is kept: the fresh copy
    becomes an object of the store. *)
Definition copyto_new (src : loc) (c : device) : M loc :=
  t ← copyto_ctx src c;
  alloc t.

(** [nd.zeros_like(x)] *)
Definition zeros_like (x : NDArray) : NDArray :=
  {| context := context x; shape := shape x;
     values := replicate (size_of (shape x)) 0%Q; grad := None |}.

Definition with_grad (x : NDArray) (g : option loc) : NDArray :=
  {| context := context x; shape := shape x; values := values x; grad := g |}.

(** Set the attribute [grad] of a stored tensor. *)
Definition set_grad (l : loc) (g : option loc) : M unit := fun s =>
  match heap s !! l with
  | Some x => Ok (tt, {| heap := <[l := with_grad x g]> (heap s);
                         trace := trace s |})
  | None => Raise DanglingRef
  end.

(** [p.attach_grad()]: a fresh buffer of zeros of the shape of [p], on its
    device, becomes [p.grad]. *)
Definition attach_grad (p : loc) : M unit :=
  x ← deref p;
  gl ← alloc (zeros_like x);
  set_grad p (Some gl).

(** [copy]
<<
def copy(x, ctx):
    return [y.copyto(ctx) for y in x]
>> *)
Definition copy (x : list loc) (ctx : device) : M (list loc) :=
  mapM_ (λ y, copyto_new y ctx) x.

(** [get_params]
<<
def get_params(params, ctx):
    new_params = [p.copyto(ctx) for p in params]
    for p in new_params:
        p.attach_grad()
    return new_params
>> *)
Definition get_params (params : list loc) (ctx : device) : M (list loc) :=
  new_params ← mapM_ (λ p, copyto_new p ctx) params;
  for_ new_params attach_grad;;
  mret new_params.

(** [[get_params(params, c) for c in ctx]], as [run] builds [dev_params]. *)
Definition replicate_params (params : list loc) (ctx : list device)
  : M (list (list loc)) :=
  mapM_ (λ c, get_params params c) ctx.

(** The copy of [x] that [x.copyto(c)] makes. *)
Definition copy_of (x : NDArray) (c : device) : NDArray :=
  {| context := c; shape := shape x; values := values x; grad := None |}.

(** [pred == label]: elementwise comparison of two tensors on one device,
    1 where the entries are equal and 0 elsewhere.  As for [iadd], operands
    of different shapes are outside the model. *)
Definition nd_equal (x y : NDArray) : result NDArray :=
  if negb (same_context x y) then Raise MXNetError else
  if negb (same_shape x y) then Raise MXNetError else
  Ok {| context := context x; shape := shape x;
        values := zip_with (λ a b, if Qeq_bool a b then 1%Q else 0%Q)
                    (values x) (values y);
        grad := None |}.

(** [nd.sum(x).asscalar()] *)
Definition nd_sum (x : NDArray) : Q := foldr Qplus 0%Q (values x).

Section Run.

(** As in [train_batch], the network belongs to the framework: the forward
    and backward pass, and the prediction
    [nd.argmax(lenet(data, W), axis=1)], are parameters of the model. *)
Variable forward_backward :
  NDArray → NDArray → list NDArray → result (list (list Q)).
Variable predict : NDArray → list NDArray → result NDArray.

(** [valid_batch]
<<
def valid_batch(batch, params, ctx):
    data = batch.data[0].as_in_context(ctx[0])
    pred = nd.argmax(lenet(data, params[0]), axis=1)
    return nd.sum(pred == batch.label[0].as_in_context(ctx[0])).asscalar()
>> *)
Definition valid_batch (batch : DataBatch) (params : list (list loc))
    (ctx : list device) : M Q :=
  d ← lift (index (data batch) 0);
  c0 ← lift (index ctx 0);
  W ← lift (index params 0);
  ws ← mapM_ deref W;
  pred ← lift (predict (as_in_context d c0) ws);
  lb ← lift (index (label batch) 0);
  c0' ← lift (index ctx 0);
  eq ← lift (nd_equal pred (as_in_context lb c0'));
  mret (nd_sum eq).

(** The validation loop of [run]:
<<
        correct, num = 0.0, 0.0
        for batch in valid_data:
            correct += valid_batch(batch, dev_params, ctx)
            num += batch.data[0].shape[0]
>> *)
Fixpoint validate (valid_data : list DataBatch) (dev_params : list (list loc))
    (ctx : list device) (correct : Q) (num : nat) : M (Q * nat) :=
  match valid_data with
  | [] => mret (correct, num)
  | batch :: rest =>
      r ← valid_batch batch dev_params ctx;
      d ← lift (index (data batch) 0);
      n ← lift (shape0 d);
      validate rest dev_params ctx (Qplus correct r) (num + n)
  end.

(** [run]
<<
def run(num_gpus, batch_size, lr):
    # the list of GPUs will be used
    ctx = [gpu(i) for i in range(num_gpus)]
    ...
    # copy parameters to all GPUs
    dev_params = [get_params(params, c) for c in ctx]
    for epoch in range(5):
        # train
        train_data.reset()
        for batch in train_data:
            train_batch(batch, dev_params, ctx, lr)
        ...
        # validating
        valid_data.reset()
        correct, num = 0.0, 0.0
        for batch in valid_data:
            correct += valid_batch(batch, dev_params, ctx)
            num += batch.data[0].shape[0]
        print('         validation accuracy = %.4f'%(correct/num))
>>
    The global [params] is an argument.  The data set and its iterators are
    the framework's: [train_data] and [valid_data] are the batches that one
    pass over each iterator yields (the argument [batch_size] only sizes
    them).  Timing is left out, and instead of printing the quotient the
    model returns, per epoch, the pair [(correct, num)].  The quotient of the
    two initial Python floats, when there is no validation batch, raises;
    after a [+=] of a framework scalar the division cannot raise. *)
Definition run (params : list loc) (train_data valid_data : list DataBatch)
    (num_gpus : nat) (lr : Q) : M (list (Q * nat)) :=
  let ctx := gpu <$> seq 0 num_gpus in
  dev_params ← replicate_params params ctx;
  mapM_ (λ _ : nat,
      for_ train_data (λ batch,
        train_batch forward_backward batch dev_params ctx lr);;
      acc ← validate valid_data dev_params ctx 0%Q 0;
      match valid_data with
      | [] => raise ZeroDivisionError
      | _ :: _ => mret acc
      end)
    (seq 0 5).

End Run.

(** ** Vocabulary for the training loop *)

(** The replicas of every parameter have the same entries on all devices. *)
Definition replicas_equal (h : gmap loc NDArray) (params : list (list loc))
  : Prop :=
  ∀ i c c' x x', replica_at h params c i x → replica_at h params c' i x' →
                 values x = values x'.

(** The stored tensors [params] are well-formed and of the shapes [shapes]. *)
Definition originals_ok (h : gmap loc NDArray) (params : list loc)
    (shapes : list (list nat)) : Prop :=
  Forall2 (λ p sh, ∃ t, h !! p = Some t ∧ shape t = sh ∧ wf_NDArray t)
    params shapes.

(** Every replica lives on its device: the parameters of replica [c] are
    on [ctx[c]]. *)
Definition replicas_placed (h : gmap loc NDArray) (params : list (list loc))
    (ctx : list device) : Prop :=
  ∀ c i x, replica_at h params c i x → ctx !! c = Some (context x).

(** What the training loop asks of the framework's backward pass: on every
    shard that [split_and_load] cuts from a batch of the training data, with
    its labels, and on well-formed parameters of the shapes [shapes] that
    live on the shard's device, it returns gradients of those shapes.
    Nothing is asked on any other input. *)
Definition backward_ok
    (forward_backward :
       NDArray → NDArray → list NDArray → result (list (list Q)))
    (shapes : list (list nat)) (ctx : list device)
    (train_data : list DataBatch) : Prop :=
  ∀ b d lb n c dc ws,
    b ∈ train_data → batch_ok b d lb ctx n → ctx !! c = Some dc →
    Forall2 (λ w sh, shape w = sh ∧ wf_NDArray w ∧ context w = dc)
      ws shapes →
    ∃ gs, forward_backward (shard_of d (n / length ctx) c dc)
            (shard_of lb (n / length ctx) c dc) ws = Ok gs ∧
          Forall2 (λ sh g, length g = size_of sh) shapes gs.

(** What the validation loop asks of the framework's prediction: on the data
    of every validation batch, placed on the first device, and on
    well-formed parameters of the shapes [shapes] on that device, it returns
    one prediction per row, on that device.  Nothing is asked on any other
    input. *)
Definition predict_ok (predict : NDArray → list NDArray → result NDArray)
    (shapes : list (list nat)) (ctx : list device)
    (valid_data : list DataBatch) : Prop :=
  ∀ b d n c0 ws,
    b ∈ valid_data → data b !! 0 = Some d → shape d !! 0 = Some n →
    ctx !! 0 = Some c0 →
    Forall2 (λ w sh, shape w = sh ∧ wf_NDArray w ∧ context w = c0)
      ws shapes →
    ∃ pred, predict (as_in_context d c0) ws = Ok pred ∧
            context pred = c0 ∧ shape pred = [n].

(** Training batches that the devices divide evenly; validation batches
    with one label per row. *)
Definition train_data_ok (ctx : list device) (train_data : list DataBatch)
  : Prop :=
  Forall (λ b, ∃ d lb n, batch_ok b d lb ctx n) train_data.
Definition valid_data_ok (valid_data : list DataBatch) : Prop :=
  Forall (λ b, ∃ d lb n, data b !! 0 = Some d ∧ label b !! 0 = Some lb ∧
                         shape d !! 0 = Some n ∧ shape lb = [n] ∧
                         wf_NDArray lb) valid_data.

(** What the training loop keeps, relative to the store [h0] it started
    from: the layout of the replicas, their devices, their equality across
    devices, and every other tensor. *)
Definition loop_invariant (h0 : gmap loc NDArray)
    (dev gdev : list (list loc)) (shapes : list (list nat))
    (ctx : list device) (s : state) : Prop :=
  training_state (heap s) dev gdev shapes ∧
  replicas_placed (heap s) dev ctx ∧
  replicas_equal (heap s) dev ∧
  (∀ l, l ∉ concat dev ++ concat gdev → heap s !! l = h0 !! l).

(** The number of positions at which two lists of entries agree. *)
Definition agreements (u v : list Q) : nat :=
  length (filter (λ p : Q * Q, Is_true (Qeq_bool p.1 p.2)) (zip u v)).

(** A stand-in for the framework's prediction: class 0 for every row. *)
Definition demo_predict (X : NDArray) (ws : list NDArray) : result NDArray :=
  n ← shape0 X;
  Ok {| context := context X; shape := [n]; values := replicate n 0%Q;
        grad := None |}.

(** Stand-ins that, like a real network, accept one layout of input only:
    data of rank 2 with one label per row, and parameters on the device of
    the data.  Any other input is a framework error. *)
Definition checked_backward (X Y : NDArray) (ws : list NDArray)
  : result (list (list Q)) :=
  if (length (shape X) =? 2) && bool_decide (shape Y = take 1 (shape X))
     && forallb (same_context X) ws
  then demo_backward X Y ws else Raise MXNetError.
Definition checked_predict (X : NDArray) (ws : list NDArray)
  : result NDArray :=
  if (length (shape X) =? 2) && forallb (same_context X) ws
  then demo_predict X ws else Raise MXNetError.

(** ** [facc] of the conditional GAN notebook

<<
def facc(label, pred):
    pred = pred.ravel()
    label = label.ravel()
    return ((pred > 0.5) == label).mean()
>> *)

(** A NumPy array, by its shape and its entries in row-major order. *)
Record nparray : Type := mkArray {
  np_shape : list nat;
  np_values : list Q
}.

(** A NumPy float: a number, or [nan]. *)
Inductive npfloat : Type :=
  | Fin (q : Q)
  | NaN.

(** [a.ravel()]: the entries as one row. *)
Definition ravel (a : nparray) : list Q := np_values a.

(** [p > 0.5] *)
Definition gt_half (p : Q) : bool := negb (Qle_bool p (1 # 2)).

(** [b == l] for a boolean [b] and a number [l]: [True] counts as 1 and
    [False] as 0. *)
Definition bool_eq (b : bool) (l : Q) : bool :=
  Qeq_bool (if b then 1%Q else 0%Q) l.

(** The pairs of entries that the comparison [==] of two rows meets: rows
    of one length entry by entry, a row of one entry against every entry of
    the other.  Rows of other lengths do not broadcast: [==] then answers
    the plain [False], and [facc] fails on its [.mean()]. *)
Definition broadcast (u v : list Q) : result (list (Q * Q)) :=
  if decide (length u = length v) then Ok (zip u v) else
  match u, v with
  | [a], _ => Ok ((λ b, (a, b)) <$> v)
  | _, [b] => Ok ((λ a, (a, b)) <$> u)
  | _, _ => Raise AttributeError
  end.

(** [bs.mean()] of a row of booleans: the fraction of [True], [nan] for an
    empty row. *)
Definition np_mean (bs : list bool) : npfloat :=
  match bs with
  | [] => NaN
  | _ :: _ =>
      Fin (Qdiv (inject_Z (Z.of_nat (length (filter Is_true bs))))
                (inject_Z (Z.of_nat (length bs))))
  end.

Definition facc (label pred : nparray) : result npfloat :=
  let pred := ravel pred in
  let label := ravel label in
  ps ← broadcast pred label;
  mret (np_mean ((λ pl : Q * Q, bool_eq (gt_half pl.1) pl.2) <$> ps)).

(** The labels [1 - l]: real and fake exchanged. *)
Definition flip_labels (label : nparray) : nparray :=
  {| np_shape := np_shape label;
     np_values := (λ l, Qminus 1 l) <$> np_values label |}.

(** * Properties *)

(** ** Generic facts about the result monad and Python helpers *)

Lemma traverse_imap {B C} (f : nat → result B) (g : nat → C → B)
    (l : list C) (j : nat) :
  (∀ i c, l !! i = Some c → f (j + i) = Ok (g (j + i) c)) →
  traverse f (seq j (length l)) = Ok (imap (λ i, g (j + i)) l).
Proof.
  revert j; induction l as [|c l IH]; intros j Hf; [done|].
  cbn [length seq traverse].
  specialize (Hf 0 c eq_refl) as H0. rewrite Nat.add_0_r in H0.
  rewrite H0. cbn. rewrite (IH (S j)).
  - cbn. rewrite Nat.add_0_r. f_equal. f_equal.
    apply imap_ext. intros i x _. cbn. f_equal. lia.
  - intros i x Hi. replace (S j + i) with (j + S i) by lia. by apply Hf.
Qed.

Lemma range_from_lookup (a st c i : nat) :
  i < c → range_from a st c !! i = Some (a + i * st).
Proof.
  revert a i; induction c as [|c IH]; intros a i Hi; [lia|].
  destruct i as [|i]; cbn; [f_equal; lia|].
  rewrite IH by lia. f_equal. lia.
Qed.

Lemma range_from_length (a st c : nat) : length (range_from a st c) = c.
Proof. revert a; induction c as [|c IH]; intros a; cbn; [done|by rewrite IH]. Qed.

Lemma range_count_divisible (q k : nat) :
  0 < q → (q * k + 1 - 0 + q - 1) / q = S k.
Proof.
  intros Hq. replace (q * k + 1 - 0 + q - 1) with (S k * q) by lia.
  by apply Nat.div_mul, Nat.neq_0_lt_0.
Qed.

(** ** [split_and_load] *)

Lemma floordiv_exact (n k : nat) :
  0 < k → n `mod` k = 0 → n / k * k = n.
Proof.
  intros Hk Hm. pose proof (Nat.Div0.div_exact n k) as [_ H].
  specialize (H Hm). lia.
Qed.

(** On a non-empty batch that the devices divide evenly, [split_and_load]
    returns one shard per device, [shard_of] in device order. *)
Lemma split_and_load_ok (x : NDArray) (ctx : list device) (n : nat) :
  shape x !! 0 = Some n → 0 < n → 0 < length ctx → n `mod` length ctx = 0 →
  split_and_load x ctx = Ok (imap (shard_of x (n / length ctx)) ctx).
Proof.
  intros Hn Hpos Hk Hdiv.
  pose proof (floordiv_exact n (length ctx) Hk Hdiv) as Hq.
  assert (0 < n / length ctx) as Hq0 by (destruct (n / length ctx); lia).
  unfold split_and_load, shape0. rewrite Hn. cbn [from_option mbind result_bind].
  unfold floordiv. destruct (decide (length ctx = 0)) as [|_]; [lia|].
  cbn [mbind result_bind].
  rewrite (proj2 (Nat.eqb_eq _ _) Hq). cbn [negb].
  unfold py_range. destruct (decide (n / length ctx = 0)) as [|_]; [lia|].
  cbn [mbind result_bind].
  replace ((n + 1 - 0 + n / length ctx - 1) / (n / length ctx))
    with (S (length ctx)).
  2:{ rewrite <- (range_count_divisible (n / length ctx) (length ctx) Hq0).
      f_equal. lia. }
  rewrite (traverse_imap _ (shard_of x (n / length ctx)) ctx 0); [done|].
  intros i c Hi. cbn [Nat.add].
  pose proof (lookup_lt_Some _ _ _ Hi) as Hlt.
  rewrite !range_from_lookup by lia. rewrite Hi.
  cbn. unfold shard_of. do 2 f_equal; lia.
Qed.

Section Shards.

Variables (x : NDArray) (ctx : list device) (n : nat).
Hypothesis Hshape : shape x !! 0 = Some n.
Hypothesis Hpos : 0 < n.
Hypothesis Hdev : 0 < length ctx.
Hypothesis Hdiv : n `mod` length ctx = 0.

Lemma shard_bounds (i : nat) : i < length ctx → (i + 1) * (n / length ctx) ≤ n.
Proof.
  intros Hi. pose proof (floordiv_exact n (length ctx) Hdev Hdiv) as Hq.
  nia.
Qed.

Lemma shard_shape (i : nat) (c : device) :
  i < length ctx → shape (shard_of x (n / length ctx) i c) = (n / length ctx) :: tail (shape x).
Proof.
  intros Hi. pose proof (shard_bounds i Hi).
  unfold shard_of, slice; cbn. rewrite Hshape; cbn. f_equal. lia.
Qed.

Lemma shard_values (i : nat) (c : device) :
  i < length ctx →
  values (shard_of x (n / length ctx) i c) =
  take (n / length ctx * row_size x)
    (drop (i * (n / length ctx) * row_size x) (values x)).
Proof.
  intros Hi. pose proof (shard_bounds i Hi).
  unfold shard_of, slice; cbn. rewrite Hshape; cbn.
  replace (((i + 1) * (n / length ctx)) `min` n
           - (i * (n / length ctx)) `min` n) with (n / length ctx) by lia.
  by replace ((i * (n / length ctx)) `min` n)
    with (i * (n / length ctx)) by lia.
Qed.

Lemma shard_row (i j : nat) (c : device) :
  i < length ctx → j < n / length ctx →
  row (shard_of x (n / length ctx) i c) j = row x (i * (n / length ctx) + j).
Proof.
  intros Hi Hj. unfold row at 1.
  assert (row_size (shard_of x (n / length ctx) i c) = row_size x) as ->.
  { unfold row_size. by rewrite shard_shape. }
  rewrite shard_values by done.
  rewrite take_drop_commute, take_take.
  replace ((j * row_size x + row_size x)
             `min` (n / length ctx * row_size x))
    with (j * row_size x + row_size x) by nia.
  rewrite <- take_drop_commute, drop_drop.
  unfold row. do 2 f_equal. lia.
Qed.

End Shards.

Lemma concat_chunks {C} (l : list C) (m : nat) (v : list Q) (j : nat) :
  concat (imap (λ i _, take m (drop ((j + i) * m) v)) l) =
  take (length l * m) (drop (j * m) v).
Proof.
  revert j; induction l as [|c l IH]; intros j; [done|].
  rewrite imap_cons. cbn [concat length].
  rewrite (imap_ext _ (λ i _, take m (drop ((S j + i) * m) v))).
  2:{ intros i y _. cbn. do 2 f_equal. lia. }
  rewrite IH, Nat.add_0_r.
  replace (S j * m) with (j * m + m) by lia.
  rewrite <- drop_drop, take_take_drop. f_equal; lia.
Qed.

(** X1: what [split_and_load] returns on a non-empty batch of [n] rows that
    [K = length ctx >= 1] devices divide evenly: [K] shards of [n / K] rows,
    shard [i] on device [i] holding rows [i * (n/K) .. (i+1) * (n/K) - 1],
    and the shards concatenated in device order are the batch. *)
Lemma split_and_load_shards (x : NDArray) (ctx : list device) (n : nat) :
  wf_NDArray x →
  shape x !! 0 = Some n → 0 < n → 0 < length ctx → n `mod` length ctx = 0 →
  ∃ shards,
    split_and_load x ctx = Ok shards ∧
    length shards = length ctx ∧
    (∀ i s, shards !! i = Some s →
       ctx !! i = Some (context s) ∧
       shape s = (n / length ctx) :: tail (shape x) ∧
       ∀ j, j < n / length ctx → row s j = row x (i * (n / length ctx) + j)) ∧
    concat_values shards = values x ∧
    concat_rows shards = n.
Proof.
  intros Hwf Hn Hpos Hk Hdiv.
  pose proof (floordiv_exact n (length ctx) Hk Hdiv) as Hq.
  eexists. split; [by eapply split_and_load_ok|].
  split; [by rewrite length_imap|]. split; [|split].
  - intros i s Hs. apply list_lookup_imap_Some in Hs as (c & Hc & ->).
    pose proof (lookup_lt_Some _ _ _ Hc) as Hi.
    split; [done|]. split.
    + by eapply shard_shape.
    + intros j Hj. by eapply shard_row.
  - unfold concat_values. rewrite fmap_imap.
    rewrite (imap_ext _
      (λ i _, take (n / length ctx * row_size x)
                (drop ((0 + i) * (n / length ctx * row_size x)) (values x)))).
    2:{ intros i c Hc. unfold compose.
        pose proof (lookup_lt_Some _ _ _ Hc) as Hi.
        erewrite shard_values by done. do 2 f_equal. lia. }
    rewrite concat_chunks. cbn [Nat.mul drop]. apply take_ge.
    unfold wf_NDArray in Hwf. rewrite Hwf. unfold row_size.
    destruct (shape x) as [|n' sh]; [done|]. simplify_eq/=. nia.
  - unfold concat_rows. rewrite fmap_imap.
    rewrite (imap_ext _ (const (λ _, n / length ctx))).
    2:{ intros i c Hc. unfold compose.
        pose proof (lookup_lt_Some _ _ _ Hc) as Hi.
        by erewrite shard_shape. }
    rewrite imap_const, sum_list_fmap_const. lia.
Qed.

(** C3: a batch whose row count the [K >= 1] devices do not divide evenly
    makes [split_and_load] fail on its assertion; no shards are returned. *)
Theorem split_and_load_indivisible (x : NDArray) (ctx : list device) (n : nat) :
  shape x !! 0 = Some n → 1 ≤ length ctx → n `mod` length ctx ≠ 0 →
  split_and_load x ctx = Raise AssertionError.
Proof.
  intros Hn Hk Hdiv.
  unfold split_and_load, shape0. rewrite Hn. cbn [from_option mbind result_bind].
  unfold floordiv. destruct (decide (length ctx = 0)) as [|_]; [lia|].
  cbn [mbind result_bind].
  destruct (n / length ctx * length ctx =? n) eqn:E; [|done].
  apply Nat.eqb_eq in E. exfalso. apply Hdiv.
  apply Nat.Div0.div_exact. lia.
Qed.

(** C6: an empty batch, which every device count divides, passes the
    assertion and then fails in [range], whose step [n // k] is zero. *)
Theorem split_and_load_empty_batch (x : NDArray) (ctx : list device) :
  shape x !! 0 = Some 0 → 1 ≤ length ctx →
  0 `mod` length ctx = 0 ∧ split_and_load x ctx = Raise ValueError.
Proof.
  intros Hn Hk. split; [by apply Nat.Div0.mod_0_l|].
  unfold split_and_load, shape0. rewrite Hn. cbn [from_option mbind result_bind].
  unfold floordiv. destruct (decide (length ctx = 0)) as [|_]; [lia|].
  cbn [mbind result_bind]. by rewrite Nat.Div0.div_0_l.
Qed.

(** ** The store monad *)

Lemma state_eta (s : state) : {| heap := heap s; trace := trace s |} = s.
Proof. by destruct s. Qed.

Lemma with_values_id (x : NDArray) : with_values x (values x) = x.
Proof. by destruct x. Qed.

Lemma bind_ok {A B} (m : M A) (f : A → M B) (s s' : state) (a : A) :
  m s = Ok (a, s') → (m ≫= f) s = f a s'.
Proof. intros H. unfold mbind, M_bind. by rewrite H. Qed.

Lemma bind_ext {A B} (m m' : M A) (f f' : A → M B) (s : state) :
  m s = m' s → (∀ a s', f a s' = f' a s') → (m ≫= f) s = (m' ≫= f') s.
Proof.
  intros Hm Hf. unfold mbind, M_bind. rewrite Hm.
  by destruct (m' s) as [[a s']|e].
Qed.

Lemma deref_ok (l : loc) (x : NDArray) (s : state) :
  heap s !! l = Some x → deref l s = Ok (x, s).
Proof. intros H. unfold deref. by rewrite H. Qed.

Lemma store_values_ok (l : loc) (x : NDArray) (vs : list Q) (s : state) :
  heap s !! l = Some x →
  store_values l vs s =
  Ok (tt, {| heap := <[l := with_values x vs]> (heap s); trace := trace s |}).
Proof. intros H. unfold store_values. by rewrite H. Qed.

(** A loop over [range(a, a + len(l))] that only uses [l[i - a]] is the
    loop over the elements of [l]. *)
Lemma for_seq_index {A} (l : list A) (body : nat → M unit) (body' : A → M unit)
    (a : nat) :
  (∀ i d s, l !! i = Some d → body (a + i) s = body' d s) →
  ∀ s, for_ (seq a (length l)) body s = for_ l body' s.
Proof.
  revert a; induction l as [|d l IH]; intros a Hb s; [done|].
  cbn [length seq for_]. unfold mbind, M_bind.
  specialize (Hb 0 d s eq_refl) as H0. rewrite Nat.add_0_r in H0. rewrite H0.
  destruct (body' d s) as [[[] s']|e]; [|done].
  apply IH. intros i d' s'' Hi.
  replace (S a + i) with (a + S i) by lia. by apply Hb.
Qed.

(** ** [allreduce] *)

Lemma allreduce_cons (d0 : loc) (rest : list loc) (s : state) :
  allreduce (d0 :: rest) s =
  (for_ rest (reduce_step d0);; for_ rest (broadcast_step d0)) s.
Proof.
  unfold allreduce. cbn [length].
  replace (S (length rest) - 1) with (length rest) by lia.
  apply bind_ext.
  - apply for_seq_index. intros i d s' Hi. unfold index.
    change ((d0 :: rest) !! (1 + i)) with (rest !! i). by rewrite Hi.
  - intros _ s'. apply for_seq_index. intros i d s'' Hi. unfold index.
    change ((d0 :: rest) !! (1 + i)) with (rest !! i). by rewrite Hi.
Qed.

Lemma copyto_ctx_ok (src : loc) (c : device) (x : NDArray) (s : state) :
  heap s !! src = Some x →
  copyto_ctx src c s =
  Ok ({| context := c; shape := shape x; values := values x; grad := None |},
      {| heap := heap s; trace := trace s ++ [EvCopyCtx src c] |}).
Proof.
  intros H. unfold copyto_ctx.
  by rewrite (bind_ok _ _ _ _ _ (deref_ok _ _ _ H)).
Qed.

Lemma iadd_ok (dst : loc) (x t : NDArray) (s : state) :
  heap s !! dst = Some x → context x = context t → shape x = shape t →
  iadd dst t s =
  Ok (tt, {| heap := <[dst := with_values x
                             (zip_with Qplus (values x) (values t))]> (heap s);
             trace := trace s ++ [EvIAdd dst (values t)] |}).
Proof.
  intros H Hc Hs. unfold iadd, same_context, same_shape.
  rewrite (bind_ok _ _ _ _ _ (deref_ok _ _ _ H)).
  rewrite !bool_decide_eq_true_2 by done. cbn [negb].
  unfold mbind, M_bind, emit, store_values; cbn. by rewrite H.
Qed.

Lemma reduce_step_ok (d0 di : loc) (x0 xi : NDArray) (s : state) :
  heap s !! d0 = Some x0 → heap s !! di = Some xi → shape xi = shape x0 →
  reduce_step d0 di s =
  Ok (tt, {| heap := <[d0 := with_values x0
                            (zip_with Qplus (values x0) (values xi))]> (heap s);
             trace := trace s ++ [EvCopyCtx di (context x0);
                                  EvIAdd d0 (values xi)] |}).
Proof.
  intros H0 Hi Hsh. unfold reduce_step.
  rewrite (bind_ok _ _ _ _ _ (deref_ok _ _ _ H0)).
  rewrite (bind_ok _ _ _ _ _ (copyto_ctx_ok _ _ _ _ Hi)).
  erewrite iadd_ok; [|exact H0|done..]. cbn. by rewrite <- app_assoc.
Qed.

Lemma broadcast_step_ok (d0 di : loc) (x0 xi : NDArray) (s : state) :
  heap s !! d0 = Some x0 → heap s !! di = Some xi → d0 ≠ di →
  shape xi = shape x0 →
  broadcast_step d0 di s =
  Ok (tt, {| heap := <[di := with_values xi (values x0)]> (heap s);
             trace := trace s ++ [EvCopyTo d0 di] |}).
Proof.
  intros H0 Hi Hne Hsh.
  unfold broadcast_step, copyto, same_shape.
  rewrite (bind_ok _ _ _ _ _ (deref_ok _ _ _ H0)).
  rewrite (bind_ok _ _ _ _ _ (deref_ok _ _ _ Hi)).
  destruct (decide (d0 = di)); [done|].
  rewrite bool_decide_eq_true_2 by done.
  unfold mbind, M_bind, emit, store_values; cbn. by rewrite Hi.
Qed.

Lemma reduce_loop (d0 : loc) (rest : list loc) :
  ∀ (xs : list NDArray) (x0 : NDArray) (s : state),
  heap s !! d0 = Some x0 →
  Forall2 (λ l x, l ≠ d0 ∧ heap s !! l = Some x ∧ shape x = shape x0) rest xs →
  for_ rest (reduce_step d0) s =
  Ok (tt, {| heap := <[d0 := with_values x0
                            (running_sum (values x0) (values <$> xs))]> (heap s);
             trace := trace s ++ reduce_events (context x0) d0 rest xs |}).
Proof.
  induction rest as [|d rest IH]; intros xs x0 s H0 Hxs.
  - apply Forall2_nil_inv_l in Hxs as ->. cbn.
    rewrite with_values_id, insert_id, app_nil_r by done.
    unfold mret, M_ret. by rewrite state_eta.
  - apply Forall2_cons_inv_l in Hxs as (x & xs' & (Hne & Hd & Hsh) & Hxs & ->).
    cbn [for_]. erewrite bind_ok by (by eapply reduce_step_ok).
    erewrite IH; cycle 1.
    + cbn. apply lookup_insert_eq.
    + cbn. eapply Forall2_impl; [exact Hxs|]. cbn.
      intros l y (Hl & Hy & Hs). by rewrite lookup_insert_ne.
    + cbn. rewrite insert_insert_eq. do 2 f_equal.
      unfold reduce_events. cbn. by rewrite <- app_assoc.
Qed.

Lemma insert_as_alter (f : NDArray → NDArray) (l : loc) (x : NDArray)
    (h : gmap loc NDArray) :
  h !! l = Some x → <[l := f x]> h = alter f l h.
Proof.
  intros H. apply map_eq. intros k. rewrite lookup_insert, lookup_alter.
  case_decide; subst; by rewrite ?H.
Qed.

Lemma lookup_overwrite (v : list Q) (ls : list loc) (h : gmap loc NDArray)
    (k : loc) :
  overwrite v ls h !! k =
  if decide (k ∈ ls) then (λ x, with_values x v) <$> h !! k else h !! k.
Proof.
  unfold overwrite. revert h; induction ls as [|l ls IH]; intros h; cbn.
  { by rewrite decide_False by apply not_elem_of_nil. }
  rewrite IH, lookup_alter.
  destruct (decide (l = k)) as [->|Hne].
  - rewrite (decide_True (P := k ∈ k :: ls)) by (apply elem_of_cons; by left).
    destruct (decide (k ∈ ls)); [by destruct (h !! k)|done].
  - destruct (decide (k ∈ ls)) as [Hin|Hnin].
    + by rewrite (decide_True (P := k ∈ l :: ls))
        by (apply elem_of_cons; by right).
    + rewrite (decide_False (P := k ∈ l :: ls)); [done|].
      apply not_elem_of_cons; by split.
Qed.

Lemma broadcast_loop (d0 : loc) (x0 : NDArray) (rest : list loc) :
  ∀ s : state,
  heap s !! d0 = Some x0 →
  Forall (λ l, l ≠ d0 ∧ ∃ x, heap s !! l = Some x ∧ shape x = shape x0) rest →
  for_ rest (broadcast_step d0) s =
  Ok (tt, {| heap := overwrite (values x0) rest (heap s);
             trace := trace s ++ broadcast_events d0 rest |}).
Proof.
  induction rest as [|d rest IH]; intros s H0 Hrest.
  - cbn. rewrite app_nil_r. unfold mret, M_ret. by rewrite state_eta.
  - apply Forall_cons in Hrest as [(Hne & x & Hd & Hsh) Hrest].
    cbn [for_]. erewrite bind_ok by (by eapply broadcast_step_ok).
    rewrite IH; cycle 1.
    + cbn. by rewrite lookup_insert_ne.
    + cbn. eapply Forall_impl; [exact Hrest|]. cbn.
      intros l (Hl & y & Hy & Hs). split; [done|].
      rewrite lookup_insert. case_decide; subst; eauto.
    + cbn. rewrite (insert_as_alter (λ x, with_values x (values x0))) by done.
      unfold broadcast_events. cbn. by rewrite <- app_assoc.
Qed.

(** The closed form of [allreduce] on a home tensor [d0] and further
    tensors [rest] of the same shape, none of which is the home tensor. *)
Lemma allreduce_closed_form (d0 : loc) (rest : list loc) (x0 : NDArray)
    (xs : list NDArray) (s : state) :
  heap s !! d0 = Some x0 →
  Forall2 (λ l x, l ≠ d0 ∧ heap s !! l = Some x ∧ shape x = shape x0) rest xs →
  allreduce (d0 :: rest) s =
  Ok (tt, {| heap := overwrite (running_sum (values x0) (values <$> xs))
                       (d0 :: rest) (heap s);
             trace := trace s ++ reduce_events (context x0) d0 rest xs
                              ++ broadcast_events d0 rest |}).
Proof.
  intros H0 Hxs. rewrite allreduce_cons.
  assert (Forall (λ l, l ≠ d0 ∧ ∃ x, heap s !! l = Some x ∧ shape x = shape x0)
            rest) as Hrest.
  { clear H0. induction Hxs as [|l x ls xs' (Hl & Hx & Hs) _ IH];
      constructor; eauto. }
  erewrite bind_ok by (by eapply reduce_loop).
  erewrite broadcast_loop; cycle 1.
  - cbn. apply lookup_insert_eq.
  - cbn. eapply Forall_impl; [exact Hrest|]. cbn.
    intros l (Hl & x & Hx & Hs). split; [done|]. exists x.
    by rewrite lookup_insert_ne.
  - cbn. rewrite <- app_assoc. do 3 f_equal.
    unfold overwrite. cbn [foldl]. f_equal.
    by apply (insert_as_alter (λ x, with_values x _)).
Qed.

(** *** The running sum is the elementwise sum *)

Lemma nth_zip_with_Qplus (a b : list Q) (j : nat) :
  j < length a → j < length b →
  nth j (zip_with Qplus a b) 0%Q = Qplus (nth j a 0%Q) (nth j b 0%Q).
Proof.
  intros Ha Hb. rewrite !nth_lookup, lookup_zip_with.
  apply lookup_lt_is_Some in Ha as [u ->], Hb as [v ->]. done.
Qed.

Lemma running_sum_length (m : nat) (gs : list (list Q)) :
  ∀ g1, length g1 = m → Forall (λ g, length g = m) gs →
  length (running_sum g1 gs) = m.
Proof.
  unfold running_sum. induction gs as [|g gs IH]; intros g1 H1 Hgs; [done|].
  apply Forall_cons in Hgs as [Hg Hgs]. cbn. apply IH; [|done].
  rewrite length_zip_with. lia.
Qed.

Lemma running_sum_nth (m : nat) (gs : list (list Q)) (j : nat) :
  j < m →
  ∀ g1, length g1 = m → Forall (λ g, length g = m) gs →
  Qeq (nth j (running_sum g1 gs) 0%Q) (sum_at (g1 :: gs) j).
Proof.
  intros Hj. unfold running_sum, sum_at.
  induction gs as [|g gs IH]; intros g1 H1 Hgs; cbn.
  - by rewrite Qplus_0_r.
  - apply Forall_cons in Hgs as [Hg Hgs].
    rewrite IH; [|rewrite length_zip_with; lia|done]. cbn.
    rewrite nth_zip_with_Qplus by lia. by rewrite Qplus_assoc.
Qed.

(** *** [allreduce] on distinct tensors of one shape *)

Lemma allreduce_distinct (d0 : loc) (rest : list loc) (g0 : NDArray)
    (gs : list NDArray) (s : state) :
  NoDup (d0 :: rest) → stored_at s (d0 :: rest) (g0 :: gs) →
  Forall (λ g, shape g = shape g0) gs →
  allreduce (d0 :: rest) s =
  Ok (tt, {| heap := overwrite (running_sum (values g0) (values <$> gs))
                       (d0 :: rest) (heap s);
             trace := trace s ++ reduce_events (context g0) d0 rest gs
                              ++ broadcast_events d0 rest |}).
Proof.
  intros [Hnin _]%NoDup_cons Hst Hsh.
  apply Forall2_cons in Hst as [H0 Hst].
  apply allreduce_closed_form; [done|].
  clear H0. revert Hsh Hnin. unfold stored_at in Hst.
  induction Hst as [|l x ls xs Hl _ IH]; intros Hsh Hnin; constructor.
  - apply Forall_cons in Hsh as [Hx _].
    apply not_elem_of_cons in Hnin as [Hne _]. done.
  - apply Forall_cons in Hsh as [_ Hsh].
    apply not_elem_of_cons in Hnin as [_ Hnin]. by apply IH.
Qed.

(** C1: on a non-empty list of distinct stored tensors of one shape (one
    gradient per device), [allreduce] succeeds and leaves in every tensor of
    the list the same entries [total], and entry [j] of [total] is the exact
    sum of the entries [j] of the tensors given. *)
Theorem allreduce_elementwise_sum (data : list loc) (gs : list NDArray)
    (sh : list nat) (s : state) :
  data ≠ [] → NoDup data → stored_at s data gs → same_shaped sh gs →
  ∃ s' total,
    allreduce data s = Ok (tt, s') ∧
    length total = size_of sh ∧
    (∀ j, j < size_of sh →
       Qeq (nth j total 0%Q) (sum_at (values <$> gs) j)) ∧
    (∀ l, l ∈ data →
       ∃ g', heap s' !! l = Some g' ∧ shape g' = sh ∧ values g' = total).
Proof.
  intros Hne Hnd Hst Hsh. destruct data as [|d0 rest]; [done|].
  pose proof Hst as Hst'.
  apply Forall2_cons_inv_l in Hst' as (g0 & gs' & H0 & Hrest & ->).
  apply Forall_cons in Hsh as [[Hwf0 Hsh0] Hsh].
  assert (Forall (λ g, length g = size_of sh) (values <$> gs')) as Hlen.
  { apply Forall_fmap. eapply Forall_impl; [exact Hsh|].
    intros g [Hwf <-]. exact Hwf. }
  assert (length (values g0) = size_of sh) as Hlen0 by (by rewrite <- Hsh0).
  eexists _, (running_sum (values g0) (values <$> gs')).
  split; [|split; [|split]].
  - apply allreduce_distinct; [done..|].
    eapply Forall_impl; [exact Hsh|]. intros g [_ ->]. done.
  - by apply running_sum_length.
  - intros j Hj. by apply (running_sum_nth (size_of sh)).
  - intros l Hl. cbn [heap]. rewrite lookup_overwrite, decide_True by done.
    apply list_elem_of_lookup in Hl as [i Hi].
    destruct (Forall2_lookup_l _ _ _ _ _ Hst Hi) as (g & Hg & Hlg).
    rewrite Hlg. eexists. split; [done|]. split; [|done]. cbn.
    apply list_elem_of_lookup_2 in Hg.
    apply elem_of_cons in Hg as [->|Hg]; [done|].
    by apply (proj1 (Forall_forall _ _) Hsh g Hg).
Qed.

(** C10: [allreduce] on distinct stored tensors of one shape changes nothing
    but the entries of the tensors of its list: references outside the list
    read as before, no tensor appears or disappears, every tensor of the list
    keeps device, shape and gradient buffer, the only in-place additions go
    into element 0 and the only copies go from element 0 to the other
    elements, which end with the entries of element 0, the running sum. *)
Theorem allreduce_frame (d0 : loc) (rest : list loc) (g0 : NDArray)
    (gs : list NDArray) (s : state) :
  NoDup (d0 :: rest) → stored_at s (d0 :: rest) (g0 :: gs) →
  Forall (λ g, shape g = shape g0) gs →
  ∃ s',
    allreduce (d0 :: rest) s = Ok (tt, s') ∧
    (∀ l, l ∉ d0 :: rest → heap s' !! l = heap s !! l) ∧
    dom (heap s') = dom (heap s) ∧
    (∀ i l g, (d0 :: rest) !! i = Some l → (g0 :: gs) !! i = Some g →
       ∃ g', heap s' !! l = Some g' ∧
             context g' = context g ∧ shape g' = shape g ∧ grad g' = grad g ∧
             values g' = running_sum (values g0) (values <$> gs)) ∧
    trace s' = trace s ++ reduce_events (context g0) d0 rest gs
                       ++ broadcast_events d0 rest.
Proof.
  intros Hnd Hst Hsh. eexists. split; [by apply allreduce_distinct|].
  cbn [heap trace]. split; [|split; [|split; [|done]]].
  - intros l Hl. by rewrite lookup_overwrite, decide_False.
  - apply set_eq. intros l. rewrite !elem_of_dom, lookup_overwrite.
    case_decide; [|done]. by rewrite fmap_is_Some.
  - intros i l g Hl Hg.
    pose proof (Forall2_lookup_lr _ _ _ _ _ _ Hst Hl Hg) as Hlg. cbn in Hlg.
    rewrite lookup_overwrite, decide_True by (by eapply list_elem_of_lookup_2).
    rewrite Hlg. by eexists.
Qed.

Lemma added_sources_reduce (c : device) (d0 : loc) (rest : list loc)
    (xs : list NDArray) :
  length rest = length xs → added_sources (reduce_events c d0 rest xs) = rest.
Proof.
  revert xs. induction rest as [|l rest IH]; intros [|x xs] Hlen;
    simplify_eq/=; [done|]. f_equal. by apply IH.
Qed.

Lemma added_sources_broadcast (d0 : loc) (rest : list loc) :
  added_sources (broadcast_events d0 rest) = [].
Proof. by induction rest. Qed.

Lemma additions_reduce (c : device) (d0 : loc) (rest : list loc)
    (xs : list NDArray) :
  length rest = length xs →
  additions (reduce_events c d0 rest xs) = (λ x, (d0, values x)) <$> xs.
Proof.
  revert xs. induction rest as [|l rest IH]; intros [|x xs] Hlen;
    simplify_eq/=; [done|]. f_equal. by apply IH.
Qed.

Lemma additions_broadcast (d0 : loc) (rest : list loc) :
  additions (broadcast_events d0 rest) = [].
Proof. by induction rest. Qed.

(** C7, as the code has it: the summation order is fixed.  On distinct
    stored tensors of one shape, [allreduce] copies the elements 1, 2, ...,
    K-1 to the home device in list order, its in-place additions all go into
    element 0 and add the entries of the elements 1, 2, ..., K-1 in list
    order, one after the other, and element 0 ends with exactly the
    left-nested sum [((g_0 + g_1) + g_2) + ...]. *)
Theorem allreduce_order_fixed (d0 : loc) (rest : list loc) (g0 : NDArray)
    (gs : list NDArray) (s : state) :
  NoDup (d0 :: rest) → stored_at s (d0 :: rest) (g0 :: gs) →
  Forall (λ g, shape g = shape g0) gs →
  ∃ s' tr,
    allreduce (d0 :: rest) s = Ok (tt, s') ∧
    trace s' = trace s ++ tr ∧
    added_sources tr = rest ∧
    additions tr = (λ g, (d0, values g)) <$> gs ∧
    values <$> heap s' !! d0 =
      Some (foldl (zip_with Qplus) (values g0) (values <$> gs)).
Proof.
  intros Hnd Hst Hsh. eexists _, _. split; [by apply allreduce_distinct|].
  cbn [heap trace]. split; [done|].
  assert (length rest = length gs) as Hlen.
  { apply Forall2_length in Hst. by simplify_eq/=. }
  split; [|split].
  - unfold added_sources. rewrite omap_app.
    fold (added_sources (reduce_events (context g0) d0 rest gs)).
    fold (added_sources (broadcast_events d0 rest)).
    by rewrite added_sources_reduce, added_sources_broadcast, app_nil_r.
  - unfold additions. rewrite omap_app.
    fold (additions (reduce_events (context g0) d0 rest gs)).
    fold (additions (broadcast_events d0 rest)).
    by rewrite additions_reduce, additions_broadcast, app_nil_r.
  - rewrite lookup_overwrite, decide_True by (apply elem_of_cons; by left).
    apply Forall2_cons in Hst as [-> _]. done.
Qed.

(** C9: on a single tensor [allreduce] does nothing at all: the store and
    the trace of framework calls are returned as they were. *)
Theorem allreduce_single_device (l : loc) (s : state) :
  allreduce [l] s = Ok (tt, s).
Proof. reflexivity. Qed.

(** C7, as the spec has it, fails.  On three devices holding [[1, 1]],
    [[2, 2]] and [[4, 4]] the loop of [allreduce] adds into the first tensor
    the entries of the second and then those of the third.  Every run on
    this input issues these framework calls in this order: the additions
    follow the list, and the other order, the third tensor before the
    second, does not occur. *)
Lemma allreduce_three_devices_in_list_order :
  (∃ s', allreduce [0; 1; 2] demo_state3 = Ok (tt, s')) ∧
  ∀ s1 s2,
    allreduce [0; 1; 2] demo_state3 = Ok (tt, s1) →
    allreduce [0; 1; 2] demo_state3 = Ok (tt, s2) →
    trace s1 = [EvCopyCtx 1 (gpu 0); EvIAdd 0 [2%Q; 2%Q];
                EvCopyCtx 2 (gpu 0); EvIAdd 0 [4%Q; 4%Q];
                EvCopyTo 0 1; EvCopyTo 0 2] ∧
    additions (trace s1) = [(0, [2%Q; 2%Q]); (0, [4%Q; 4%Q])] ∧
    additions (trace s2) = [(0, [2%Q; 2%Q]); (0, [4%Q; 4%Q])] ∧
    additions (trace s2) ≠ [(0, [4%Q; 4%Q]); (0, [2%Q; 2%Q])].
Proof.
  assert (∃ s', allreduce [0; 1; 2] demo_state3 = Ok (tt, s') ∧
                trace s' = [EvCopyCtx 1 (gpu 0); EvIAdd 0 [2%Q; 2%Q];
                            EvCopyCtx 2 (gpu 0); EvIAdd 0 [4%Q; 4%Q];
                            EvCopyTo 0 1; EvCopyTo 0 2])
    as (s' & Hrun & Htr).
  { eexists. split; [vm_compute; reflexivity|reflexivity]. }
  split; [by exists s'|]. intros s1 s2 H1 H2.
  rewrite Hrun in H1, H2. simplify_eq. rewrite Htr.
  split; [done|]. split; [done|]. split; [done|]. cbn. discriminate.
Qed.

(** C8: the notebook's demonstration.  The 4-row batch splits over two
    devices into shards of 2 rows each, and all-reducing [[1, 1]] on gpu(0)
    with [[2, 2]] on gpu(1) leaves [[3, 3]] on both. *)
Theorem demo_split_and_allreduce :
  (∃ shards, split_and_load batch44 [gpu 0; gpu 1] = Ok shards ∧
             shape0 <$> shards = [Ok 2; Ok 2]) ∧
  (∃ s', allreduce [0; 1] demo_state = Ok (tt, s') ∧
         heap s' = {[ 0 := ones12 (gpu 0) 3%Q; 1 := ones12 (gpu 1) 3%Q ]}).
Proof. split; eexists; split; vm_compute; reflexivity. Qed.

(** C2 fails on the empty batch: two devices divide its 0 rows evenly, and
    [split_and_load] raises instead of returning two empty shards. *)
Theorem split_and_load_empty_two_devices :
  shape0 empty_batch = Ok 0 ∧ 0 `mod` length [gpu 0; gpu 1] = 0 ∧
  split_and_load empty_batch [gpu 0; gpu 1] = Raise ValueError.
Proof. repeat split. Qed.

(** ** In-place writes *)

Lemma apply_writes_app (ws1 ws2 : list (loc * list Q)) (h : gmap loc NDArray) :
  apply_writes (ws1 ++ ws2) h = apply_writes ws2 (apply_writes ws1 h).
Proof. apply foldl_app. Qed.

Lemma lookup_apply_writes_notin (ws : list (loc * list Q)) (k : loc) :
  ∀ h, k ∉ ws.*1 → apply_writes ws h !! k = h !! k.
Proof.
  unfold apply_writes. induction ws as [|[l v] ws IH]; intros h Hk; [done|].
  cbn in *. apply not_elem_of_cons in Hk as [Hne Hk].
  rewrite IH by done. by rewrite lookup_alter_ne.
Qed.

Lemma lookup_apply_writes_in (ws : list (loc * list Q)) (k : loc) (v : list Q) :
  ∀ h, NoDup ws.*1 → (k, v) ∈ ws →
  apply_writes ws h !! k = (λ x, with_values x v) <$> h !! k.
Proof.
  induction ws as [|[l u] ws IH]; intros h Hnd Hin.
  { by apply elem_of_nil in Hin. }
  cbn in Hnd. apply NoDup_cons in Hnd as [Hl Hnd].
  apply elem_of_cons in Hin as [[= -> ->]|Hin].
  - change (apply_writes ((l, u) :: ws) h)
      with (apply_writes ws (alter (λ x, with_values x u) l h)).
    rewrite lookup_apply_writes_notin by done. by rewrite lookup_alter_eq.
  - change (apply_writes ((l, u) :: ws) h)
      with (apply_writes ws (alter (λ x, with_values x u) l h)).
    rewrite IH by done. rewrite lookup_alter_ne; [done|].
    intros ->. apply Hl. by apply (list_elem_of_fmap_2 fst _ (k, v)).
Qed.

Lemma skeleton_apply_writes (ws : list (loc * list Q)) (k : loc) :
  ∀ h, skeleton <$> apply_writes ws h !! k = skeleton <$> h !! k.
Proof.
  unfold apply_writes. induction ws as [|[l v] ws IH]; intros h; [done|].
  cbn. rewrite IH, lookup_alter. case_decide; subst; [|done].
  by destruct (h !! k).
Qed.

Lemma overwrite_as_writes (v : list Q) (ls : list loc) (h : gmap loc NDArray) :
  overwrite v ls h = apply_writes ((λ l, (l, v)) <$> ls) h.
Proof.
  unfold overwrite, apply_writes. revert h.
  induction ls as [|l ls IH]; intros h; [done|]. cbn. by rewrite IH.
Qed.

(** ** Loops with an invariant *)

(** Total correctness of [for x in l: body(x)]: an invariant that holds of
    the empty prefix and that every iteration extends by one element makes
    the loop return, with the invariant of the whole list. *)
Lemma for_inv {A} (body : A → M unit) (I : list A → state → Prop)
    (l : list A) :
  (∀ done a rest s, l = done ++ a :: rest → I done s →
     ∃ s', body a s = Ok (tt, s') ∧ I (done ++ [a]) s') →
  ∀ s, I [] s → ∃ s', for_ l body s = Ok (tt, s') ∧ I l s'.
Proof.
  intros Hstep.
  enough (∀ rest done s, l = done ++ rest → I done s →
            ∃ s', for_ rest body s = Ok (tt, s') ∧ I l s') as H.
  { intros s Hs. by apply (H l [] s). }
  induction rest as [|a rest IH]; intros done s Hl Hs.
  - rewrite app_nil_r in Hl. subst. by exists s.
  - destruct (Hstep done a rest s Hl Hs) as (s1 & Hbody & Hs1).
    cbn [for_]. rewrite (bind_ok _ _ _ _ _ Hbody).
    apply (IH (done ++ [a])); [|done]. by rewrite <- app_assoc.
Qed.

(** Reading the tensors behind a list of references leaves the state. *)
Lemma mapM_deref_ok (ls : list loc) (xs : list NDArray) (s : state) :
  stored_at s ls xs → mapM_ deref ls s = Ok (xs, s).
Proof.
  unfold stored_at. induction 1 as [|l x ls xs Hl _ IH]; [done|].
  cbn [mapM_]. rewrite (bind_ok _ _ _ _ _ (deref_ok _ _ _ Hl)).
  by rewrite (bind_ok _ _ _ _ _ IH).
Qed.

(** ** [SGD] *)

Lemma SGD_unfold (params : list loc) (lr : Q) :
  SGD params lr = for_ params (sgd_step lr).
Proof. reflexivity. Qed.

Lemma grad_of_ok (e : exn) (p gl : loc) (x : NDArray) (s : state) :
  heap s !! p = Some x → grad x = Some gl → grad_of e p s = Ok (gl, s).
Proof.
  intros Hp Hgl. unfold grad_of.
  rewrite (bind_ok _ _ _ _ _ (deref_ok _ _ _ Hp)). by rewrite Hgl.
Qed.

Lemma nd_sub_ok (x t : NDArray) :
  context x = context t → shape x = shape t →
  nd_sub x t = Ok {| context := context x; shape := shape x;
                     values := zip_with Qminus (values x) (values t);
                     grad := None |}.
Proof.
  intros Hc Hs. unfold nd_sub, same_context, same_shape.
  by rewrite !bool_decide_eq_true_2 by done.
Qed.

Lemma setitem_ok (dst : loc) (x t : NDArray) (s : state) :
  heap s !! dst = Some x → shape x = shape t →
  setitem dst t s =
  Ok (tt, {| heap := <[dst := with_values x (values t)]> (heap s);
             trace := trace s ++ [EvSetItem dst] |}).
Proof.
  intros H Hs. unfold setitem, same_shape.
  rewrite (bind_ok _ _ _ _ _ (deref_ok _ _ _ H)).
  rewrite bool_decide_eq_true_2 by done. cbn [negb].
  unfold mbind, M_bind, emit, store_values; cbn. by rewrite H.
Qed.

Lemma sgd_step_ok (lr : Q) (p gl : loc) (x g : NDArray) (s : state) :
  heap s !! p = Some x → grad x = Some gl → heap s !! gl = Some g →
  context x = context g → shape x = shape g →
  ∃ s', sgd_step lr p s = Ok (tt, s') ∧
        heap s' = <[p := with_values x (sgd_values (values x) (values g) lr)]>
                    (heap s).
Proof.
  intros Hp Hgl Hg Hc Hs. unfold sgd_step.
  rewrite (bind_ok _ _ _ _ _ (deref_ok _ _ _ Hp)).
  rewrite (bind_ok _ _ _ _ _ (grad_of_ok _ _ _ _ _ Hp Hgl)).
  rewrite (bind_ok _ _ _ _ _ (deref_ok _ _ _ Hg)).
  rewrite (nd_sub_ok x (mul_scalar g lr)) by done.
  erewrite bind_ok by reflexivity.
  erewrite setitem_ok by done. by eexists.
Qed.

Lemma sgd_write_ready (h : gmap loc NDArray) (lr : Q) (p gl : loc)
    (x g : NDArray) :
  h !! p = Some x → grad x = Some gl → h !! gl = Some g →
  sgd_write h lr p = [(p, sgd_values (values x) (values g) lr)].
Proof. intros Hp Hgl Hg. unfold sgd_write. rewrite Hp, Hgl. cbn. by rewrite Hg. Qed.

Lemma sgd_write_keys (h : gmap loc NDArray) (lr : Q) (ps : list loc) (l : loc) :
  l ∈ (ps ≫= sgd_write h lr).*1 → l ∈ ps.
Proof.
  intros ([l' v] & -> & Hin)%list_elem_of_fmap.
  apply list_elem_of_bind in Hin as (p & Hin & Hp).
  unfold sgd_write in Hin.
  destruct (h !! p) as [x|]; [|by apply elem_of_nil in Hin].
  destruct (grad x ≫= (h !!.)); [|by apply elem_of_nil in Hin].
  apply list_elem_of_singleton in Hin as [= -> ->]. done.
Qed.

Lemma sgd_write_lookup_notin (h : gmap loc NDArray) (lr : Q) (ps : list loc)
    (l : loc) :
  l ∉ ps → apply_writes (ps ≫= sgd_write h lr) h !! l = h !! l.
Proof.
  intros Hl. apply lookup_apply_writes_notin.
  intros Hin. by apply Hl, (sgd_write_keys h lr).
Qed.

(** The closed form of [SGD] on distinct parameters, each ready for the
    update, whose gradient buffers are not among the parameters. *)
Lemma SGD_closed_form (W : list loc) (lr : Q) (s : state) :
  NoDup W →
  (∀ p, p ∈ W → sgd_ready (heap s) p) →
  (∀ p x gl, p ∈ W → heap s !! p = Some x → grad x = Some gl → gl ∉ W) →
  ∃ s', SGD W lr s = Ok (tt, s') ∧
        heap s' = apply_writes (W ≫= sgd_write (heap s) lr) (heap s).
Proof.
  intros Hnd Hready Hgrads. rewrite SGD_unfold.
  apply (for_inv (sgd_step lr)
           (λ done s', heap s' =
              apply_writes (done ≫= sgd_write (heap s) lr) (heap s))); [|done].
  intros done p rest s1 -> Hs1.
  assert (p ∈ done ++ p :: rest) as Hin by (apply elem_of_app; right; left).
  destruct (Hready p Hin) as (x & gl & g & Hp & Hgl & Hg & Hc & Hsh).
  apply NoDup_app in Hnd as (_ & Hdisj & _).
  assert (p ∉ done) as Hpd.
  { intros Hd. apply (Hdisj p Hd). left. }
  assert (gl ∉ done) as Hgd.
  { intros Hd. apply (Hgrads p x gl Hin Hp Hgl). apply elem_of_app. by left. }
  assert (heap s1 !! p = Some x) as Hp1.
  { by rewrite Hs1, sgd_write_lookup_notin. }
  assert (heap s1 !! gl = Some g) as Hg1.
  { by rewrite Hs1, sgd_write_lookup_notin. }
  destruct (sgd_step_ok lr p gl x g s1 Hp1 Hgl Hg1 Hc Hsh) as (s' & Hrun & Hs').
  exists s'. split; [done|].
  rewrite Hs', bind_app, apply_writes_app, <- Hs1. cbn.
  rewrite app_nil_r, (sgd_write_ready _ _ _ _ _ _ Hp Hgl Hg). cbn.
  by apply (insert_as_alter (λ x, with_values x _)).
Qed.

Lemma sgd_write_ext (h h' : gmap loc NDArray) (lr : Q) (p : loc) :
  h' !! p = h !! p →
  (∀ x gl, h !! p = Some x → grad x = Some gl → h' !! gl = h !! gl) →
  sgd_write h' lr p = sgd_write h lr p.
Proof.
  intros Hp Hg. unfold sgd_write. rewrite Hp.
  destruct (h !! p) as [x|] eqn:Hx; [|done].
  destruct (grad x) as [gl|] eqn:Hgl; [|done]. cbn.
  by rewrite (Hg x gl).
Qed.

Lemma sgd_write_fst (h : gmap loc NDArray) (lr : Q) (ps : list loc) :
  (∀ p, p ∈ ps → sgd_ready h p) → (ps ≫= sgd_write h lr).*1 = ps.
Proof.
  induction ps as [|p ps IH]; intros Hready; [done|].
  destruct (Hready p) as (x & gl & g & Hp & Hgl & Hg & _); [by left|].
  rewrite bind_cons, (sgd_write_ready _ _ _ _ _ _ Hp Hgl Hg). cbn.
  f_equal. apply IH. intros q Hq. apply Hready. by right.
Qed.

(** *** The update phase *)

Lemma update_params_closed_form (batch : DataBatch) (params : list (list loc))
    (lr : Q) (d : NDArray) (n : nat) (s : state) :
  data batch !! 0 = Some d → shape d !! 0 = Some n → 0 < n →
  update_ready (heap s) params →
  ∃ s', update_params batch params lr s = Ok (tt, s') ∧
        heap s' =
        apply_writes
          (concat params ≫= sgd_write (heap s) (lr / inject_Z (Z.of_nat n)))
          (heap s).
Proof.
  intros Hd Hn Hpos (Hnd & Hready & Hgrads). unfold update_params.
  set (lr' := (lr / inject_Z (Z.of_nat n))%Q).
  apply (for_inv _
           (λ done s', heap s' =
              apply_writes (concat done ≫= sgd_write (heap s) lr') (heap s)));
    [|done].
  intros done W rest s1 -> Hs1.
  unfold index, shape0, truediv. rewrite Hd. cbn [from_option].
  erewrite bind_ok by reflexivity. rewrite Hn. cbn [from_option].
  erewrite bind_ok by reflexivity.
  destruct (decide (n = 0)) as [|_]; [lia|].
  erewrite bind_ok by reflexivity. fold lr'.
  rewrite concat_app, concat_cons in Hnd, Hready, Hgrads.
  assert (∀ l, l ∉ concat done → heap s1 !! l = heap s !! l) as Hsame.
  { intros l Hl. rewrite Hs1. by apply sgd_write_lookup_notin. }
  assert (∀ p, p ∈ W → p ∉ concat done) as HW.
  { intros p Hp Hd'. apply NoDup_app in Hnd as (_ & Hdisj & _).
    apply (Hdisj p Hd'). apply elem_of_app. by left. }
  assert (∀ p, p ∈ W → p ∈ concat done ++ W ++ concat rest) as HWin.
  { intros p Hp. rewrite !elem_of_app. auto. }
  assert (∀ p x gl, p ∈ W → heap s !! p = Some x → grad x = Some gl →
            heap s1 !! gl = heap s !! gl) as Hgsame.
  { intros p x gl Hp Hx Hgl. apply Hsame. intros Hgd.
    apply (Hgrads p x gl (HWin p Hp) Hx Hgl). apply elem_of_app. by left. }
  destruct (SGD_closed_form W lr' s1) as (s' & Hrun & Hs').
  - apply NoDup_app in Hnd as (_ & _ & Hnd).
    by apply NoDup_app in Hnd as (Hnd & _).
  - intros p Hp. destruct (Hready p (HWin p Hp))
      as (x & gl & g & Hx & Hgl & Hg & Hc & Hsh).
    exists x, gl, g. rewrite (Hsame p (HW p Hp)), (Hgsame p x gl Hp Hx Hgl).
    done.
  - intros p x gl Hp Hx Hgl Hin. rewrite (Hsame p (HW p Hp)) in Hx.
    apply (Hgrads p x gl (HWin p Hp) Hx Hgl). rewrite !elem_of_app. auto.
  - exists s'. split; [done|]. rewrite Hs'.
    rewrite concat_app, bind_app, apply_writes_app, <- Hs1.
    change (concat [W]) with (W ++ []). rewrite app_nil_r.
    f_equal. apply Forall_bind_ext, Forall_forall.
    intros p Hp. apply sgd_write_ext; [by apply Hsame, HW|].
    intros x gl Hx Hgl. by apply (Hgsame p x gl).
Qed.

Lemma elem_of_concat_lookup {A} (ls : list (list A)) (c i : nat) (l : list A)
    (x : A) :
  ls !! c = Some l → l !! i = Some x → x ∈ concat ls.
Proof.
  revert c; induction ls as [|l' ls IH]; intros c Hc Hi; [done|].
  cbn. apply elem_of_app. destruct c as [|c]; simplify_eq/=.
  - left. by eapply list_elem_of_lookup_2.
  - right. by eapply IH.
Qed.

Lemma update_params_lookup (batch : DataBatch) (params : list (list loc))
    (lr : Q) (d : NDArray) (n : nat) (s : state) :
  data batch !! 0 = Some d → shape d !! 0 = Some n → 0 < n →
  update_ready (heap s) params →
  ∃ s', update_params batch params lr s = Ok (tt, s') ∧
    (∀ l, l ∉ concat params → heap s' !! l = heap s !! l) ∧
    (∀ p x gl g, p ∈ concat params →
       heap s !! p = Some x → grad x = Some gl → heap s !! gl = Some g →
       heap s' !! p =
       Some (with_values x
               (sgd_values (values x) (values g)
                  (lr / inject_Z (Z.of_nat n))))).
Proof.
  intros Hd Hn Hpos Hready.
  destruct (update_params_closed_form batch params lr d n s Hd Hn Hpos Hready)
    as (s' & Hrun & Hs').
  destruct Hready as (Hnd & Hready & Hgrads).
  exists s'. split; [done|]. rewrite Hs'. split.
  - intros l Hl. by apply sgd_write_lookup_notin.
  - intros p x gl g Hp Hx Hgl Hg.
    erewrite lookup_apply_writes_in.
    + by rewrite Hx.
    + by rewrite sgd_write_fst.
    + apply list_elem_of_bind. exists p. split; [|done].
      rewrite (sgd_write_ready _ _ _ _ _ _ Hx Hgl Hg). by left.
Qed.

Lemma sgd_values_proper (lr : Q) (w w' : list Q) :
  values_eq w w' → ∀ g g', values_eq g g' →
  values_eq (sgd_values w g lr) (sgd_values w' g' lr).
Proof.
  unfold values_eq, sgd_values.
  induction 1 as [|a a' w w' Ha _ IH]; intros g g' Hg; [constructor|].
  destruct Hg as [|b b' g g' Hb Hg]; cbn; constructor; [|by apply IH].
  by rewrite Ha, Hb.
Qed.

(** C5: in the update phase, when the replicas of parameter [i] are
    numerically identical and so are the gradients the devices hold for it,
    the update succeeds and leaves the replicas numerically identical. *)
Theorem update_keeps_replicas_identical (batch : DataBatch)
    (params : list (list loc)) (lr : Q) (d : NDArray) (n i : nat) (s : state) :
  data batch !! 0 = Some d → shape d !! 0 = Some n → 0 < n →
  update_ready (heap s) params →
  replicas_identical (heap s) params i →
  grads_identical (heap s) params i →
  ∃ s', update_params batch params lr s = Ok (tt, s') ∧
        replicas_identical (heap s') params i.
Proof.
  intros Hd Hn Hpos Hready Hrep Hgrad.
  destruct (update_params_lookup batch params lr d n s Hd Hn Hpos Hready)
    as (s' & Hrun & _ & Hnew).
  exists s'. split; [done|].
  destruct Hready as (_ & Hready & _).
  intros c c' y y' (W & p & HW & Hp & Hy) (W' & p' & HW' & Hp' & Hy').
  pose proof (elem_of_concat_lookup _ _ _ _ _ HW Hp) as Hin.
  pose proof (elem_of_concat_lookup _ _ _ _ _ HW' Hp') as Hin'.
  destruct (Hready p Hin) as (x & gl & g & Hx & Hgl & Hg & _).
  destruct (Hready p' Hin') as (x' & gl' & g' & Hx' & Hgl' & Hg' & _).
  rewrite (Hnew p x gl g Hin Hx Hgl Hg) in Hy.
  rewrite (Hnew p' x' gl' g' Hin' Hx' Hgl' Hg') in Hy'.
  simplify_eq/=. apply sgd_values_proper.
  - apply (Hrep c c'); [by exists W, p|by exists W', p'].
  - apply (Hgrad c c').
    + exists x, gl. split; [by exists W, p|done].
    + exists x', gl'. split; [by exists W', p'|done].
Qed.

(** ** Stores that differ in entries only *)

Lemma same_skeleton_refl (h : gmap loc NDArray) : same_skeleton h h.
Proof. by intros k. Qed.

Lemma same_skeleton_trans (h1 h2 h3 : gmap loc NDArray) :
  same_skeleton h1 h2 → same_skeleton h2 h3 → same_skeleton h1 h3.
Proof. intros H12 H23 k. by rewrite H23, H12. Qed.

Lemma same_skeleton_writes (ws : list (loc * list Q)) (h : gmap loc NDArray) :
  same_skeleton h (apply_writes ws h).
Proof. intros k. apply skeleton_apply_writes. Qed.

Lemma same_skeleton_lookup (h h' : gmap loc NDArray) (k : loc) (x : NDArray) :
  same_skeleton h h' → h !! k = Some x →
  ∃ x', h' !! k = Some x' ∧ context x' = context x ∧ shape x' = shape x ∧
        grad x' = grad x.
Proof.
  intros Hsk Hx. specialize (Hsk k). rewrite Hx in Hsk.
  destruct (h' !! k) as [x'|]; [|done].
  exists x'. unfold skeleton in Hsk. cbn in Hsk. by injection Hsk as -> -> ->.
Qed.

Lemma grad_write_skeleton (h h' : gmap loc NDArray) (pg : loc * list Q) :
  same_skeleton h h' → grad_write h' pg = grad_write h pg.
Proof.
  intros Hsk. unfold grad_write. specialize (Hsk pg.1).
  destruct (h' !! pg.1) as [x'|], (h !! pg.1) as [x|]; try done.
  unfold skeleton in Hsk. cbn in Hsk. injection Hsk as _ _ Hg.
  cbn. by rewrite Hg.
Qed.

Lemma grad_writable_skeleton (h h' : gmap loc NDArray) (p : loc) (g : list Q) :
  same_skeleton h h' → grad_writable h p g → grad_writable h' p g.
Proof.
  intros Hsk (x & gl & b & Hx & Hgl & Hb & Hlen).
  destruct (same_skeleton_lookup _ _ _ _ Hsk Hx) as (x' & Hx' & _ & _ & Hg').
  destruct (same_skeleton_lookup _ _ _ _ Hsk Hb) as (b' & Hb' & _ & Hs' & _).
  exists x', gl, b'. by rewrite Hg', Hs'.
Qed.

(** ** The gradient phase *)

Lemma write_grad_ok (p gl : loc) (g : list Q) (x b : NDArray) (s : state) :
  heap s !! p = Some x → grad x = Some gl → heap s !! gl = Some b →
  length g = size_of (shape b) →
  write_grad p g s =
  Ok (tt, {| heap := <[gl := with_values b g]> (heap s);
             trace := trace s ++ [EvBackward gl] |}).
Proof.
  intros Hx Hgl Hb Hlen. unfold write_grad.
  rewrite (bind_ok _ _ _ _ _ (deref_ok _ _ _ Hx)). rewrite Hgl.
  rewrite (bind_ok _ _ _ _ _ (deref_ok _ _ _ Hb)).
  rewrite (proj2 (Nat.eqb_eq _ _) Hlen). cbn [negb].
  unfold mbind, M_bind, emit, store_values; cbn. by rewrite Hb.
Qed.

Lemma write_grads_closed_form (l : list (loc * list Q)) (s : state) :
  (∀ p g, (p, g) ∈ l → grad_writable (heap s) p g) →
  ∃ s', for_ l (λ '(p, g), write_grad p g) s = Ok (tt, s') ∧
        heap s' = apply_writes (l ≫= grad_write (heap s)) (heap s).
Proof.
  intros Hw.
  apply (for_inv _
    (λ done s', heap s' = apply_writes (done ≫= grad_write (heap s)) (heap s)));
    [|done].
  intros done [p g] rest s1 -> Hs1.
  assert (same_skeleton (heap s) (heap s1)) as Hsk.
  { rewrite Hs1. apply same_skeleton_writes. }
  destruct (grad_writable_skeleton _ _ p g Hsk) as (x & gl & b & Hx & Hgl & Hb & Hlen).
  { apply Hw. apply elem_of_app. right. left. }
  eexists. split; [by eapply write_grad_ok|]. cbn [heap].
  rewrite bind_app, apply_writes_app, <- Hs1.
  change ([(p, g)] ≫= grad_write (heap s))
    with (grad_write (heap s) (p, g) ++ []).
  rewrite app_nil_r, <- (grad_write_skeleton _ _ _ Hsk).
  unfold grad_write. cbn [fst snd]. rewrite Hx. cbn. rewrite Hgl.
  by apply (insert_as_alter (λ x, with_values x _)).
Qed.

Lemma backward_closed_form (losses : list (list loc * list (list Q)))
    (s : state) :
  (∀ W gs p g, (W, gs) ∈ losses → (p, g) ∈ zip W gs →
     grad_writable (heap s) p g) →
  ∃ s', for_ losses (λ '(W, gs),
          for_ (zip W gs) (λ '(p, g), write_grad p g)) s = Ok (tt, s') ∧
        heap s' =
        apply_writes ((losses ≫= λ '(W, gs), zip W gs) ≫= grad_write (heap s))
          (heap s).
Proof.
  intros Hw.
  apply (for_inv _
    (λ done s', heap s' =
       apply_writes ((done ≫= λ '(W, gs), zip W gs) ≫= grad_write (heap s))
         (heap s))); [|done].
  intros done [W gs] rest s1 -> Hs1.
  assert (same_skeleton (heap s) (heap s1)) as Hsk.
  { rewrite Hs1. apply same_skeleton_writes. }
  destruct (write_grads_closed_form (zip W gs) s1) as (s' & Hrun & Hs').
  { intros p g Hpg. apply (grad_writable_skeleton (heap s)); [done|].
    apply (Hw W gs); [|done]. apply elem_of_app. right. left. }
  exists s'. split; [done|].
  rewrite Hs', !bind_app, apply_writes_app, <- Hs1.
  change ([(W, gs)] ≫= λ '(W, gs), zip W gs) with (zip W gs ++ []).
  rewrite app_nil_r. f_equal. apply Forall_bind_ext, Forall_forall.
  intros pg _. by apply grad_write_skeleton.
Qed.

Section GradientPhase.

Variable forward_backward :
  NDArray → NDArray → list NDArray → result (list (list Q)).

(** The forward passes read the parameters and leave the state. *)
Lemma record_ok (triples : list (NDArray * (NDArray * list loc)))
    (gradvals : list (list (list Q))) (s : state) :
  Forall2 (λ '(X, (Y, W)) gs,
     ∃ ws, stored_at s W ws ∧ forward_backward X Y ws = Ok gs)
    triples gradvals →
  mapM_ (λ '(X, (Y, W)),
      ws ← mapM_ deref W;
      gs ← lift (forward_backward X Y ws);
      mret (W, gs)) triples s =
  Ok (zip (triples.*2.*2) gradvals, s).
Proof.
  induction 1 as [|[X [Y W]] gs triples gradvals (ws & Hws & Hfb) _ IH];
    [done|].
  cbn [mapM_]. erewrite bind_ok; cycle 1.
  { rewrite (bind_ok _ _ _ _ _ (mapM_deref_ok _ _ _ Hws)). rewrite Hfb.
    reflexivity. }
  by rewrite (bind_ok _ _ _ _ _ IH).
Qed.

Lemma compute_gradients_closed_form (shards labels : list NDArray)
    (params : list (list loc)) (gradvals : list (list (list Q))) (s : state) :
  length shards = length params → length labels = length params →
  Forall2 (λ '(X, (Y, W)) gs,
     ∃ ws, stored_at s W ws ∧ forward_backward X Y ws = Ok gs)
    (zip shards (zip labels params)) gradvals →
  (∀ W gs p g, (W, gs) ∈ zip params gradvals → (p, g) ∈ zip W gs →
     grad_writable (heap s) p g) →
  ∃ s', compute_gradients forward_backward shards labels params s
          = Ok (tt, s') ∧
        heap s' =
        apply_writes
          ((zip params gradvals ≫= λ '(W, gs), zip W gs)
             ≫= grad_write (heap s)) (heap s).
Proof.
  intros Hls Hll Hfb Hw. unfold compute_gradients.
  rewrite (bind_ok _ _ _ _ _ (record_ok _ _ _ Hfb)).
  rewrite !snd_zip by (rewrite ?length_zip; lia).
  by apply backward_closed_form.
Qed.

End GradientPhase.

Lemma zip_grad_write (h : gmap loc NDArray) (W G : list loc)
    (shapes : list (list nat)) :
  Forall3 (param_ok h) W G shapes →
  ∀ gs, Forall2 (λ sh g, length g = size_of sh) shapes gs →
  zip W gs ≫= grad_write h = zip G gs ∧
  (∀ p g, (p, g) ∈ zip W gs → grad_writable h p g).
Proof.
  induction 1 as [|p gl sh W G shapes Hok _ IH]; intros gs Hgs.
  { split; [done|]. intros p g Hin. by apply elem_of_nil in Hin. }
  apply Forall2_cons_inv_l in Hgs as (g & gs' & Hlen & Hgs & ->).
  destruct (IH gs' Hgs) as [IH1 IH2].
  destruct Hok as (x & b & Hx & Hgl & Hb & _ & _ & Hsb & _).
  split.
  - cbn [zip zip_with]. rewrite bind_cons, IH1.
    unfold grad_write at 1. cbn [fst snd]. rewrite Hx. cbn. by rewrite Hgl.
  - intros q g' [[= -> ->]|Hin]%elem_of_cons; [|by apply IH2].
    exists x, gl, b. by rewrite Hsb.
Qed.

Lemma all_grad_writes (h : gmap loc NDArray) (params gparams : list (list loc))
    (shapes : list (list nat)) :
  Forall2 (λ W G, Forall3 (param_ok h) W G shapes) params gparams →
  ∀ gradvals, gradvals_ok shapes gradvals →
  (zip params gradvals ≫= λ '(W, gs), zip W gs) ≫= grad_write h =
    grad_writes gparams gradvals ∧
  (∀ W gs p g, (W, gs) ∈ zip params gradvals → (p, g) ∈ zip W gs →
     grad_writable h p g).
Proof.
  unfold grad_writes.
  induction 1 as [|W G params gparams HWG _ IH]; intros gradvals Hgv.
  { split; [done|]. intros W gs p g Hin. by apply elem_of_nil in Hin. }
  destruct gradvals as [|gs gradvals].
  { split; [done|]. intros W' gs p g Hin. by apply elem_of_nil in Hin. }
  apply Forall_cons in Hgv as [Hgs Hgv].
  destruct (IH gradvals Hgv) as [IH1 IH2].
  destruct (zip_grad_write h W G shapes HWG gs Hgs) as [H1 H2].
  split.
  - cbn [zip zip_with concat]. by rewrite bind_cons, bind_app, H1, IH1.
  - intros W' gs' p g [[= -> ->]|Hin]%elem_of_cons Hpg; [by apply H2|].
    by apply (IH2 W' gs').
Qed.

Lemma grad_writes_fst (gparams : list (list loc)) (shapes : list (list nat)) :
  Forall (λ G, length G = length shapes) gparams →
  ∀ gradvals, gradvals_ok shapes gradvals →
  length gradvals = length gparams →
  (grad_writes gparams gradvals).*1 = concat gparams.
Proof.
  unfold grad_writes.
  induction 1 as [|G gparams HG _ IH]; intros gradvals Hgv Hlen.
  { by destruct gradvals. }
  destruct gradvals as [|gs gradvals]; [done|].
  apply Forall_cons in Hgv as [Hgs Hgv].
  cbn [zip_with concat]. rewrite fmap_app, IH by (done || by simplify_eq/=).
  rewrite fst_zip; [done|]. apply Forall2_length in Hgs. lia.
Qed.

Lemma grad_writes_elem (gparams : list (list loc))
    (gradvals : list (list (list Q))) (c i : nat) (G : list loc)
    (gs : list (list Q)) (gl : loc) (g : list Q) :
  gparams !! c = Some G → G !! i = Some gl →
  gradvals !! c = Some gs → gs !! i = Some g →
  (gl, g) ∈ grad_writes gparams gradvals.
Proof.
  intros HG Hgl Hgs Hg. unfold grad_writes.
  apply (elem_of_concat_lookup _ c i (zip G gs)).
  - by rewrite lookup_zip_with, HG, Hgs.
  - by rewrite lookup_zip_with, Hgl, Hg.
Qed.

(** ** The aggregation phase *)

Lemma allreduce_column (col : list loc) (gvs : list (list Q)) (sh : list nat)
    (s : state) :
  col ≠ [] → NoDup col →
  Forall2 (λ gl g, ∃ y, heap s !! gl = Some y ∧ values y = g ∧ shape y = sh)
    col gvs →
  ∃ s', allreduce col s = Ok (tt, s') ∧
        heap s' =
        apply_writes
          ((λ l, (l, match gvs with
                     | g0 :: gs => running_sum g0 gs
                     | [] => []
                     end)) <$> col) (heap s).
Proof.
  intros Hne Hnd Hcol.
  assert (∃ ys, stored_at s col ys ∧ values <$> ys = gvs ∧
                Forall (λ y, shape y = sh) ys) as (ys & Hst & Hv & Hsh).
  { clear Hne Hnd. induction Hcol as [|gl g col gvs (y & Hy & Hg & Hs) _ IH].
    - exists []. split; [constructor|]. split; [done|constructor].
    - destruct IH as (ys & Hst & Hv & Hsh). exists (y :: ys).
      split; [by constructor|]. split; [by rewrite fmap_cons, Hg, Hv|].
      by constructor. }
  destruct col as [|d0 rest]; [done|].
  pose proof Hst as Hst'.
  apply Forall2_cons_inv_l in Hst' as (y0 & ys' & H0 & _ & ->).
  apply Forall_cons in Hsh as [Hs0 Hsh].
  eexists. split.
  - apply (allreduce_distinct d0 rest y0 ys'); [done..|].
    eapply Forall_impl; [exact Hsh|]. cbn. intros y ->. done.
  - cbn [heap]. rewrite overwrite_as_writes. by subst gvs.
Qed.

Lemma column_cons_Some {A} (l : list A) (ls : list (list A)) (i : nat) (x : A) :
  l !! i = Some x → column (l :: ls) i = x :: column ls i.
Proof. intros H. unfold column. cbn. by rewrite H. Qed.

Lemma elem_of_column {A} (ls : list (list A)) (i : nat) (x : A) :
  x ∈ column ls i ↔ ∃ l, l ∈ ls ∧ l !! i = Some x.
Proof. unfold column. by rewrite list_elem_of_omap. Qed.

Lemma elem_of_column_concat {A} (ls : list (list A)) (i : nat) (x : A) :
  x ∈ column ls i → x ∈ concat ls.
Proof.
  intros (l & Hl & Hx)%elem_of_column.
  apply list_elem_of_lookup in Hl as [c Hc].
  by eapply elem_of_concat_lookup.
Qed.

Lemma NoDup_column {A} (ls : list (list A)) (i : nat) :
  NoDup (concat ls) → NoDup (column ls i).
Proof.
  induction ls as [|l ls IH]; intros Hnd; [constructor|].
  cbn in Hnd. apply NoDup_app in Hnd as (Hl & Hdisj & Hls).
  destruct (l !! i) as [x|] eqn:Hx.
  - rewrite (column_cons_Some _ _ _ _ Hx). apply NoDup_cons. split; [|auto].
    intros Hin%elem_of_column_concat.
    apply (Hdisj x); [by eapply list_elem_of_lookup_2|done].
  - unfold column. cbn. rewrite Hx. by apply IH.
Qed.

Lemma column_disjoint {A} (ls : list (list A)) (i j : nat) (x : A) :
  NoDup (concat ls) → x ∈ column ls i → x ∈ column ls j → i = j.
Proof.
  intros Hnd (l & Hl & Hi)%elem_of_column (l' & Hl' & Hj)%elem_of_column.
  induction ls as [|l0 ls IH]; [by apply elem_of_nil in Hl|].
  cbn in Hnd. apply NoDup_app in Hnd as (Hl0 & Hdisj & Hls).
  assert (∀ l1, l1 ∈ ls → ∀ k, l1 !! k = Some x → x ∈ concat ls) as Hsub.
  { intros l1 [c Hc]%list_elem_of_lookup k Hk.
    by eapply elem_of_concat_lookup. }
  apply elem_of_cons in Hl as [->|Hl], Hl' as [->|Hl'].
  - exact (NoDup_lookup _ _ _ _ Hl0 Hi Hj).
  - exfalso. eapply Hdisj; [by eapply list_elem_of_lookup_2|by eapply Hsub].
  - exfalso. eapply Hdisj; [by eapply list_elem_of_lookup_2|by eapply Hsub].
  - by apply IH.
Qed.

Lemma mapM_seq_index {A B} (l : list A) (f : nat → M B) (f' : A → M B)
    (a : nat) :
  (∀ i d s, l !! i = Some d → f (a + i) s = f' d s) →
  ∀ s, mapM_ f (seq a (length l)) s = mapM_ f' l s.
Proof.
  revert a; induction l as [|d l IH]; intros a Hf s; [done|].
  cbn [length seq mapM_]. unfold mbind at 1 3, M_bind.
  specialize (Hf 0 d s eq_refl) as H0. rewrite Nat.add_0_r in H0. rewrite H0.
  destruct (f' d s) as [[y s']|e]; [|done].
  apply bind_ext; [|done]. apply IH. intros i d' s'' Hi.
  replace (S a + i) with (a + S i) by lia. by apply Hf.
Qed.

Lemma for_ext {A} (l : list A) (body body' : A → M unit) (s : state) :
  (∀ a s', body a s' = body' a s') → for_ l body s = for_ l body' s.
Proof.
  intros Hb. revert s. induction l as [|a l IH]; intros s; [done|].
  cbn [for_]. apply bind_ext; [apply Hb|]. intros _ s'. apply IH.
Qed.

(** On a list without [None], [allreduce_attrs] is [allreduce]. *)
Lemma allreduce_attrs_Some (ls : list loc) (s : state) :
  allreduce_attrs (Some <$> ls) s = allreduce ls s.
Proof.
  unfold allreduce_attrs, allreduce. rewrite length_fmap.
  apply bind_ext.
  - apply for_ext. intros i s'. unfold index.
    rewrite !list_lookup_fmap.
    destruct (ls !! 0) as [d0|]; [|done].
    by destruct (ls !! i) as [di|].
  - intros _ s1. apply for_ext. intros i s'. unfold index.
    rewrite !list_lookup_fmap.
    destruct (ls !! 0) as [d0|]; [|done].
    by destruct (ls !! i) as [di|].
Qed.

Lemma grad_attr_ok (p : loc) (x : NDArray) (s : state) :
  heap s !! p = Some x → grad_attr p s = Ok (grad x, s).
Proof.
  intros Hp. unfold grad_attr.
  by rewrite (bind_ok _ _ _ _ _ (deref_ok _ _ _ Hp)).
Qed.

Lemma gather_grads_ok (params gparams : list (list loc)) (i : nat) (s : state) :
  Forall2 (λ W G, ∃ p gl x, W !! i = Some p ∧ G !! i = Some gl ∧
                            heap s !! p = Some x ∧ grad x = Some gl)
    params gparams →
  mapM_ (λ c,
      pc ← lift (index params c);
      p ← lift (index pc i);
      grad_attr p)
    (seq 0 (length params)) s = Ok (Some <$> column gparams i, s).
Proof.
  intros H.
  rewrite (mapM_seq_index params _
             (λ W, p ← lift (index W i); grad_attr p) 0).
  2:{ intros c W s' Hc. unfold index. cbn [Nat.add]. by rewrite Hc. }
  induction H as [|W G params gparams (p & gl & x & Hp & Hgl & Hx & Hg) _ IH];
    [done|].
  cbn [mapM_]. erewrite bind_ok; cycle 1.
  { unfold index. rewrite Hp. cbn [from_option].
    erewrite bind_ok by reflexivity. by eapply grad_attr_ok. }
  rewrite (bind_ok _ _ _ _ _ IH). rewrite Hg.
  by rewrite (column_cons_Some _ _ _ _ Hgl).
Qed.

Lemma column_Forall2 {A B} (P : A → B → Prop) (ls : list (list A))
    (ks : list (list B)) (i : nat) :
  Forall2 (λ l k, ∃ x y, l !! i = Some x ∧ k !! i = Some y ∧ P x y) ls ks →
  Forall2 P (column ls i) (column ks i).
Proof.
  induction 1 as [|l k ls ks (x & y & Hx & Hy & HP) _ IH]; [constructor|].
  rewrite (column_cons_Some _ _ _ _ Hx), (column_cons_Some _ _ _ _ Hy).
  by constructor.
Qed.

Lemma sync_writes_keys (gparams : list (list loc))
    (gradvals : list (list (list Q))) (done : list nat) (l : loc) :
  l ∈ (done ≫= sync_writes gparams gradvals).*1 →
  ∃ i, i ∈ done ∧ l ∈ column gparams i.
Proof.
  intros ([l' v] & -> & Hin)%list_elem_of_fmap.
  apply list_elem_of_bind in Hin as (i & Hin & Hi).
  exists i. split; [done|]. unfold sync_writes in Hin.
  by apply list_elem_of_fmap in Hin as (l & [= -> _] & Hl).
Qed.

Lemma seq_split_inv (n : nat) (done rest : list nat) (i : nat) :
  seq 0 n = done ++ i :: rest → i < n ∧ i ∉ done.
Proof.
  intros Hseq. split.
  - assert (i ∈ seq 0 n) as Hin.
    { rewrite Hseq. apply elem_of_app. right. left. }
    apply elem_of_seq in Hin. lia.
  - pose proof (NoDup_seq 0 n) as Hnd. rewrite Hseq in Hnd.
    apply NoDup_app in Hnd as (_ & Hdisj & _).
    intros Hd. apply (Hdisj i Hd). left.
Qed.

(** The closed form of the aggregation phase, started in a store [heap s]
    that has the layout of the training state [h0] and whose gradient buffers
    hold [gradvals]. *)
Lemma sync_gradients_closed_form (params gparams : list (list loc))
    (shapes : list (list nat)) (gradvals : list (list (list Q)))
    (ctx : list device) (h0 : gmap loc NDArray) (s : state) :
  length ctx = length params → params ≠ [] →
  training_state h0 params gparams shapes → same_skeleton h0 (heap s) →
  gradvals_ok shapes gradvals → length gradvals = length params →
  grads_hold (heap s) gparams gradvals →
  ∃ s', sync_gradients params ctx s = Ok (tt, s') ∧
        heap s' =
        apply_writes (seq 0 (length shapes) ≫= sync_writes gparams gradvals)
          (heap s).
Proof.
  intros Hctx Hne [Hts Hnd] Hsk Hgv Hlen Hhold. unfold sync_gradients.
  destruct params as [|W0 params']; [done|].
  erewrite bind_ok by reflexivity.
  assert (length W0 = length shapes) as ->.
  { apply Forall2_cons_inv_l in Hts as (G0 & ? & HW0 & _ & _).
    by apply Forall3_length_lr in HW0. }
  rewrite Hctx.
  apply (for_inv _
    (λ done s', heap s' =
       apply_writes (done ≫= sync_writes gparams gradvals) (heap s)));
    [|done].
  intros done i rest s1 Hseq Hs1.
  apply seq_split_inv in Hseq as [Hi Hid].
  destruct (lookup_lt_is_Some_2 shapes i Hi) as [sh Hsh].
  assert (same_skeleton h0 (heap s1)) as Hsk1.
  { eapply same_skeleton_trans; [exact Hsk|].
    rewrite Hs1. apply same_skeleton_writes. }
  apply NoDup_app in Hnd as (_ & _ & Hndg).
  erewrite bind_ok; cycle 1.
  { apply (gather_grads_ok _ gparams). eapply Forall2_impl; [exact Hts|].
    intros W G HWG. cbn in HWG.
    destruct (Forall3_lookup_r _ _ _ _ _ _ HWG Hsh)
      as (p & gl & Hp & Hgl & x & b & Hx & Hg & _).
    destruct (same_skeleton_lookup _ _ _ _ Hsk1 Hx) as (x' & Hx' & _ & _ & Hg').
    exists p, gl, x'. by rewrite Hg'. }
  rewrite allreduce_attrs_Some.
  destruct (allreduce_column (column gparams i) (column gradvals i) sh s1)
    as (s' & Hrun & Hs').
  - apply Forall2_cons_inv_l in Hts as (G0 & ? & HW0 & _ & ->).
    destruct (Forall3_lookup_r _ _ _ _ _ _ HW0 Hsh) as (_ & gl & _ & Hgl & _).
    by rewrite (column_cons_Some _ _ _ _ Hgl).
  - by apply NoDup_column.
  - apply column_Forall2. apply Forall2_same_length_lookup_2.
    { apply Forall2_length in Hts. lia. }
    intros c G gs HG Hgs.
    destruct (Forall2_lookup_r _ _ _ _ _ Hts HG) as (W & HW & HWG).
    destruct (Forall3_lookup_r _ _ _ _ _ _ HWG Hsh)
      as (p & gl & Hp & Hgl & x & b & Hx & Hg & Hb & _ & _ & Hsb & _).
    pose proof (Forall_lookup_1 _ _ _ _ Hgv Hgs) as Hgsok.
    destruct (Forall2_lookup_l _ _ _ _ _ Hgsok Hsh) as (g & Hgi & _).
    exists gl, g. split; [done|]. split; [done|].
    assert (heap s1 !! gl = heap s !! gl) as Hsame.
    { rewrite Hs1. apply lookup_apply_writes_notin.
      intros (i' & Hi' & Hcol)%sync_writes_keys.
      assert (gl ∈ column gparams i) as Hcoli.
      { apply elem_of_column. exists G.
        split; [by eapply list_elem_of_lookup_2|done]. }
      by rewrite (column_disjoint _ _ _ _ Hndg Hcol Hcoli) in Hi'. }
    pose proof (Hhold c i G gs gl g HG Hgl Hgs Hgi) as Hval.
    rewrite <- Hsame in Hval.
    destruct (heap s1 !! gl) as [y|] eqn:Hy; [|done].
    exists y. split; [done|]. split; [by simplify_eq/=|].
    destruct (same_skeleton_lookup _ _ _ _ Hsk1 Hb) as (y' & Hy' & _ & Hs' & _).
    by simplify_eq.
  - exists s'. split; [done|].
    rewrite Hs', bind_app, apply_writes_app, <- Hs1.
    change ([i] ≫= sync_writes gparams gradvals)
      with (sync_writes gparams gradvals i ++ []).
    by rewrite app_nil_r.
Qed.

(** ** [train_batch]: the three phases in sequence *)

Lemma bind_assoc {A B C} (m : M A) (f : A → M B) (g : B → M C) (s : state) :
  ((m ≫= f) ≫= g) s = (m ≫= λ a, f a ≫= g) s.
Proof.
  unfold mbind, M_bind. by destruct (m s) as [[a s']|e].
Qed.

Lemma sync_writes_subset (gparams : list (list loc))
    (gradvals : list (list (list Q))) (idx : list nat) (l : loc) :
  l ∈ (idx ≫= sync_writes gparams gradvals).*1 → l ∈ concat gparams.
Proof.
  intros (i & _ & Hcol)%sync_writes_keys. by eapply elem_of_column_concat.
Qed.

Lemma sync_writes_NoDup (gparams : list (list loc))
    (gradvals : list (list (list Q))) (idx : list nat) :
  NoDup idx → NoDup (concat gparams) →
  NoDup (idx ≫= sync_writes gparams gradvals).*1.
Proof.
  intros His Hnd. induction His as [|i idx Hi _ IH]; [constructor|].
  rewrite bind_cons, fmap_app. apply NoDup_app. split; [|split; [|done]].
  - unfold sync_writes. rewrite <- list_fmap_compose.
    change (fst ∘ _) with (@id loc).
    rewrite list_fmap_id. by apply NoDup_column.
  - intros l Hl (i' & Hi' & Hcol)%sync_writes_keys.
    apply list_elem_of_fmap in Hl as ([l' v] & -> & Hin).
    apply list_elem_of_fmap in Hin as (l & [= -> _] & Hl).
    by rewrite (column_disjoint _ _ _ _ Hnd Hl Hcol) in Hi.
Qed.

Lemma training_state_lookup (h : gmap loc NDArray)
    (params gparams : list (list loc)) (shapes : list (list nat))
    (c i : nat) (W : list loc) (p : loc) :
  training_state h params gparams shapes →
  params !! c = Some W → W !! i = Some p →
  ∃ G gl sh, gparams !! c = Some G ∧ G !! i = Some gl ∧
             shapes !! i = Some sh ∧ param_ok h p gl sh.
Proof.
  intros [Hts _] HW Hp.
  destruct (Forall2_lookup_l _ _ _ _ _ Hts HW) as (G & HG & HWG).
  destruct (Forall3_lookup_l _ _ _ _ _ _ HWG Hp) as (gl & sh & Hgl & Hsh & Hok).
  by exists G, gl, sh.
Qed.

Lemma training_state_lookup_grad (h : gmap loc NDArray)
    (params gparams : list (list loc)) (shapes : list (list nat))
    (c i : nat) (G : list loc) (gl : loc) :
  training_state h params gparams shapes →
  gparams !! c = Some G → G !! i = Some gl →
  ∃ W p sh, params !! c = Some W ∧ W !! i = Some p ∧
            shapes !! i = Some sh ∧ param_ok h p gl sh.
Proof.
  intros [Hts _] HG Hgl.
  destruct (Forall2_lookup_r _ _ _ _ _ Hts HG) as (W & HW & HWG).
  destruct (Forall3_lookup_m _ _ _ _ _ _ HWG Hgl) as (p & sh & Hp & Hsh & Hok).
  by exists W, p, sh.
Qed.

Lemma elem_of_concat_inv {A} (ls : list (list A)) (x : A) :
  x ∈ concat ls → ∃ c l i, ls !! c = Some l ∧ l !! i = Some x.
Proof.
  induction ls as [|l ls IH]; cbn; [by intros ?%elem_of_nil|].
  intros [Hl|Hls]%elem_of_app.
  - apply list_elem_of_lookup in Hl as [i Hi]. by exists 0, l, i.
  - destruct (IH Hls) as (c & l' & i & Hc & Hi). by exists (S c), l', i.
Qed.

Lemma training_state_grad_lengths (h : gmap loc NDArray)
    (params gparams : list (list loc)) (shapes : list (list nat)) :
  training_state h params gparams shapes →
  length gparams = length params ∧
  Forall (λ G, length G = length shapes) gparams.
Proof.
  intros [Hts _]. split; [by apply Forall2_length in Hts|].
  induction Hts as [|W G params gparams HWG _ IH]; constructor; [|done].
  rewrite <- (Forall3_length_lm _ _ _ _ HWG).
  by apply Forall3_length_lr in HWG.
Qed.

Section TrainingStep.

Variable forward_backward :
  NDArray → NDArray → list NDArray → result (list (list Q)).

Lemma train_batch_phases (batch : DataBatch) (params : list (list loc))
    (ctx : list device) (lr : Q) (s : state) :
  train_batch forward_backward batch params ctx lr s =
  (shards ← lift (d ← index (data batch) 0; split_and_load d ctx);
   labels ← lift (l ← index (label batch) 0; split_and_load l ctx);
   (compute_gradients forward_backward shards labels params;;
    sync_gradients params ctx);;
   update_params batch params lr) s.
Proof.
  unfold train_batch, compute_gradients, sync_gradients, update_params.
  apply bind_ext; [done|]. intros shards s1.
  apply bind_ext; [done|]. intros labels s2.
  rewrite !bind_assoc. apply bind_ext; [done|]. intros losses s3.
  apply bind_ext; [done|]. intros [] s4.
  by rewrite bind_assoc.
Qed.

(** The gradient and aggregation phases together: they only write entries
    of gradient buffers, and leave in the buffers of parameter [i], on every
    device, the synchronized gradient of parameter [i]. *)
Lemma gradient_phases (shards labels : list NDArray)
    (params gparams : list (list loc)) (shapes : list (list nat))
    (gradvals : list (list (list Q))) (ctx : list device) (s : state) :
  length shards = length params → length labels = length params →
  length ctx = length params → params ≠ [] →
  training_state (heap s) params gparams shapes →
  Forall2 (λ '(X, (Y, W)) gs,
     ∃ ws, stored_at s W ws ∧ forward_backward X Y ws = Ok gs)
    (zip shards (zip labels params)) gradvals →
  gradvals_ok shapes gradvals →
  ∃ sB,
    (compute_gradients forward_backward shards labels params;;
     sync_gradients params ctx) s = Ok (tt, sB) ∧
    same_skeleton (heap s) (heap sB) ∧
    (∀ l, l ∉ concat gparams → heap sB !! l = heap s !! l) ∧
    (∀ c i G gl, gparams !! c = Some G → G !! i = Some gl →
       values <$> heap sB !! gl = Some (total_gradient gradvals i)).
Proof.
  intros Hls Hll Hctx Hne Hts Hfb Hgv.
  assert (length gradvals = length params) as Hlen.
  { apply Forall2_length in Hfb. rewrite !length_zip in Hfb. lia. }
  destruct (training_state_grad_lengths _ _ _ _ Hts) as [Hlg HlG].
  pose proof Hts as [Hts2 Hnd].
  apply NoDup_app in Hnd as (_ & _ & Hndg).
  destruct (all_grad_writes _ _ _ _ Hts2 gradvals Hgv) as [HWA HwrA].
  destruct (compute_gradients_closed_form forward_backward shards labels
              params gradvals s Hls Hll Hfb HwrA) as (sA & HrunA & HsA).
  rewrite HWA in HsA.
  assert (NoDup (grad_writes gparams gradvals).*1) as HndA.
  { rewrite (grad_writes_fst _ shapes) by (done || lia). done. }
  assert (same_skeleton (heap s) (heap sA)) as HskA.
  { rewrite HsA. apply same_skeleton_writes. }
  assert (grads_hold (heap sA) gparams gradvals) as Hhold.
  { intros c i G gs gl g HG Hgl Hgs Hg. rewrite HsA.
    erewrite lookup_apply_writes_in;
      [|done|by eapply grad_writes_elem].
    destruct (training_state_lookup_grad _ _ _ _ _ _ _ _ Hts HG Hgl)
      as (_ & _ & _ & _ & _ & _ & x & b & _ & _ & Hb & _).
    by rewrite Hb. }
  destruct (sync_gradients_closed_form params gparams shapes gradvals ctx
              (heap s) sA Hctx Hne Hts HskA Hgv Hlen Hhold)
    as (sB & HrunB & HsB).
  exists sB. split; [by rewrite (bind_ok _ _ _ _ _ HrunA)|].
  split; [|split].
  - eapply same_skeleton_trans; [exact HskA|].
    rewrite HsB. apply same_skeleton_writes.
  - intros l Hl. rewrite HsB, lookup_apply_writes_notin.
    + rewrite HsA. apply lookup_apply_writes_notin.
      by rewrite (grad_writes_fst _ shapes) by (done || lia).
    + intros Hin. eapply Hl, sync_writes_subset, Hin.
  - intros c i G gl HG Hgl. rewrite HsB.
    erewrite lookup_apply_writes_in.
    + destruct (training_state_lookup_grad _ _ _ _ _ _ _ _ Hts HG Hgl)
        as (_ & _ & _ & _ & _ & _ & x & b & _ & _ & Hb & _).
      destruct (same_skeleton_lookup _ _ _ _ HskA Hb) as (y & Hy & _).
      by rewrite Hy.
    + apply sync_writes_NoDup; [apply NoDup_seq|done].
    + apply list_elem_of_bind. exists i. split.
      * unfold sync_writes. apply list_elem_of_fmap. exists gl.
        split; [done|]. apply elem_of_column. exists G.
        split; [by eapply list_elem_of_lookup_2|done].
      * apply elem_of_seq. apply lookup_lt_Some in Hgl.
        pose proof (Forall_lookup_1 _ _ _ _ HlG HG) as HGlen. cbn in HGlen.
        lia.
Qed.

Lemma update_ready_after_gradients (params gparams : list (list loc))
    (shapes : list (list nat)) (h hB : gmap loc NDArray) :
  training_state h params gparams shapes →
  same_skeleton h hB →
  (∀ l, l ∉ concat gparams → hB !! l = h !! l) →
  update_ready hB params.
Proof.
  intros Hts Hsk Hframe. pose proof Hts as [_ Hnd].
  apply NoDup_app in Hnd as (Hndp & Hdisj & _).
  assert (∀ p, p ∈ concat params →
            ∃ x gl b, h !! p = Some x ∧ hB !! p = Some x ∧ grad x = Some gl ∧
                      gl ∈ concat gparams ∧ h !! gl = Some b ∧
                      context x = context b ∧ shape x = shape b) as Hlay.
  { intros p Hp. destruct (elem_of_concat_inv _ _ Hp) as (c & W & i & HW & Hi).
    destruct (training_state_lookup _ _ _ _ _ _ _ _ Hts HW Hi)
      as (G & gl & sh & HG & Hgl & _ & x & b & Hx & Hg & Hb & Hc & Hsx & Hsb & _).
    exists x, gl, b. rewrite (Hframe p (Hdisj p Hp)).
    repeat split; try done; [by eapply elem_of_concat_lookup|congruence]. }
  split; [done|]. split.
  - intros p Hp. destruct (Hlay p Hp) as (x & gl & b & _ & Hx & Hg & _ & Hb & Hc & Hs).
    destruct (same_skeleton_lookup _ _ _ _ Hsk Hb) as (b' & Hb' & Hc' & Hs' & _).
    exists x, gl, b'. rewrite Hc', Hs'. done.
  - intros p x gl Hp Hx Hgl Hin.
    destruct (Hlay p Hp) as (x' & gl' & b & _ & Hx' & Hg' & Hgin & _).
    simplify_eq. by apply (Hdisj gl).
Qed.

(** One training step on a well-laid-out training state: [train_batch]
    succeeds; afterwards the gradient buffer of parameter [i] on every device
    holds the synchronized gradient, and the parameter holds its old entries
    updated by [SGD] with that gradient and the rate [lr / n]. *)
Lemma train_batch_step (batch : DataBatch) (d lb : NDArray)
    (params gparams : list (list loc)) (shapes : list (list nat))
    (gradvals : list (list (list Q))) (ctx : list device) (n : nat) (lr : Q)
    (s : state) :
  batch_ok batch d lb ctx n →
  length params = length ctx →
  training_state (heap s) params gparams shapes →
  Forall2 (λ '(X, (Y, W)) gs,
     ∃ ws, stored_at s W ws ∧ forward_backward X Y ws = Ok gs)
    (zip (shards_of d ctx n) (zip (shards_of lb ctx n) params)) gradvals →
  gradvals_ok shapes gradvals →
  ∃ s',
    train_batch forward_backward batch params ctx lr s = Ok (tt, s') ∧
    ∀ c i W G p gl x,
      params !! c = Some W → W !! i = Some p →
      gparams !! c = Some G → G !! i = Some gl →
      heap s !! p = Some x →
      ∃ g', heap s' !! gl = Some g' ∧
            values g' = total_gradient gradvals i ∧
            heap s' !! p =
            Some (with_values x
                    (sgd_values (values x) (values g')
                       (lr / inject_Z (Z.of_nat n)))).
Proof.
  intros (Hd & Hl & Hn & Hm & Hpos & HK & Hdiv) Hlen Hts Hfb Hgv.
  rewrite train_batch_phases. unfold index. rewrite Hd, Hl. cbn [from_option].
  change (Ok d ≫= λ d0, split_and_load d0 ctx) with (split_and_load d ctx).
  change (Ok lb ≫= λ l, split_and_load l ctx) with (split_and_load lb ctx).
  rewrite (split_and_load_ok d ctx n), (split_and_load_ok lb ctx n) by done.
  erewrite bind_ok by reflexivity. erewrite bind_ok by reflexivity.
  destruct (gradient_phases (shards_of d ctx n) (shards_of lb ctx n)
              params gparams shapes gradvals ctx s)
    as (sB & HrunB & HskB & HframeB & HgradB); try done.
  { unfold shards_of. by rewrite length_imap. }
  { unfold shards_of. by rewrite length_imap. }
  { intros ->. cbn in Hlen. lia. }
  fold (shards_of d ctx n) (shards_of lb ctx n).
  rewrite (bind_ok _ _ _ _ _ HrunB).
  pose proof (update_ready_after_gradients _ _ _ _ _ Hts HskB HframeB) as Hrdy.
  destruct (update_params_lookup batch params lr d n sB Hd Hn Hpos Hrdy)
    as (s' & Hrun & Hframe & Hnew).
  exists s'. split; [done|].
  intros c i W G p gl x HW Hp HG Hgl Hx.
  destruct (training_state_lookup _ _ _ _ _ _ _ _ Hts HW Hp)
    as (G' & gl' & sh & HG' & Hgl' & _ & x' & b & Hx' & Hg & Hb & _).
  simplify_eq.
  pose proof Hts as [_ Hnd]. apply NoDup_app in Hnd as (_ & Hdisj & _).
  assert (p ∈ concat params) as Hpin by (by eapply elem_of_concat_lookup).
  assert (gl ∈ concat gparams) as Hgin by (by eapply elem_of_concat_lookup).
  pose proof (HgradB c i G gl HG Hgl) as Hval.
  destruct (heap sB !! gl) as [gB|] eqn:HgB; [|done].
  exists gB. split; [|split].
  - rewrite Hframe; [done|]. intros Hin. by apply (Hdisj gl).
  - by simplify_eq/=.
  - apply (Hnew p x gl gB); [done| |done..].
    rewrite HframeB; [done|]. by apply Hdisj.
Qed.

End TrainingStep.

(** *** Entry by entry *)

Lemma nth_sgd_values (w g : list Q) (lr : Q) (j : nat) :
  j < length w → j < length g →
  nth j (sgd_values w g lr) 0%Q =
  Qminus (nth j w 0%Q) (Qmult (nth j g 0%Q) lr).
Proof.
  intros Hw Hg. unfold sgd_values.
  rewrite !nth_lookup, lookup_zip_with, list_lookup_fmap.
  apply lookup_lt_is_Some in Hw as [u ->], Hg as [v ->]. done.
Qed.

Lemma length_sgd_values (w g : list Q) (lr : Q) :
  length g = length w → length (sgd_values w g lr) = length w.
Proof.
  intros H. unfold sgd_values. rewrite length_zip_with, length_fmap. lia.
Qed.

Lemma plain_gradient_descent_entry (w g lr : Q) (n : nat) :
  0 < n →
  Qeq (w - g * (lr / inject_Z (Z.of_nat n)))%Q
      (w - lr * g / inject_Z (Z.of_nat n))%Q.
Proof.
  intros Hn. field. intros H. unfold Qeq in H. cbn in H. lia.
Qed.

Lemma total_gradient_sum (shapes : list (list nat))
    (gradvals : list (list (list Q))) (i : nat) (sh : list nat) :
  gradvals_ok shapes gradvals → gradvals ≠ [] → shapes !! i = Some sh →
  length (total_gradient gradvals i) = size_of sh ∧
  ∀ j, j < size_of sh →
       Qeq (nth j (total_gradient gradvals i) 0%Q)
           (sum_at (column gradvals i) j).
Proof.
  intros Hgv Hne Hsh.
  assert (Forall (λ g, length g = size_of sh) (column gradvals i)) as Hcol.
  { apply Forall_forall. intros g (gs & Hgs & Hg)%elem_of_column.
    pose proof (proj1 (Forall_forall _ _) Hgv gs Hgs) as Hok. cbn in Hok.
    by apply (Forall2_lookup_lr _ _ _ _ _ _ Hok Hsh Hg). }
  assert (column gradvals i ≠ []) as Hcne.
  { destruct gradvals as [|gs gradvals]; [done|].
    apply Forall_cons in Hgv as [Hgs _].
    destruct (Forall2_lookup_l _ _ _ _ _ Hgs Hsh) as (g & Hg & _).
    by rewrite (column_cons_Some _ _ _ _ Hg). }
  unfold total_gradient. destruct (column gradvals i) as [|g0 gs]; [done|].
  apply Forall_cons in Hcol as [H0 Hcol]. split.
  - by apply running_sum_length.
  - intros j Hj. by apply (running_sum_nth (size_of sh)).
Qed.

Section PlainGradientDescent.

Variable forward_backward :
  NDArray → NDArray → list NDArray → result (list (list Q)).

(** C4: one training step on a well-laid-out training state succeeds and,
    on every device [c] and for every parameter [i], leaves in the gradient
    buffer the synchronized gradient (entry by entry the sum over the devices
    of the gradients they computed) and in the parameter its old entries
    minus [lr] times that gradient divided by the full batch size [n];
    device, shape and gradient buffer of the parameter stay. *)
Theorem train_batch_plain_gradient_descent (batch : DataBatch)
    (d lb : NDArray) (params gparams : list (list loc))
    (shapes : list (list nat)) (gradvals : list (list (list Q)))
    (ctx : list device) (n : nat) (lr : Q) (s : state) :
  batch_ok batch d lb ctx n →
  length params = length ctx →
  training_state (heap s) params gparams shapes →
  Forall2 (λ '(X, (Y, W)) gs,
     ∃ ws, stored_at s W ws ∧ forward_backward X Y ws = Ok gs)
    (zip (shards_of d ctx n) (zip (shards_of lb ctx n) params)) gradvals →
  gradvals_ok shapes gradvals →
  ∃ s',
    train_batch forward_backward batch params ctx lr s = Ok (tt, s') ∧
    ∀ c i W G p gl x,
      params !! c = Some W → W !! i = Some p →
      gparams !! c = Some G → G !! i = Some gl →
      heap s !! p = Some x →
      ∃ x' g',
        heap s' !! p = Some x' ∧ heap s' !! gl = Some g' ∧
        context x' = context x ∧ shape x' = shape x ∧ grad x' = grad x ∧
        length (values x') = length (values x) ∧
        length (values g') = length (values x) ∧
        ∀ j, j < length (values x) →
          Qeq (nth j (values g') 0%Q) (sum_at (column gradvals i) j) ∧
          Qeq (nth j (values x') 0%Q)
              (nth j (values x) 0%Q
               - lr * nth j (values g') 0%Q / inject_Z (Z.of_nat n))%Q.
Proof.
  intros Hb Hlen Hts Hfb Hgv.
  destruct (train_batch_step forward_backward batch d lb params gparams shapes
              gradvals ctx n lr s Hb Hlen Hts Hfb Hgv) as (s' & Hrun & Hpost).
  exists s'. split; [done|].
  intros c i W G p gl x HW Hp HG Hgl Hx.
  destruct (Hpost c i W G p gl x HW Hp HG Hgl Hx) as (g' & Hg' & Hval & Hx').
  destruct (training_state_lookup _ _ _ _ _ _ _ _ Hts HW Hp)
    as (G' & gl' & sh & HG' & Hgl' & Hsh & x0 & b & Hx0 & _ & _ & _ & Hsx & _
        & Hwf & _).
  assert (x0 = x) as -> by congruence.
  destruct Hb as (_ & _ & _ & _ & Hpos & HK & _).
  assert (gradvals ≠ []) as Hne.
  { apply Forall2_length in Hfb. unfold shards_of in Hfb.
    rewrite !length_zip, !length_imap in Hfb. intros ->. cbn in Hfb. lia. }
  rewrite <- Hsx in Hsh.
  destruct (total_gradient_sum shapes gradvals i (shape x) Hgv Hne Hsh)
    as [Htl Hts'].
  unfold wf_NDArray in Hwf.
  eexists _, g'. split; [done|]. split; [done|]. cbn.
  rewrite Hval.
  split; [done|]. split; [done|]. split; [done|].
  split; [apply length_sgd_values; lia|]. split; [lia|].
  intros j Hj. split; [apply Hts'; lia|].
  rewrite nth_sgd_values by lia. by apply plain_gradient_descent_entry.
Qed.

End PlainGradientDescent.

(** ** Instances on concrete inputs *)

Lemma split_and_load_indivisible_witness :
  shape batch44 !! 0 = Some 4 ∧ 1 ≤ length [gpu 0; gpu 1; gpu 2] ∧
  4 `mod` length [gpu 0; gpu 1; gpu 2] ≠ 0 ∧
  split_and_load batch44 [gpu 0; gpu 1; gpu 2] = Raise AssertionError.
Proof.
  assert (4 `mod` length [gpu 0; gpu 1; gpu 2] ≠ 0) as H by (cbn; lia).
  split; [reflexivity|]. split; [cbn; lia|]. split; [exact H|].
  apply (split_and_load_indivisible batch44 [gpu 0; gpu 1; gpu 2] 4);
    [reflexivity|cbn; lia|exact H].
Defined.

Lemma split_and_load_empty_batch_witness :
  shape empty_batch !! 0 = Some 0 ∧ 1 ≤ length [gpu 0] ∧
  0 `mod` length [gpu 0] = 0 ∧
  split_and_load empty_batch [gpu 0] = Raise ValueError.
Proof.
  split; [reflexivity|]. split; [cbn; lia|].
  apply (split_and_load_empty_batch empty_batch [gpu 0]);
    [reflexivity|cbn; lia].
Defined.

Lemma demo_stored :
  stored_at demo_state [0; 1] [ones12 (gpu 0) 1%Q; ones12 (gpu 1) 2%Q].
Proof. repeat constructor. Qed.

Lemma demo_distinct : NoDup [0; 1].
Proof. refine (bool_decide_unpack _ _). exact I. Qed.

Lemma demo_same_shaped :
  same_shaped [1; 2] [ones12 (gpu 0) 1%Q; ones12 (gpu 1) 2%Q].
Proof. repeat constructor. Qed.

Lemma allreduce_elementwise_sum_witness :
  ∃ s' total,
    allreduce [0; 1] demo_state = Ok (tt, s') ∧
    length total = size_of [1; 2] ∧
    (∀ j, j < size_of [1; 2] →
       Qeq (nth j total 0%Q)
         (sum_at (values <$> [ones12 (gpu 0) 1%Q; ones12 (gpu 1) 2%Q]) j)) ∧
    (∀ l, l ∈ [0; 1] →
       ∃ g', heap s' !! l = Some g' ∧ shape g' = [1; 2] ∧ values g' = total).
Proof.
  apply (allreduce_elementwise_sum [0; 1]
           [ones12 (gpu 0) 1%Q; ones12 (gpu 1) 2%Q] [1; 2] demo_state);
    [discriminate|exact demo_distinct|exact demo_stored|exact demo_same_shaped].
Defined.

Lemma allreduce_frame_witness :
  ∃ s',
    allreduce [0; 1] demo_state = Ok (tt, s') ∧
    (∀ l, l ∉ [0; 1] → heap s' !! l = heap demo_state !! l) ∧
    dom (heap s') = dom (heap demo_state) ∧
    (∀ i l g, [0; 1] !! i = Some l →
       [ones12 (gpu 0) 1%Q; ones12 (gpu 1) 2%Q] !! i = Some g →
       ∃ g', heap s' !! l = Some g' ∧
             context g' = context g ∧ shape g' = shape g ∧ grad g' = grad g ∧
             values g' = running_sum [1%Q; 1%Q] [[2%Q; 2%Q]]) ∧
    trace s' = [EvCopyCtx 1 (gpu 0); EvIAdd 0 [2%Q; 2%Q]; EvCopyTo 0 1].
Proof.
  apply (allreduce_frame 0 [1] (ones12 (gpu 0) 1%Q) [ones12 (gpu 1) 2%Q]
           demo_state);
    [exact demo_distinct|exact demo_stored|by repeat constructor].
Defined.

Lemma demo_stored3 :
  stored_at demo_state3 [0; 1; 2]
    [ones12 (gpu 0) 1%Q; ones12 (gpu 1) 2%Q; ones12 (gpu 2) 4%Q].
Proof. repeat constructor. Qed.

Lemma demo_distinct3 : NoDup [0; 1; 2].
Proof. refine (bool_decide_unpack _ _). exact I. Qed.

Lemma allreduce_order_fixed_witness :
  ∃ s' tr,
    allreduce [0; 1; 2] demo_state3 = Ok (tt, s') ∧
    trace s' = tr ∧ added_sources tr = [1; 2] ∧
    additions tr = [(0, [2%Q; 2%Q]); (0, [4%Q; 4%Q])] ∧
    values <$> heap s' !! 0 =
      Some (zip_with Qplus (zip_with Qplus [1%Q; 1%Q] [2%Q; 2%Q])
              [4%Q; 4%Q]).
Proof.
  apply (allreduce_order_fixed 0 [1; 2] (ones12 (gpu 0) 1%Q)
           [ones12 (gpu 1) 2%Q; ones12 (gpu 2) 4%Q] demo_state3);
    [exact demo_distinct3|exact demo_stored3|by repeat constructor].
Defined.

Lemma demo_training_state :
  training_state (heap demo_training) [[10]; [20]] [[11]; [21]] [[2]].
Proof.
  split.
  - repeat constructor; eexists _, _; repeat split; reflexivity.
  - refine (bool_decide_unpack _ _). exact I.
Qed.

Lemma demo_batch_ok :
  batch_ok demo_batch batch44 demo_labels [gpu 0; gpu 1] 4.
Proof. repeat split; cbn; lia. Qed.

Lemma demo_backward_ok :
  Forall2 (λ '(X, (Y, W)) gs,
     ∃ ws, stored_at demo_training W ws ∧ demo_backward X Y ws = Ok gs)
    (zip (shards_of batch44 [gpu 0; gpu 1] 4)
       (zip (shards_of demo_labels [gpu 0; gpu 1] 4) [[10]; [20]]))
    [[[2%Q; 4%Q]]; [[2%Q; 4%Q]]].
Proof.
  repeat constructor.
  - exists [demo_param (gpu 0) 11]. split; [by repeat constructor|]. reflexivity.
  - exists [demo_param (gpu 1) 21]. split; [by repeat constructor|]. reflexivity.
Qed.

Lemma demo_gradvals_ok : gradvals_ok [[2]] [[[2%Q; 4%Q]]; [[2%Q; 4%Q]]].
Proof. repeat constructor. Qed.

Lemma demo_update_ready : update_ready (heap demo_training) [[10]; [20]].
Proof.
  split; [refine (bool_decide_unpack _ _); exact I|]. split.
  - intros p Hp. cbn in Hp.
    apply elem_of_cons in Hp as [->|Hp]; [|apply elem_of_cons in Hp as [->|Hp]].
    + eexists _, _, _. repeat split; reflexivity.
    + eexists _, _, _. repeat split; reflexivity.
    + by apply elem_of_nil in Hp.
  - intros p x gl Hp Hx Hgl Hin. cbn in Hp, Hin.
    apply elem_of_cons in Hp as [->|Hp]; [|apply elem_of_cons in Hp as [->|Hp]].
    + vm_compute in Hx. simplify_eq. cbn in Hgl. simplify_eq.
      revert Hin. apply (bool_decide_unpack _). exact I.
    + vm_compute in Hx. simplify_eq. cbn in Hgl. simplify_eq.
      revert Hin. apply (bool_decide_unpack _). exact I.
    + by apply elem_of_nil in Hp.
Qed.

Lemma demo_replica (c : nat) (x : NDArray) :
  replica_at (heap demo_training) [[10]; [20]] c 0 x →
  values x = [1%Q; 2%Q] ∧ ∃ gl, grad x = Some gl ∧
    heap demo_training !! gl = Some (demo_grad (context x) 3%Q).
Proof.
  intros (W & p & HW & Hp & Hx).
  destruct c as [|[|c]]; cbn in HW; simplify_eq; cbn in Hp; simplify_eq;
    vm_compute in Hx; simplify_eq; split; try done; by eexists.
Qed.

Lemma demo_replicas_identical :
  replicas_identical (heap demo_training) [[10]; [20]] 0.
Proof.
  intros c c' x x' [-> _]%demo_replica [-> _]%demo_replica.
  by repeat constructor.
Qed.

Lemma demo_grads_identical :
  grads_identical (heap demo_training) [[10]; [20]] 0.
Proof.
  intros c c' g g' (x & gl & Hx & Hgl & Hg) (x' & gl' & Hx' & Hgl' & Hg').
  apply demo_replica in Hx as (_ & gl0 & Hgl0 & Hg0).
  apply demo_replica in Hx' as (_ & gl0' & Hgl0' & Hg0').
  assert (g = demo_grad (context x) 3%Q) as -> by congruence.
  assert (g' = demo_grad (context x') 3%Q) as -> by congruence.
  by repeat constructor.
Qed.

Lemma update_keeps_replicas_identical_witness :
  ∃ s', update_params demo_batch [[10]; [20]] (1 # 10)%Q demo_training
          = Ok (tt, s') ∧
        replicas_identical (heap s') [[10]; [20]] 0.
Proof.
  apply (update_keeps_replicas_identical demo_batch [[10]; [20]] (1 # 10)%Q
           batch44 4 0 demo_training);
    [reflexivity|reflexivity|lia|exact demo_update_ready
    |exact demo_replicas_identical|exact demo_grads_identical].
Defined.

Lemma train_batch_plain_gradient_descent_witness :
  ∃ s',
    train_batch demo_backward demo_batch [[10]; [20]] [gpu 0; gpu 1]
      (1 # 10)%Q demo_training = Ok (tt, s') ∧
    ∀ c i W G p gl x,
      [[10]; [20]] !! c = Some W → W !! i = Some p →
      [[11]; [21]] !! c = Some G → G !! i = Some gl →
      heap demo_training !! p = Some x →
      ∃ x' g',
        heap s' !! p = Some x' ∧ heap s' !! gl = Some g' ∧
        context x' = context x ∧ shape x' = shape x ∧ grad x' = grad x ∧
        length (values x') = length (values x) ∧
        length (values g') = length (values x) ∧
        ∀ j, j < length (values x) →
          Qeq (nth j (values g') 0%Q)
              (sum_at (column [[[2%Q; 4%Q]]; [[2%Q; 4%Q]]] i) j) ∧
          Qeq (nth j (values x') 0%Q)
              (nth j (values x) 0%Q
               - (1 # 10) * nth j (values g') 0%Q / inject_Z (Z.of_nat 4))%Q.
Proof.
  apply (train_batch_plain_gradient_descent demo_backward demo_batch batch44
           demo_labels [[10]; [20]] [[11]; [21]] [[2]]
           [[[2%Q; 4%Q]]; [[2%Q; 4%Q]]] [gpu 0; gpu 1] 4 (1 # 10)%Q
           demo_training);
    [exact demo_batch_ok|reflexivity|exact demo_training_state
    |exact demo_backward_ok|exact demo_gradvals_ok].
Defined.

(** ** Allocation, [copy] and [get_params] *)

Lemma copyto_new_ok (src : loc) (c : device) (x : NDArray) (s : state) :
  heap s !! src = Some x →
  ∃ l, heap s !! l = None ∧
       copyto_new src c s =
       Ok (l, {| heap := <[l := copy_of x c]> (heap s);
                 trace := trace s ++ [EvCopyCtx src c] |}).
Proof.
  intros Hx. exists (fresh (dom (heap s))). split.
  - apply not_elem_of_dom, is_fresh.
  - unfold copyto_new. by rewrite (bind_ok _ _ _ _ _ (copyto_ctx_ok _ _ _ _ Hx)).
Qed.

Lemma copy_closed (c : device) (xs : list loc) (ts : list NDArray) :
  ∀ s, stored_at s xs ts →
  ∃ new s',
    copy xs c s = Ok (new, s') ∧
    NoDup new ∧
    (∀ l, l ∈ new → heap s !! l = None) ∧
    (∀ k, k ∉ new → heap s' !! k = heap s !! k) ∧
    Forall2 (λ l t, heap s' !! l = Some (copy_of t c)) new ts.
Proof.
  unfold copy, stored_at. intros s Hst. revert s Hst.
  induction xs as [|x xs IH] in ts |- *; intros s Hst.
  - apply Forall2_nil_inv_l in Hst as ->. exists [], s.
    repeat split; [constructor|by intros l ?%elem_of_nil|constructor].
  - apply Forall2_cons_inv_l in Hst as (t & ts' & Hx & Hst & ->).
    destruct (copyto_new_ok x c t s Hx) as (l & Hl & Hrun).
    destruct (IH ts' {| heap := <[l := copy_of t c]> (heap s);
                        trace := trace s ++ [EvCopyCtx x c] |})
      as (new & s' & Hrun' & Hnd & Hfresh & Hframe & Hnew).
    { eapply Forall2_impl; [exact Hst|]. cbn. intros y u Hy.
      rewrite lookup_insert_ne; [done|]. congruence. }
    cbn [heap] in *.
    assert (l ∉ new) as Hln.
    { intros Hin. apply Hfresh in Hin. by rewrite lookup_insert_eq in Hin. }
    exists (l :: new), s'. split; [|split; [|split; [|split]]].
    + cbn [mapM_]. rewrite (bind_ok _ _ _ _ _ Hrun).
      by rewrite (bind_ok _ _ _ _ _ Hrun').
    + by constructor.
    + intros k [->|Hk]%elem_of_cons; [done|].
      pose proof (Hfresh k Hk) as Hk'.
      rewrite lookup_insert_ne in Hk'; [done|]. by intros ->.
    + intros k [Hkl Hk]%not_elem_of_cons.
      by rewrite (Hframe k Hk), lookup_insert_ne.
    + constructor; [|done]. by rewrite (Hframe l Hln), lookup_insert_eq.
Qed.

Lemma attach_grad_ok (p : loc) (x : NDArray) (s : state) :
  heap s !! p = Some x →
  ∃ gl, heap s !! gl = None ∧
        attach_grad p s =
        Ok (tt, {| heap := <[p := with_grad x (Some gl)]>
                             (<[gl := zeros_like x]> (heap s));
                   trace := trace s |}).
Proof.
  intros Hx. exists (fresh (dom (heap s))).
  assert (heap s !! fresh (dom (heap s)) = None) as Hf.
  { apply not_elem_of_dom, is_fresh. }
  split; [done|]. unfold attach_grad.
  rewrite (bind_ok _ _ _ _ _ (deref_ok _ _ _ Hx)).
  erewrite bind_ok by reflexivity.
  unfold set_grad. cbn [heap trace].
  rewrite lookup_insert_ne by congruence. by rewrite Hx.
Qed.

Lemma attach_grads_closed (new : list loc) :
  ∀ (ts : list NDArray) (s : state),
  NoDup new → stored_at s new ts →
  ∃ gls s',
    for_ new attach_grad s = Ok (tt, s') ∧
    NoDup gls ∧
    (∀ l, l ∈ gls → heap s !! l = None) ∧
    (∀ k, k ∉ new → k ∉ gls → heap s' !! k = heap s !! k) ∧
    Forall3 (λ p t gl, heap s' !! p = Some (with_grad t (Some gl)) ∧
                       heap s' !! gl = Some (zeros_like t)) new ts gls.
Proof.
  unfold stored_at.
  induction new as [|p new IH]; intros ts s Hnd Hst.
  - apply Forall2_nil_inv_l in Hst as ->. exists [], s.
    repeat split; [constructor|by intros l ?%elem_of_nil|constructor].
  - apply Forall2_cons_inv_l in Hst as (t & ts' & Hp & Hst & ->).
    apply NoDup_cons in Hnd as [Hpn Hnd].
    destruct (attach_grad_ok p t s Hp) as (gl & Hgl & Hrun).
    assert (p ≠ gl) as Hpgl by congruence.
    destruct (IH ts' {| heap := <[p := with_grad t (Some gl)]>
                                  (<[gl := zeros_like t]> (heap s));
                        trace := trace s |} Hnd)
      as (gls & s' & Hrun' & Hndg & Hfresh & Hframe & Hnew).
    { apply Forall2_same_length_lookup_2; [by apply Forall2_length in Hst|].
      intros i q u Hq Hu. cbn.
      pose proof (Forall2_lookup_lr _ _ _ _ _ _ Hst Hq Hu) as Hqu. cbn in Hqu.
      rewrite !lookup_insert_ne; [done|congruence|].
      intros ->. by apply Hpn, (list_elem_of_lookup_2 _ i). }
    cbn [heap] in *.
    assert (gl ∉ gls) as Hglg.
    { intros Hin. apply Hfresh in Hin.
      by rewrite lookup_insert_ne, lookup_insert_eq in Hin. }
    assert (p ∉ gls) as Hpg.
    { intros Hin. apply Hfresh in Hin. by rewrite lookup_insert_eq in Hin. }
    assert (gl ∉ new) as Hgln.
    { intros [i Hi]%list_elem_of_lookup.
      destruct (Forall2_lookup_l _ _ _ _ _ Hst Hi) as (u & _ & Hu).
      cbn in Hu. congruence. }
    exists (gl :: gls), s'. split; [|split; [|split; [|split]]].
    + cbn [for_]. by rewrite (bind_ok _ _ _ _ _ Hrun).
    + by constructor.
    + intros k [->|Hk]%elem_of_cons; [done|].
      pose proof (Hfresh k Hk) as Hk'.
      assert (k ≠ p) by (by intros ->). assert (k ≠ gl) by (by intros ->).
      by rewrite !lookup_insert_ne in Hk'.
    + intros k [Hkp Hk]%not_elem_of_cons [Hkg Hk']%not_elem_of_cons.
      by rewrite (Hframe k Hk Hk'), !lookup_insert_ne.
    + constructor; [|done]. split.
      * by rewrite (Hframe p Hpn Hpg), lookup_insert_eq.
      * by rewrite (Hframe gl Hgln Hglg), lookup_insert_ne, lookup_insert_eq.
Qed.

Lemma get_params_closed (c : device) (params : list loc) (ts : list NDArray)
    (s : state) :
  stored_at s params ts →
  ∃ new gls s',
    get_params params c s = Ok (new, s') ∧
    NoDup (new ++ gls) ∧
    (∀ l, l ∈ new ++ gls → heap s !! l = None) ∧
    (∀ k, k ∉ new ++ gls → heap s' !! k = heap s !! k) ∧
    Forall3 (λ p t gl,
       heap s' !! p = Some (with_grad (copy_of t c) (Some gl)) ∧
       heap s' !! gl = Some (zeros_like (copy_of t c))) new ts gls.
Proof.
  intros Hst.
  destruct (copy_closed c params ts s Hst)
    as (new & s1 & Hrun1 & Hnd & Hfresh & Hframe & Hnew).
  destruct (attach_grads_closed new ((λ t, copy_of t c) <$> ts) s1 Hnd)
    as (gls & s' & Hrun2 & Hndg & Hfreshg & Hframeg & Hnewg).
  { unfold stored_at. by apply Forall2_fmap_r. }
  assert (∀ l, l ∈ new → l ∉ gls) as Hdisj.
  { intros l [i Hi]%list_elem_of_lookup Hg. apply Hfreshg in Hg.
    destruct (Forall2_lookup_l _ _ _ _ _ Hnew Hi) as (u & _ & Hu).
    cbn in Hu. congruence. }
  exists new, gls, s'. split; [|split; [|split; [|split]]].
  - unfold get_params. unfold copy in Hrun1.
    rewrite (bind_ok _ _ _ _ _ Hrun1). by rewrite (bind_ok _ _ _ _ _ Hrun2).
  - apply NoDup_app. by repeat split.
  - intros l [Hl|Hl]%elem_of_app; [by apply Hfresh|].
    pose proof (Hfreshg l Hl) as Hl'.
    destruct (decide (l ∈ new)) as [Hin|Hnin].
    + by apply Hfresh.
    + by rewrite <- (Hframe l Hnin).
  - intros k Hk. apply not_elem_of_app in Hk as [Hk1 Hk2].
    by rewrite (Hframeg k Hk1 Hk2), (Hframe k Hk1).
  - clear -Hnewg. revert Hnewg. generalize gls. clear gls.
    induction ts as [|t ts IH] in new |- *; intros gls H.
    + inversion H; subst. constructor.
    + inversion H; subst. constructor; [done|]. by apply IH.
Qed.

Lemma NoDup_interleave {A} (a b c d : list A) :
  NoDup (a ++ b) → NoDup (c ++ d) →
  (∀ x, x ∈ a ++ b → x ∉ c ++ d) →
  NoDup ((a ++ c) ++ (b ++ d)).
Proof.
  intros (Ha & Hab & Hb)%NoDup_app (Hc & Hcd & Hd)%NoDup_app Hdisj.
  assert (∀ x, x ∈ a ∨ x ∈ b → x ∈ c ∨ x ∈ d → False) as Hdisj'.
  { intros x Hx Hx'. apply (Hdisj x); by apply elem_of_app. }
  apply NoDup_app. split; [|split].
  - apply NoDup_app. split; [done|]. split; [|done].
    intros x Hx Hx'. apply (Hdisj' x); auto.
  - intros x [Hx|Hx]%elem_of_app [Hx'|Hx']%elem_of_app.
    + by apply (Hab x).
    + apply (Hdisj' x); auto.
    + apply (Hdisj' x); auto.
    + by apply (Hcd x).
  - apply NoDup_app. split; [done|]. split; [|done].
    intros x Hx Hx'. apply (Hdisj' x); auto.
Qed.

Lemma Forall3_lookup_intro {A B C} (P : A → B → C → Prop)
    (l : list A) (k : list B) (k' : list C) :
  length l = length k → length l = length k' →
  (∀ i x y z, l !! i = Some x → k !! i = Some y → k' !! i = Some z → P x y z) →
  Forall3 P l k k'.
Proof.
  revert k k'. induction l as [|x l IH]; intros [|y k] [|z k'] Hk Hk' H;
    simplify_eq/=; constructor.
  - by apply (H 0).
  - apply IH; [done..|]. intros i. apply (H (S i)).
Qed.

Lemma param_ok_fresh_copy (h : gmap loc NDArray) (p gl : loc) (t : NDArray)
    (c : device) (sh : list nat) :
  h !! p = Some (with_grad (copy_of t c) (Some gl)) →
  h !! gl = Some (zeros_like (copy_of t c)) →
  shape t = sh → wf_NDArray t →
  param_ok h p gl sh.
Proof.
  intros Hp Hgl Hsh Hwf. eexists _, _.
  split; [exact Hp|]. split; [done|]. split; [exact Hgl|].
  split; [done|]. split; [done|]. split; [done|]. split; [exact Hwf|].
  unfold wf_NDArray. cbn. by rewrite length_replicate.
Qed.

Lemma replicate_params_closed (params : list loc) (ts : list NDArray)
    (ctx : list device) :
  ∀ s, stored_at s params ts →
  ∃ dev gdev s',
    replicate_params params ctx s = Ok (dev, s') ∧
    (∀ l, l ∈ concat dev ++ concat gdev → heap s !! l = None) ∧
    (∀ k, k ∉ concat dev ++ concat gdev → heap s' !! k = heap s !! k) ∧
    NoDup (concat dev ++ concat gdev) ∧
    Forall3 (λ W G c,
       Forall3 (λ p t gl,
          heap s' !! p = Some (with_grad (copy_of t c) (Some gl)) ∧
          heap s' !! gl = Some (zeros_like (copy_of t c))) W ts G)
      dev gdev ctx.
Proof.
  unfold replicate_params.
  induction ctx as [|c ctx IH]; intros s Hst.
  { exists [], [], s. repeat split; try constructor.
    by intros l ?%elem_of_nil. }
  destruct (get_params_closed c params ts s Hst)
    as (new & gls & s1 & Hrun & Hnd & Hfresh & Hframe & Hnew).
  assert (stored_at s1 params ts) as Hst1.
  { eapply Forall2_impl; [exact Hst|]. cbn. intros p t Hp.
    rewrite Hframe; [done|]. intros Hin. apply Hfresh in Hin. congruence. }
  destruct (IH s1 Hst1) as (dev & gdev & s' & Hrun' & Hfresh' & Hframe' & Hnd' & Hall).
  assert (∀ x, x ∈ new ++ gls → is_Some (heap s1 !! x)) as Hsome.
  { intros x [[i Hi]%list_elem_of_lookup|[i Hi]%list_elem_of_lookup]%elem_of_app.
    - destruct (Forall3_lookup_l _ _ _ _ _ _ Hnew Hi) as (? & ? & _ & _ & Hx & _).
      by eexists.
    - destruct (Forall3_lookup_r _ _ _ _ _ _ Hnew Hi) as (? & ? & _ & _ & _ & Hx).
      by eexists. }
  assert (∀ x, is_Some (heap s1 !! x) → x ∉ concat dev ++ concat gdev) as Hold.
  { intros x [y Hy] Hin. apply Hfresh' in Hin. congruence. }
  exists (new :: dev), (gls :: gdev), s'. cbn [concat].
  split; [|split; [|split; [|split]]].
  - cbn [mapM_]. rewrite (bind_ok _ _ _ _ _ Hrun).
    by rewrite (bind_ok _ _ _ _ _ Hrun').
  - intros l Hl.
    destruct (decide (l ∈ new ++ gls)) as [Hin|Hnin]; [by apply Hfresh|].
    rewrite <- (Hframe l Hnin). apply Hfresh'.
    clear -Hl Hnin. rewrite !elem_of_app in Hl. rewrite elem_of_app in Hnin.
    rewrite elem_of_app. tauto.
  - intros k Hk. rewrite !elem_of_app in Hk.
    rewrite Hframe', Hframe; [done|rewrite elem_of_app; tauto..].
  - apply NoDup_interleave; [done..|]. intros x Hx. by apply Hold, Hsome.
  - constructor; [|done].
    eapply Forall3_impl; [exact Hnew|]. cbn. intros p t gl [Hp Hgl].
    rewrite !Hframe'; [done|by apply Hold..].
Qed.

(** ** [train_batch] as a step of the training loop *)

Section TrainingLoop.

Variable forward_backward :
  NDArray → NDArray → list NDArray → result (list (list Q)).

(** The full effect of one training step: besides the new entries of the
    parameters and gradient buffers, nothing changes. *)
Lemma train_batch_effect (batch : DataBatch) (d lb : NDArray)
    (params gparams : list (list loc)) (shapes : list (list nat))
    (gradvals : list (list (list Q))) (ctx : list device) (n : nat) (lr : Q)
    (s : state) :
  batch_ok batch d lb ctx n →
  length params = length ctx →
  training_state (heap s) params gparams shapes →
  Forall2 (λ '(X, (Y, W)) gs,
     ∃ ws, stored_at s W ws ∧ forward_backward X Y ws = Ok gs)
    (zip (shards_of d ctx n) (zip (shards_of lb ctx n) params)) gradvals →
  gradvals_ok shapes gradvals →
  ∃ s',
    train_batch forward_backward batch params ctx lr s = Ok (tt, s') ∧
    same_skeleton (heap s) (heap s') ∧
    (∀ l, l ∉ concat params ++ concat gparams → heap s' !! l = heap s !! l) ∧
    (∀ c i W G p gl x,
       params !! c = Some W → W !! i = Some p →
       gparams !! c = Some G → G !! i = Some gl →
       heap s !! p = Some x →
       values <$> heap s' !! gl = Some (total_gradient gradvals i) ∧
       values <$> heap s' !! p =
       Some (sgd_values (values x) (total_gradient gradvals i)
               (lr / inject_Z (Z.of_nat n)))).
Proof.
  intros Hb Hlen Hts Hfb Hgv.
  destruct (train_batch_step forward_backward batch d lb params gparams shapes
              gradvals ctx n lr s Hb Hlen Hts Hfb Hgv) as (s' & Hrun & Hpost).
  exists s'. split; [done|].
  destruct Hb as (Hd & Hl & Hn & Hm & Hpos & HK & Hdiv).
  (* replay the phases to read off the layout and the frame *)
  pose proof Hrun as Hrun0.
  rewrite train_batch_phases in Hrun0. unfold index in Hrun0.
  rewrite Hd, Hl in Hrun0. cbn [from_option] in Hrun0.
  change (Ok d ≫= λ d0, split_and_load d0 ctx)
    with (split_and_load d ctx) in Hrun0.
  change (Ok lb ≫= λ l, split_and_load l ctx)
    with (split_and_load lb ctx) in Hrun0.
  rewrite (split_and_load_ok d ctx n), (split_and_load_ok lb ctx n)
    in Hrun0 by done.
  erewrite bind_ok in Hrun0 by reflexivity.
  erewrite bind_ok in Hrun0 by reflexivity.
  destruct (gradient_phases forward_backward (shards_of d ctx n)
              (shards_of lb ctx n) params gparams shapes gradvals ctx s)
    as (sB & HrunB & HskB & HframeB & HgradB); try done.
  { unfold shards_of. by rewrite length_imap. }
  { unfold shards_of. by rewrite length_imap. }
  { intros ->. cbn in Hlen. lia. }
  fold (shards_of d ctx n) (shards_of lb ctx n) in Hrun0.
  rewrite (bind_ok _ _ _ _ _ HrunB) in Hrun0.
  pose proof (update_ready_after_gradients _ _ _ _ _ Hts HskB HframeB) as Hrdy.
  destruct (update_params_closed_form batch params lr d n sB Hd Hn Hpos Hrdy)
    as (s'' & Hrun'' & Hs'').
  assert (s'' = s') as -> by congruence.
  split; [|split].
  - eapply same_skeleton_trans; [exact HskB|].
    rewrite Hs''. apply same_skeleton_writes.
  - intros l Hl'. apply not_elem_of_app in Hl' as [Hlp Hlg].
    rewrite Hs'', sgd_write_lookup_notin by done. by apply HframeB.
  - intros c i W G p gl x HW Hp HG Hgl Hx.
    destruct (Hpost c i W G p gl x HW Hp HG Hgl Hx) as (g' & Hg' & Hval & Hx').
    rewrite Hg', Hx'. cbn. by rewrite Hval.
Qed.

End TrainingLoop.

Lemma training_state_after (h h' : gmap loc NDArray)
    (params gparams : list (list loc)) (shapes : list (list nat)) :
  training_state h params gparams shapes → same_skeleton h h' →
  (∀ l x', l ∈ concat params ++ concat gparams → h' !! l = Some x' →
           wf_NDArray x') →
  training_state h' params gparams shapes.
Proof.
  intros [Hts Hnd] Hsk Hwf. split; [|done].
  apply Forall2_same_length_lookup_2; [by apply Forall2_length in Hts|].
  intros c W G HW HG.
  pose proof (Forall2_lookup_lr _ _ _ _ _ _ Hts HW HG) as HWG. cbn in HWG.
  apply Forall3_lookup_intro;
    [by apply Forall3_length_lm in HWG|by apply Forall3_length_lr in HWG|].
  intros i p gl sh Hp Hgl Hsh.
  destruct (Forall3_lookup_lmr _ _ _ _ _ _ _ _ HWG Hp Hgl Hsh)
    as (x & g & Hx & Hg & Hb & Hc & Hsx & Hsg & _).
  destruct (same_skeleton_lookup _ _ _ _ Hsk Hx) as (x' & Hx' & Hcx & Hsx' & Hgx).
  destruct (same_skeleton_lookup _ _ _ _ Hsk Hb) as (g' & Hg' & Hcg & Hsg' & _).
  exists x', g'. split; [done|]. split; [congruence|]. split; [done|].
  split; [congruence|]. split; [congruence|]. split; [congruence|]. split.
  - apply (Hwf p); [|done]. apply elem_of_app. left.
    by eapply elem_of_concat_lookup.
  - apply (Hwf gl); [|done]. apply elem_of_app. right.
    by eapply elem_of_concat_lookup.
Qed.

Section TrainingLoopInvariants.

Variable forward_backward :
  NDArray → NDArray → list NDArray → result (list (list Q)).

(** Training step, iterated: the step keeps the layout of the training
    state, keeps replicas with equal entries equal, and changes no tensor
    other than the replicas and their gradient buffers. *)
Lemma train_batch_invariant (batch : DataBatch) (d lb : NDArray)
    (params gparams : list (list loc)) (shapes : list (list nat))
    (gradvals : list (list (list Q))) (ctx : list device) (n : nat) (lr : Q)
    (s : state) :
  batch_ok batch d lb ctx n →
  length params = length ctx →
  training_state (heap s) params gparams shapes →
  Forall2 (λ '(X, (Y, W)) gs,
     ∃ ws, stored_at s W ws ∧ forward_backward X Y ws = Ok gs)
    (zip (shards_of d ctx n) (zip (shards_of lb ctx n) params)) gradvals →
  gradvals_ok shapes gradvals →
  ∃ s',
    train_batch forward_backward batch params ctx lr s = Ok (tt, s') ∧
    training_state (heap s') params gparams shapes ∧
    (∀ l, l ∉ concat params ++ concat gparams → heap s' !! l = heap s !! l) ∧
    (replicas_equal (heap s) params → replicas_equal (heap s') params) ∧
    same_skeleton (heap s) (heap s').
Proof.
  intros Hb Hlen Hts Hfb Hgv.
  destruct (train_batch_effect forward_backward batch d lb params gparams
              shapes gradvals ctx n lr s Hb Hlen Hts Hfb Hgv)
    as (s' & Hrun & Hsk & Hframe & Hnew).
  exists s'. split; [done|].
  assert (gradvals ≠ []) as Hne.
  { destruct Hb as (_ & _ & _ & _ & _ & HK & _).
    apply Forall2_length in Hfb. unfold shards_of in Hfb.
    rewrite !length_zip, !length_imap in Hfb. intros ->. cbn in Hfb. lia. }
  split; [|split; [done|split; [|done]]].
  - apply (training_state_after (heap s)); [done..|].
    intros l x' [Hl|Hl]%elem_of_app Hx'.
    + destruct (elem_of_concat_inv _ _ Hl) as (c & W & i & HW & Hp).
      destruct (training_state_lookup _ _ _ _ _ _ _ _ Hts HW Hp)
        as (G & gl & sh & HG & Hgl & Hsh & x & g & Hx & _ & _ & _ & Hsx & _
            & Hwf & _).
      destruct (Hnew c i W G l gl x HW Hp HG Hgl Hx) as [_ Hv].
      rewrite Hx' in Hv. cbn in Hv. injection Hv as Hv.
      destruct (same_skeleton_lookup _ _ _ _ Hsk Hx) as (x'' & Hx'' & _ & Hs'' & _).
      assert (x'' = x') as -> by congruence.
      destruct (total_gradient_sum shapes gradvals i sh Hgv Hne Hsh) as [Htl _].
      unfold wf_NDArray in *. rewrite Hv, Hs'', Hsx.
      rewrite length_sgd_values; congruence.
    + destruct (elem_of_concat_inv _ _ Hl) as (c & G & i & HG & Hgl).
      destruct (training_state_lookup_grad _ _ _ _ _ _ _ _ Hts HG Hgl)
        as (W & p & sh & HW & Hp & Hsh & x & g & Hx & _ & Hg & _ & _ & Hsg & _).
      destruct (Hnew c i W G p l x HW Hp HG Hgl Hx) as [Hv _].
      rewrite Hx' in Hv. cbn in Hv. injection Hv as Hv.
      destruct (same_skeleton_lookup _ _ _ _ Hsk Hg) as (g'' & Hg'' & _ & Hs'' & _).
      assert (g'' = x') as -> by congruence.
      destruct (total_gradient_sum shapes gradvals i sh Hgv Hne Hsh) as [Htl _].
      unfold wf_NDArray. rewrite Hv, Hs'', Hsg. done.
  - intros Heq i c c' y y' (W & p & HW & Hp & Hy) (W' & p' & HW' & Hp' & Hy').
    destruct (training_state_lookup _ _ _ _ _ _ _ _ Hts HW Hp)
      as (G & gl & sh & HG & Hgl & _ & x & _ & Hx & _).
    destruct (training_state_lookup _ _ _ _ _ _ _ _ Hts HW' Hp')
      as (G' & gl' & sh' & HG' & Hgl' & _ & x' & _ & Hx' & _).
    destruct (Hnew c i W G p gl x HW Hp HG Hgl Hx) as [_ Hv].
    destruct (Hnew c' i W' G' p' gl' x' HW' Hp' HG' Hgl' Hx') as [_ Hv'].
    rewrite Hy in Hv. rewrite Hy' in Hv'. cbn in Hv, Hv'.
    injection Hv as ->. injection Hv' as ->.
    f_equal. apply (Heq i c c'); [by exists W, p|by exists W', p'].
Qed.

End TrainingLoopInvariants.

(** ** [valid_batch] *)

Lemma lift_inv {A} (r : result A) (a : A) (s s' : state) :
  lift r s = Ok (a, s') → r = Ok a ∧ s' = s.
Proof. destruct r; cbn; [|done]. by intros [= -> ->]. Qed.

Lemma bind_inv {A B} (m : M A) (f : A → M B) (s s' : state) (b : B) :
  (m ≫= f) s = Ok (b, s') → ∃ a s1, m s = Ok (a, s1) ∧ f a s1 = Ok (b, s').
Proof.
  unfold mbind, M_bind. destruct (m s) as [[a s1]|e]; [|done]. eauto.
Qed.

Lemma mapM_deref_inv (ls : list loc) :
  ∀ (xs : list NDArray) (s s' : state),
  mapM_ deref ls s = Ok (xs, s') → s' = s ∧ stored_at s ls xs.
Proof.
  induction ls as [|l ls IH]; intros xs s s' H.
  - cbn in H. injection H as <- <-. split; [done|constructor].
  - cbn [mapM_] in H.
    apply bind_inv in H as (x & s1 & Hx & H).
    unfold deref in Hx. destruct (heap s !! l) as [y|] eqn:Hy; [|done].
    injection Hx as -> ->.
    apply bind_inv in H as (ys & s2 & Hys & H).
    apply IH in Hys as [-> Hys]. injection H as <- <-.
    split; [done|]. by constructor.
Qed.

Lemma nd_sum_equal_bounds (u v : list Q) :
  (0 <= foldr Qplus 0
          (zip_with (λ a b, if Qeq_bool a b then 1 else 0) u v))%Q ∧
  (foldr Qplus 0 (zip_with (λ a b, if Qeq_bool a b then 1 else 0) u v)
   <= inject_Z (Z.of_nat (length v)))%Q.
Proof.
  revert v. induction u as [|a u IH]; intros [|b v]; cbn [zip_with foldr length].
  - split; apply Qle_refl.
  - split; [apply Qle_refl|]. unfold Qle. cbn. lia.
  - split; apply Qle_refl.
  - destruct (IH v) as [IH0 IH1].
    assert (inject_Z (Z.of_nat (S (length v)))
            == 1 + inject_Z (Z.of_nat (length v)))%Q as ->.
    { rewrite Nat2Z.inj_succ. unfold Z.succ. rewrite inject_Z_plus.
      apply Qplus_comm. }
    destruct (Qeq_bool a b); split.
    + apply (Qle_trans _ (0 + 0)); [apply Qle_refl|].
      apply Qplus_le_compat; [done|exact IH0].
    + apply Qplus_le_compat; [apply Qle_refl|exact IH1].
    + apply (Qle_trans _ (0 + 0)); [apply Qle_refl|].
      apply Qplus_le_compat; [apply Qle_refl|exact IH0].
    + apply Qplus_le_compat; [done|exact IH1].
Qed.

Section Validation.

Variable predict : NDArray → list NDArray → result NDArray.

Lemma valid_batch_inv (batch : DataBatch) (params : list (list loc))
    (ctx : list device) (s s' : state) (r : Q) :
  valid_batch predict batch params ctx s = Ok (r, s') →
  s' = s ∧
  ∃ lb, label batch !! 0 = Some lb ∧
        (0 <= r)%Q ∧ (r <= inject_Z (Z.of_nat (length (values lb))))%Q.
Proof.
  unfold valid_batch. intros H.
  apply bind_inv in H as (d & s1 & [_ ->]%lift_inv & H).
  apply bind_inv in H as (c0 & s1 & [_ ->]%lift_inv & H).
  apply bind_inv in H as (W & s1 & [_ ->]%lift_inv & H).
  apply bind_inv in H as (ws & s1 & [-> _]%mapM_deref_inv & H).
  apply bind_inv in H as (pred & s1 & [_ ->]%lift_inv & H).
  apply bind_inv in H as (lb & s1 & [Hlb ->]%lift_inv & H).
  apply bind_inv in H as (c0' & s1 & [_ ->]%lift_inv & H).
  apply bind_inv in H as (eq & s1 & [Heq ->]%lift_inv & H).
  injection H as <- <-. split; [done|].
  unfold index in Hlb. destruct (label batch !! 0) as [lb'|] eqn:E; [|done].
  injection Hlb as ->. exists lb. split; [done|].
  unfold nd_equal in Heq.
  destruct (negb (same_context pred (as_in_context lb c0'))); [done|].
  destruct (negb (same_shape pred (as_in_context lb c0'))); [done|].
  injection Heq as <-. unfold nd_sum. cbn [values as_in_context].
  apply nd_sum_equal_bounds.
Qed.

Lemma valid_batch_ok (batch : DataBatch) (params : list (list loc))
    (ctx : list device) (d lb pred : NDArray) (c0 : device) (W : list loc)
    (ws : list NDArray) (s : state) :
  data batch !! 0 = Some d → label batch !! 0 = Some lb →
  ctx !! 0 = Some c0 → params !! 0 = Some W → stored_at s W ws →
  predict (as_in_context d c0) ws = Ok pred →
  context pred = c0 → shape pred = shape lb →
  ∃ r, valid_batch predict batch params ctx s = Ok (r, s) ∧
       (0 <= r)%Q ∧ (r <= inject_Z (Z.of_nat (length (values lb))))%Q.
Proof.
  intros Hd Hlb Hc HW Hws Hp Hcp Hsp.
  assert (∃ r, valid_batch predict batch params ctx s = Ok (r, s)) as [r Hr].
  { unfold valid_batch, index. rewrite Hd, Hc, HW, Hlb. cbn [from_option].
    do 3 (erewrite bind_ok by reflexivity).
    rewrite (bind_ok _ _ _ _ _ (mapM_deref_ok _ _ _ Hws)). rewrite Hp.
    do 3 (erewrite bind_ok by reflexivity).
    unfold nd_equal, same_context, same_shape.
    rewrite !bool_decide_eq_true_2 by done. by eexists. }
  exists r. split; [done|].
  destruct (valid_batch_inv _ _ _ _ _ _ Hr) as (_ & lb' & Hlb' & Hr0 & Hr1).
  by simplify_eq.
Qed.

End Validation.

(** ** [run] *)

Lemma mapM_inv {A B} (f : A → M B) (I : state → Prop) (Q : B → Prop)
    (l : list A) :
  (∀ a s, a ∈ l → I s → ∃ b s', f a s = Ok (b, s') ∧ I s' ∧ Q b) →
  ∀ s, I s →
  ∃ bs s', mapM_ f l s = Ok (bs, s') ∧ I s' ∧ Forall Q bs ∧
           length bs = length l.
Proof.
  induction l as [|a l IH]; intros Hf s Hs.
  - exists [], s. by repeat split.
  - destruct (Hf a s) as (b & s1 & Hb & Hs1 & HQ); [by left|done|].
    destruct (IH (λ a' s' Ha', Hf a' s' (list_elem_of_further _ _ _ Ha')) s1 Hs1)
      as (bs & s' & Hbs & Hs' & HQs & Hlen).
    exists (b :: bs), s'. split; [|split; [done|split]].
    + cbn [mapM_]. rewrite (bind_ok _ _ _ _ _ Hb).
      by rewrite (bind_ok _ _ _ _ _ Hbs).
    + by constructor.
    + cbn. by rewrite Hlen.
Qed.

Lemma stored_replica (h : gmap loc NDArray) (W G : list loc)
    (shapes : list (list nat)) :
  Forall3 (param_ok h) W G shapes →
  ∃ ws, Forall2 (λ l x, h !! l = Some x) W ws ∧
        Forall2 (λ w sh, shape w = sh ∧ wf_NDArray w) ws shapes.
Proof.
  induction 1
    as [|p gl sh W G shapes (x & g & Hx & _ & _ & _ & Hsx & _ & Hwf & _) _ IH].
  - exists []. split; constructor.
  - destruct IH as (ws & Hws & Hsh). exists (x :: ws).
    split; by constructor.
Qed.

Lemma Forall_exists_Forall2 {A B} (P : A → B → Prop) (l : list A) :
  Forall (λ a, ∃ b, P a b) l → ∃ k, Forall2 P l k.
Proof.
  induction 1 as [|a l [b Hb] _ [k Hk]]; [by exists []|].
  exists (b :: k). by constructor.
Qed.

Lemma same_skeleton_sym (h h' : gmap loc NDArray) :
  same_skeleton h h' → same_skeleton h' h.
Proof. intros H k. by rewrite H. Qed.

Lemma replicas_placed_skeleton (h h' : gmap loc NDArray)
    (params : list (list loc)) (ctx : list device) :
  same_skeleton h h' → replicas_placed h params ctx →
  replicas_placed h' params ctx.
Proof.
  intros Hsk Hpl c i x' (W & p & HW & Hp & Hx').
  destruct (same_skeleton_lookup _ _ _ _ (same_skeleton_sym _ _ Hsk) Hx')
    as (x & Hx & Hc & _).
  rewrite <- Hc. apply (Hpl c i x). by exists W, p.
Qed.

(** The tensors of replica [c]: stored, well-formed, of the shapes of the
    parameters and on device [c]. *)
Lemma placed_replica (h : gmap loc NDArray) (params gparams : list (list loc))
    (shapes : list (list nat)) (ctx : list device) (c : nat) (W : list loc)
    (dc : device) :
  training_state h params gparams shapes → replicas_placed h params ctx →
  params !! c = Some W → ctx !! c = Some dc →
  ∃ ws, Forall2 (λ l x, h !! l = Some x) W ws ∧
        Forall2 (λ w sh, shape w = sh ∧ wf_NDArray w ∧ context w = dc)
          ws shapes.
Proof.
  intros [Hts _] Hpl HW Hdc.
  destruct (Forall2_lookup_l _ _ _ _ _ Hts HW) as (G & _ & HWG).
  destruct (stored_replica _ _ _ _ HWG) as (ws & Hws & Hsh).
  exists ws. split; [done|].
  apply Forall2_same_length_lookup_2; [by eapply Forall2_length|].
  intros i w sh Hw Hshi.
  destruct (Forall2_lookup_lr _ _ _ _ _ _ Hsh Hw Hshi) as [Hs Hwf].
  split; [done|]. split; [done|].
  destruct (Forall2_lookup_r _ _ _ _ _ Hws Hw) as (p & Hp & Hpw).
  assert (ctx !! c = Some (context w)) as Hc.
  { apply (Hpl c i w). by exists W, p. }
  congruence.
Qed.

Section RunLoop.

Variable forward_backward :
  NDArray → NDArray → list NDArray → result (list (list Q)).
Variable predict : NDArray → list NDArray → result NDArray.

Lemma training_gradvals (params gparams : list (list loc))
    (shapes : list (list nat)) (ctx : list device)
    (train_data : list DataBatch) (batch : DataBatch) (d lb : NDArray)
    (n : nat) (s : state) :
  backward_ok forward_backward shapes ctx train_data →
  batch ∈ train_data → batch_ok batch d lb ctx n →
  training_state (heap s) params gparams shapes →
  replicas_placed (heap s) params ctx →
  ∃ gradvals,
    Forall2 (λ '(X, (Y, W)) gs,
       ∃ ws, stored_at s W ws ∧ forward_backward X Y ws = Ok gs)
      (zip (shards_of d ctx n) (zip (shards_of lb ctx n) params)) gradvals ∧
    gradvals_ok shapes gradvals.
Proof.
  intros Hfb Hin Hb Hts Hpl.
  assert (Forall (λ XYW : NDArray * (NDArray * list loc),
            ∃ gs, (∃ ws, stored_at s XYW.2.2 ws ∧
                         forward_backward XYW.1 XYW.2.1 ws = Ok gs) ∧
                  Forall2 (λ sh g, length g = size_of sh) shapes gs)
            (zip (shards_of d ctx n) (zip (shards_of lb ctx n) params)))
    as Hall.
  { apply Forall_lookup_2. intros c [X [Y W]] Hc.
    apply lookup_zip_with_Some in Hc as (X' & YW & [= <- <-] & HX & HYW).
    apply lookup_zip_with_Some in HYW as (Y' & W' & [= <- <-] & HY & HW).
    unfold shards_of in HX, HY. rewrite list_lookup_imap in HX, HY.
    destruct (ctx !! c) as [dc|] eqn:Hdc; [|done].
    cbn in HX, HY. injection HX as <-. injection HY as <-.
    destruct (placed_replica _ _ _ _ _ _ _ _ Hts Hpl HW Hdc)
      as (ws & Hws & Hsh).
    destruct (Hfb batch d lb n c dc ws Hin Hb Hdc Hsh) as (gs & Hgs & Hlen).
    exists gs. split; [by exists ws|done]. }
  destruct (Forall_exists_Forall2 _ _ Hall) as [gradvals Hgv].
  exists gradvals. clear -Hgv.
  induction Hgv as [|[X [Y W]] gs l k [H1 H2] _ [IH1 IH2]];
    [split; constructor|].
  split; by constructor.
Qed.

Lemma train_loop_invariant (h0 : gmap loc NDArray) (dev gdev : list (list loc))
    (shapes : list (list nat)) (ctx : list device) (lr : Q)
    (train_data : list DataBatch) :
  backward_ok forward_backward shapes ctx train_data →
  length dev = length ctx →
  train_data_ok ctx train_data →
  ∀ s, loop_invariant h0 dev gdev shapes ctx s →
  ∃ s', for_ train_data
          (λ batch, train_batch forward_backward batch dev ctx lr) s
        = Ok (tt, s') ∧
        loop_invariant h0 dev gdev shapes ctx s'.
Proof.
  intros Hfb Hlen Htrain.
  apply (for_inv _ (λ _, loop_invariant h0 dev gdev shapes ctx)).
  intros done batch rest s Hsplit (Hts & Hpl & Heq & Hframe).
  assert (batch ∈ train_data) as Hin.
  { rewrite Hsplit. apply elem_of_app. right. by left. }
  destruct (proj1 (Forall_forall _ _) Htrain batch Hin) as (d & lb & n & Hb).
  destruct (training_gradvals dev gdev shapes ctx train_data batch d lb n s
              Hfb Hin Hb Hts Hpl) as (gradvals & Hgv & Hok).
  destruct (train_batch_invariant forward_backward batch d lb dev gdev shapes
              gradvals ctx n lr s Hb Hlen Hts Hgv Hok)
    as (s' & Hrun & Hts' & Hframe' & Heq' & Hsk).
  exists s'. split; [done|]. split; [done|].
  split; [by eapply replicas_placed_skeleton|].
  split; [by apply Heq'|].
  intros l Hl. by rewrite Hframe', Hframe.
Qed.

Lemma validate_ok (dev gdev : list (list loc)) (shapes : list (list nat))
    (ctx : list device) (all_data valid_data : list DataBatch) (s : state) :
  predict_ok predict shapes ctx all_data →
  (∀ b, b ∈ valid_data → b ∈ all_data) →
  length dev = length ctx → 0 < length ctx →
  training_state (heap s) dev gdev shapes →
  replicas_placed (heap s) dev ctx →
  valid_data_ok valid_data →
  ∀ (correct : Q) (num : nat),
  (0 <= correct)%Q → (correct <= inject_Z (Z.of_nat num))%Q →
  ∃ c n, validate predict valid_data dev ctx correct num s = Ok ((c, n), s) ∧
         (0 <= c)%Q ∧ (c <= inject_Z (Z.of_nat n))%Q.
Proof.
  intros Hpred Hsub Hlen HK Hts Hpl Hvalid.
  destruct ctx as [|c0 ctx]; [cbn in HK; lia|].
  destruct dev as [|W dev]; [done|].
  destruct (placed_replica _ _ _ _ _ 0 W c0 Hts Hpl eq_refl eq_refl)
    as (ws & Hws & Hsh).
  induction Hvalid as [|batch valid (d & lb & n & Hd & Hlb & Hn & Hslb & Hwf) _ IH];
    intros correct num H0 H1.
  { exists correct, num. by repeat split. }
  destruct (Hpred batch d n c0 ws) as (pred & Hp & Hcp & Hsp);
    [apply Hsub; by left|done..|].
  destruct (valid_batch_ok predict batch (W :: dev) (c0 :: ctx) d lb pred c0 W
              ws s Hd Hlb eq_refl eq_refl Hws Hp Hcp)
    as (r & Hr & Hr0 & Hr1); [congruence|].
  assert (length (values lb) = n) as Hlenlb.
  { unfold wf_NDArray in Hwf. rewrite Hwf, Hslb. cbn. lia. }
  rewrite Hlenlb in Hr1.
  destruct (IH (λ b Hb, Hsub b (list_elem_of_further _ _ _ Hb))
              (Qplus correct r) (num + n)) as (c & n' & Hrun & Hc0 & Hc1).
  - apply (Qle_trans _ (0 + 0)); [apply Qle_refl|].
    by apply Qplus_le_compat.
  - rewrite Nat2Z.inj_add, inject_Z_plus. by apply Qplus_le_compat.
  - exists c, n'. split; [|done]. cbn [validate].
    rewrite (bind_ok _ _ _ _ _ Hr). unfold index. rewrite Hd.
    cbn [from_option]. erewrite bind_ok by reflexivity.
    unfold shape0. rewrite Hn. cbn [from_option].
    by erewrite bind_ok by reflexivity.
Qed.

End RunLoop.

Lemma originals_stored (h : gmap loc NDArray) (params : list loc)
    (shapes : list (list nat)) :
  originals_ok h params shapes →
  ∃ ts, Forall2 (λ l x, h !! l = Some x) params ts ∧
        Forall2 (λ t sh, shape t = sh ∧ wf_NDArray t) ts shapes.
Proof.
  induction 1 as [|p sh params shapes (t & Ht & Hsh & Hwf) _ IH].
  - exists []. split; constructor.
  - destruct IH as (ts & Hts & Hok). exists (t :: ts).
    split; by constructor.
Qed.

(** Copying the parameters to every device, as [run] does, yields a
    training state: the layout [train_batch] needs, equal replicas, and the
    store it started from untouched. *)
Lemma replicate_params_invariant (params : list loc)
    (shapes : list (list nat)) (ctx : list device) (s : state) :
  originals_ok (heap s) params shapes →
  ∃ dev gdev s',
    replicate_params params ctx s = Ok (dev, s') ∧
    length dev = length ctx ∧
    loop_invariant (heap s) dev gdev shapes ctx s' ∧
    (∀ l, l ∈ concat dev ++ concat gdev → heap s !! l = None) ∧
    (∀ c i W p, dev !! c = Some W → W !! i = Some p →
       ∃ q t x, params !! i = Some q ∧ heap s !! q = Some t ∧
                heap s' !! p = Some x ∧
                values x = values t ∧ shape x = shape t ∧
                ctx !! c = Some (context x)).
Proof.
  intros (ts & Hst & Hok)%originals_stored.
  destruct (replicate_params_closed params ts ctx s Hst)
    as (dev & gdev & s' & Hrun & Hfresh & Hframe & Hnd & Hall).
  exists dev, gdev, s'. split; [done|].
  split; [by apply Forall3_length_lr in Hall|].
  assert (∀ c i W p, dev !! c = Some W → W !! i = Some p →
            ∃ G gl t cc, gdev !! c = Some G ∧ G !! i = Some gl ∧
              ts !! i = Some t ∧ ctx !! c = Some cc ∧
              heap s' !! p = Some (with_grad (copy_of t cc) (Some gl)) ∧
              heap s' !! gl = Some (zeros_like (copy_of t cc))) as Hlay.
  { intros c i W p HW Hp.
    destruct (Forall3_lookup_l _ _ _ _ _ _ Hall HW) as (G & cc & HG & Hcc & HWG).
    destruct (Forall3_lookup_l _ _ _ _ _ _ HWG Hp) as (t & gl & Ht & Hgl & H1 & H2).
    by exists G, gl, t, cc. }
  split; [split; [split; [|done]|split; [|split; [|done]]]|split; [done|]].
  - apply Forall2_same_length_lookup_2; [by apply Forall3_length_lm in Hall|].
    intros c W G HW HG.
    destruct (Forall3_lookup_l _ _ _ _ _ _ Hall HW) as (G' & cc & HG' & Hcc & HWG).
    assert (G' = G) as -> by congruence.
    apply Forall3_lookup_intro.
    + apply Forall3_length_lr in HWG. done.
    + apply Forall3_length_lm in HWG. apply Forall2_length in Hok. lia.
    + intros i p gl sh Hp Hgl Hsh.
      destruct (Forall2_lookup_r _ _ _ _ _ Hok Hsh) as (t & Ht & Hst' & Hwf).
      destruct (Forall3_lookup_lmr _ _ _ _ _ _ _ _ HWG Hp Ht Hgl) as [H1 H2].
      by eapply param_ok_fresh_copy.
  - intros c i x (W & p & HW & Hp & Hx).
    destruct (Hlay c i W p HW Hp) as (G & gl & t & cc & _ & _ & _ & Hcc & H1 & _).
    rewrite H1 in Hx. by simplify_eq.
  - intros i c c' x x' (W & p & HW & Hp & Hx) (W' & p' & HW' & Hp' & Hx').
    destruct (Hlay c i W p HW Hp) as (G & gl & t & cc & _ & _ & Ht & _ & H1 & _).
    destruct (Hlay c' i W' p' HW' Hp')
      as (G' & gl' & t' & cc' & _ & _ & Ht' & _ & H1' & _).
    assert (t' = t) as -> by congruence.
    rewrite H1 in Hx. rewrite H1' in Hx'. by simplify_eq.
  - intros c i W p HW Hp.
    destruct (Hlay c i W p HW Hp) as (G & gl & t & cc & _ & _ & Ht & Hcc & H1 & _).
    destruct (Forall2_lookup_r _ _ _ _ _ Hst Ht) as (q & Hq & Hqt).
    by eexists q, t, _.
Qed.

Section RunProperties.

Variable forward_backward :
  NDArray → NDArray → list NDArray → result (list (list Q)).
Variable predict : NDArray → list NDArray → result NDArray.

(** X15: [run] trains copies.  With at least one device, training batches the
    devices divide evenly, at least one validation batch, and a network that
    handles the shards of these training batches and the data of these
    validation batches (on parameters of the right shapes on the device of
    the data; nothing is assumed of it on other input), [run] completes its
    five epochs, the count of correct predictions of every epoch lies between
    0 and the number of validation samples, and every tensor that existed
    before the call, the global [params] in particular, is left exactly as
    it was. *)
Theorem run_trains_copies (params : list loc) (shapes : list (list nat))
    (train_data valid_data : list DataBatch) (num_gpus : nat) (lr : Q)
    (s : state) :
  originals_ok (heap s) params shapes →
  0 < num_gpus →
  train_data_ok (gpu <$> seq 0 num_gpus) train_data →
  valid_data ≠ [] → valid_data_ok valid_data →
  backward_ok forward_backward shapes (gpu <$> seq 0 num_gpus) train_data →
  predict_ok predict shapes (gpu <$> seq 0 num_gpus) valid_data →
  ∃ accs s',
    run forward_backward predict params train_data valid_data num_gpus lr s
      = Ok (accs, s') ∧
    length accs = 5 ∧
    Forall (λ a, (0 <= a.1)%Q ∧ (a.1 <= inject_Z (Z.of_nat a.2))%Q) accs ∧
    (∀ l, is_Some (heap s !! l) → heap s' !! l = heap s !! l).
Proof.
  intros Horig HK Htrain Hvne Hvalid Hfb Hpred. unfold run.
  destruct (replicate_params_invariant params shapes (gpu <$> seq 0 num_gpus)
              s Horig) as (dev & gdev & s1 & Hrun & Hlen & Hinv & Hfresh & _).
  rewrite (bind_ok _ _ _ _ _ Hrun).
  assert (0 < length (gpu <$> seq 0 num_gpus)) as HK'.
  { by rewrite length_fmap, length_seq. }
  destruct (mapM_inv
    (λ _ : nat,
       for_ train_data (λ batch,
         train_batch forward_backward batch dev (gpu <$> seq 0 num_gpus) lr);;
       acc ← validate predict valid_data dev (gpu <$> seq 0 num_gpus) 0%Q 0;
       match valid_data with
       | [] => raise ZeroDivisionError
       | _ :: _ => mret acc
       end)
    (loop_invariant (heap s) dev gdev shapes (gpu <$> seq 0 num_gpus))
    (λ a, (0 <= a.1)%Q ∧ (a.1 <= inject_Z (Z.of_nat a.2))%Q)
    (seq 0 5)) with (s := s1) as (accs & s' & Hacc & Hinv' & Hbound & Hlen');
    [|done|].
  - intros _ s2 _ Hs2.
    destruct (train_loop_invariant forward_backward (heap s) dev gdev shapes
                _ lr train_data Hfb Hlen Htrain s2 Hs2) as (s3 & Htr & Hs3).
    destruct Hs3 as (Hts3 & Hpl3 & Hrest3).
    destruct (validate_ok predict dev gdev shapes _ valid_data valid_data s3
                Hpred (λ b Hb, Hb) Hlen HK' Hts3 Hpl3 Hvalid 0%Q 0)
      as (c & n & Hval & Hc0 & Hc1); [apply Qle_refl..|].
    exists (c, n), s3. split; [|done].
    rewrite (bind_ok _ _ _ _ _ Htr), (bind_ok _ _ _ _ _ Hval).
    by destruct valid_data.
  - exists accs, s'. split; [done|]. split; [done|]. split; [done|].
    intros l [x Hx]. destruct Hinv' as (_ & _ & _ & Hframe). apply Hframe.
    intros Hin. apply Hfresh in Hin. congruence.
Qed.

End RunProperties.

(** * Further properties of the notebook's functions *)

(** ** [split_and_load] *)

Lemma split_and_load_shards_witness :
  ∃ shards,
    split_and_load batch44 [gpu 0; gpu 1] = Ok shards ∧
    length shards = length [gpu 0; gpu 1] ∧
    (∀ i s, shards !! i = Some s →
       [gpu 0; gpu 1] !! i = Some (context s) ∧
       shape s = (4 / length [gpu 0; gpu 1]) :: tail (shape batch44) ∧
       ∀ j, j < 4 / length [gpu 0; gpu 1] →
            row s j = row batch44 (i * (4 / length [gpu 0; gpu 1]) + j)) ∧
    concat_values shards = values batch44 ∧
    concat_rows shards = 4.
Proof.
  apply (split_and_load_shards batch44 [gpu 0; gpu 1] 4);
    [reflexivity|reflexivity|lia|cbn; lia|reflexivity].
Defined.

(** X2: without any device, [split_and_load] does not reach its assertion:
    the division [n // k] by the number of devices raises. *)
Theorem split_and_load_no_devices (x : NDArray) (n : nat) :
  shape x !! 0 = Some n → split_and_load x [] = Raise ZeroDivisionError.
Proof.
  intros Hn. unfold split_and_load, shape0. by rewrite Hn.
Qed.

Lemma split_and_load_no_devices_witness :
  shape batch44 !! 0 = Some 4 ∧
  split_and_load batch44 [] = Raise ZeroDivisionError.
Proof.
  split; [reflexivity|].
  apply (split_and_load_no_devices batch44 4). reflexivity.
Defined.

(** ** [SGD] *)


(** X4: [SGD] updates in place and nothing else.  On distinct parameters,
    each with a stored gradient buffer of its shape on its device that is
    not itself one of the parameters, [SGD] succeeds, every parameter [p]
    ends with the entries [p - grad * lr] (device, shape and gradient buffer
    kept), and every other tensor, the gradient buffers included, is as
    before. *)
Theorem SGD_updates_in_place (W : list loc) (lr : Q) (s : state) :
  NoDup W →
  (∀ p, p ∈ W → sgd_ready (heap s) p) →
  (∀ p x gl, p ∈ W → heap s !! p = Some x → grad x = Some gl → gl ∉ W) →
  ∃ s',
    SGD W lr s = Ok (tt, s') ∧
    (∀ l, l ∉ W → heap s' !! l = heap s !! l) ∧
    (∀ p x gl g, p ∈ W →
       heap s !! p = Some x → grad x = Some gl → heap s !! gl = Some g →
       ∃ x', heap s' !! p = Some x' ∧
             context x' = context x ∧ shape x' = shape x ∧
             grad x' = grad x ∧
             values x' =
             zip_with Qminus (values x) ((λ gv, Qmult gv lr) <$> values g)).
Proof.
  intros Hnd Hready Hgrads.
  destruct (SGD_closed_form W lr s Hnd Hready Hgrads) as (s' & Hrun & Hs').
  exists s'. split; [done|]. rewrite Hs'. split.
  - intros l Hl. by apply sgd_write_lookup_notin.
  - intros p x gl g Hp Hx Hgl Hg.
    erewrite lookup_apply_writes_in.
    + rewrite Hx. cbn. by eexists.
    + by rewrite sgd_write_fst.
    + apply list_elem_of_bind. exists p. split; [|done].
      rewrite (sgd_write_ready _ _ _ _ _ _ Hx Hgl Hg). by left.
Qed.




Lemma SGD_updates_in_place_witness :
  ∃ s',
    SGD [10; 20] (1 # 10) demo_training = Ok (tt, s') ∧
    (∀ l, l ∉ [10; 20] → heap s' !! l = heap demo_training !! l) ∧
    (∀ p x gl g, p ∈ [10; 20] →
       heap demo_training !! p = Some x → grad x = Some gl →
       heap demo_training !! gl = Some g →
       ∃ x', heap s' !! p = Some x' ∧
             context x' = context x ∧ shape x' = shape x ∧
             grad x' = grad x ∧
             values x' =
             zip_with Qminus (values x)
               ((λ gv, Qmult gv (1 # 10)) <$> values g)).
Proof.
  destruct demo_update_ready as (H1 & H2 & H3).
  exact (SGD_updates_in_place [10; 20] (1 # 10) demo_training H1 H2 H3).
Defined.




(** ** [copy] and [get_params] *)

(** X7: [copy] makes one new tensor per tensor given, in order: the new
    tensors are distinct from each other and from every tensor that
    existed, each is on the device asked for with the shape and the entries
    of its original and no gradient buffer, and every tensor that existed is
    left as it was. *)
Theorem copy_makes_fresh_copies (xs : list loc) (ts : list NDArray)
    (c : device) (s : state) :
  stored_at s xs ts →
  ∃ new s',
    copy xs c s = Ok (new, s') ∧
    length new = length xs ∧ NoDup new ∧
    (∀ l, l ∈ new → heap s !! l = None) ∧
    (∀ k, is_Some (heap s !! k) → heap s' !! k = heap s !! k) ∧
    (∀ i l t, new !! i = Some l → ts !! i = Some t →
       ∃ t', heap s' !! l = Some t' ∧ context t' = c ∧
             shape t' = shape t ∧ values t' = values t ∧ grad t' = None).
Proof.
  intros Hst.
  destruct (copy_closed c xs ts s Hst)
    as (new & s' & Hrun & Hnd & Hfresh & Hframe & Hnew).
  exists new, s'. split; [done|]. split.
  { apply Forall2_length in Hnew, Hst. congruence. }
  split; [done|]. split; [done|]. split.
  - intros k [x Hx]. apply Hframe. intros Hk. apply Hfresh in Hk. congruence.
  - intros i l t Hl Ht.
    pose proof (Forall2_lookup_lr _ _ _ _ _ _ Hnew Hl Ht) as H. cbn in H.
    by eexists.
Qed.

Lemma copy_makes_fresh_copies_witness :
  ∃ new s',
    copy [0; 1] (cpu 0) demo_state = Ok (new, s') ∧
    length new = length [0; 1] ∧ NoDup new ∧
    (∀ l, l ∈ new → heap demo_state !! l = None) ∧
    (∀ k, is_Some (heap demo_state !! k) →
          heap s' !! k = heap demo_state !! k) ∧
    (∀ i l t, new !! i = Some l →
       [ones12 (gpu 0) 1%Q; ones12 (gpu 1) 2%Q] !! i = Some t →
       ∃ t', heap s' !! l = Some t' ∧ context t' = cpu 0 ∧
             shape t' = shape t ∧ values t' = values t ∧ grad t' = None).
Proof.
  exact (copy_makes_fresh_copies [0; 1]
           [ones12 (gpu 0) 1%Q; ones12 (gpu 1) 2%Q] (cpu 0) demo_state
           demo_stored).
Defined.

(** X8: [get_params] returns a replica that is ready for training: one new
    parameter per parameter given, on the device asked for, with the shape
    and entries of its original, and attached to each a new gradient buffer
    of that shape filled with zeros.  Parameters and buffers are all
    distinct and new, and every tensor that existed is left as it was. *)
Theorem get_params_fresh_replica (params : list loc) (ts : list NDArray)
    (c : device) (s : state) :
  stored_at s params ts →
  ∃ new gls s',
    get_params params c s = Ok (new, s') ∧
    length new = length params ∧ length gls = length params ∧
    NoDup (new ++ gls) ∧
    (∀ l, l ∈ new ++ gls → heap s !! l = None) ∧
    (∀ k, is_Some (heap s !! k) → heap s' !! k = heap s !! k) ∧
    (∀ i p t, new !! i = Some p → ts !! i = Some t →
       ∃ x gl g,
         gls !! i = Some gl ∧
         heap s' !! p = Some x ∧ context x = c ∧ shape x = shape t ∧
         values x = values t ∧ grad x = Some gl ∧
         heap s' !! gl = Some g ∧ context g = c ∧ shape g = shape t ∧
         values g = replicate (size_of (shape t)) 0%Q ∧ grad g = None).
Proof.
  intros Hst.
  destruct (get_params_closed c params ts s Hst)
    as (new & gls & s' & Hrun & Hnd & Hfresh & Hframe & Hnew).
  exists new, gls, s'. split; [done|].
  pose proof (Forall3_length_lm _ _ _ _ Hnew) as Hl1.
  pose proof (Forall3_length_lr _ _ _ _ Hnew) as Hl2.
  apply Forall2_length in Hst.
  split; [congruence|]. split; [congruence|].
  split; [done|]. split; [done|]. split.
  - intros k [x Hx]. apply Hframe. intros Hk. apply Hfresh in Hk. congruence.
  - intros i p t Hp Ht.
    destruct (Forall3_lookup_l _ _ _ _ _ _ Hnew Hp) as (t' & gl & Ht' & Hgl & H1 & H2).
    assert (t' = t) as -> by congruence.
    eexists _, gl, _. split; [done|]. split; [exact H1|].
    do 4 (split; [reflexivity|]). split; [exact H2|]. by repeat split.
Qed.

Lemma get_params_fresh_replica_witness :
  ∃ new gls s',
    get_params [0; 1] (gpu 0) demo_state = Ok (new, s') ∧
    length new = length [0; 1] ∧ length gls = length [0; 1] ∧
    NoDup (new ++ gls) ∧
    (∀ l, l ∈ new ++ gls → heap demo_state !! l = None) ∧
    (∀ k, is_Some (heap demo_state !! k) →
          heap s' !! k = heap demo_state !! k) ∧
    (∀ i p t, new !! i = Some p →
       [ones12 (gpu 0) 1%Q; ones12 (gpu 1) 2%Q] !! i = Some t →
       ∃ x gl g,
         gls !! i = Some gl ∧
         heap s' !! p = Some x ∧ context x = gpu 0 ∧ shape x = shape t ∧
         values x = values t ∧ grad x = Some gl ∧
         heap s' !! gl = Some g ∧ context g = gpu 0 ∧ shape g = shape t ∧
         values g = replicate (size_of (shape t)) 0%Q ∧ grad g = None).
Proof.
  exact (get_params_fresh_replica [0; 1]
           [ones12 (gpu 0) 1%Q; ones12 (gpu 1) 2%Q] (gpu 0) demo_state
           demo_stored).
Defined.

Lemma demo_originals_ok :
  originals_ok (heap demo_state) [0; 1] [[1; 2]; [1; 2]].
Proof. repeat constructor; eexists; repeat split; reflexivity. Qed.



(** ** [train_batch] *)

Lemma bind_raise {A B} (m : M A) (f : A → M B) (s : state) (e : exn) :
  m s = Raise e → (m ≫= f) s = Raise e.
Proof. intros H. unfold mbind, M_bind. by rewrite H. Qed.

Lemma checked_backward_ok (X Y : NDArray) (ws : list NDArray)
    (shapes : list (list nat)) :
  length (shape X) = 2 → shape Y = take 1 (shape X) →
  Forall2 (λ w sh, shape w = sh ∧ wf_NDArray w ∧ context w = context X)
    ws shapes →
  ∃ gs, checked_backward X Y ws = Ok gs ∧
        Forall2 (λ sh g, length g = size_of sh) shapes gs.
Proof.
  intros Hr HY Hws. unfold checked_backward.
  rewrite (proj2 (Nat.eqb_eq _ _) Hr), bool_decide_eq_true_2 by done.
  assert (forallb (same_context X) ws = true) as ->.
  { clear -Hws. induction Hws as [|w sh ws shapes (_ & _ & Hc) _ IH]; [done|].
    cbn. unfold same_context at 1. by rewrite bool_decide_eq_true_2. }
  cbn [andb]. eexists. split; [reflexivity|].
  apply Forall2_fmap_r, Forall2_flip.
  eapply Forall2_impl; [exact Hws|]. cbn. intros w sh (<- & Hwf & _).
  by rewrite length_fmap.
Qed.

Lemma checked_predict_ok (X : NDArray) (ws : list NDArray)
    (shapes : list (list nat)) (n : nat) :
  length (shape X) = 2 → shape X !! 0 = Some n →
  Forall2 (λ w sh, shape w = sh ∧ wf_NDArray w ∧ context w = context X)
    ws shapes →
  ∃ pred, checked_predict X ws = Ok pred ∧ context pred = context X ∧
          shape pred = [n].
Proof.
  intros Hr Hn Hws. unfold checked_predict.
  rewrite (proj2 (Nat.eqb_eq _ _) Hr).
  assert (forallb (same_context X) ws = true) as ->.
  { clear -Hws. induction Hws as [|w sh ws shapes (_ & _ & Hc) _ IH]; [done|].
    cbn. unfold same_context at 1. by rewrite bool_decide_eq_true_2. }
  cbn [andb]. unfold demo_predict, shape0. rewrite Hn.
  eexists. by repeat split.
Qed.

(** The stand-ins handle the demonstration batch on two devices, and raise
    on input of any other layout. *)
Lemma demo_checked_backward (shapes : list (list nat)) :
  backward_ok checked_backward shapes [gpu 0; gpu 1] [demo_batch].
Proof.
  intros b d lb n c dc ws ->%list_elem_of_singleton (Hd & Hl & Hn & _) Hc Hws.
  cbn in Hd, Hl. simplify_eq. cbn in Hn. simplify_eq.
  destruct c as [|[|c]]; cbn in Hc; simplify_eq;
    by apply checked_backward_ok.
Qed.

Lemma demo_checked_predict (shapes : list (list nat)) :
  predict_ok checked_predict shapes [gpu 0; gpu 1] [demo_batch].
Proof.
  intros b d n c0 ws ->%list_elem_of_singleton Hd Hn Hc Hws.
  cbn in Hd, Hc. simplify_eq.
  by apply (checked_predict_ok (as_in_context batch44 (gpu 0)) ws shapes n).
Qed.

Lemma demo_checked_gradients :
  Forall2 (λ '(X, (Y, W)) gs,
     ∃ ws, stored_at demo_training W ws ∧ checked_backward X Y ws = Ok gs)
    (zip (shards_of batch44 [gpu 0; gpu 1] 4)
       (zip (shards_of demo_labels [gpu 0; gpu 1] 4) [[10]; [20]]))
    [[[2%Q; 4%Q]]; [[2%Q; 4%Q]]].
Proof.
  repeat constructor.
  - exists [demo_param (gpu 0) 11]. split; [by repeat constructor|]. reflexivity.
  - exists [demo_param (gpu 1) 21]. split; [by repeat constructor|]. reflexivity.
Qed.

Lemma demo_replicas_equal : replicas_equal (heap demo_training) [[10]; [20]].
Proof.
  intros i c c' x x' Hx Hx'.
  assert (i = 0) as ->.
  { destruct Hx as (W & p & HW & Hp & _).
    destruct c as [|[|c]]; cbn in HW; simplify_eq;
      by destruct i. }
  apply demo_replica in Hx as [-> _], Hx' as [-> _]. done.
Qed.



(** X11: a training step keeps the replicas in step.  Under the conditions
    of X10, if the replicas of every parameter have the same entries on all
    devices before [train_batch], they have the same entries on all devices
    after it. *)
Theorem train_batch_keeps_replicas_equal
    (forward_backward :
       NDArray → NDArray → list NDArray → result (list (list Q)))
    (batch : DataBatch) (d lb : NDArray)
    (params gparams : list (list loc)) (shapes : list (list nat))
    (gradvals : list (list (list Q))) (ctx : list device) (n : nat) (lr : Q)
    (s : state) :
  batch_ok batch d lb ctx n →
  length params = length ctx →
  training_state (heap s) params gparams shapes →
  Forall2 (λ '(X, (Y, W)) gs,
     ∃ ws, stored_at s W ws ∧ forward_backward X Y ws = Ok gs)
    (zip (shards_of d ctx n) (zip (shards_of lb ctx n) params)) gradvals →
  gradvals_ok shapes gradvals →
  replicas_equal (heap s) params →
  ∃ s',
    train_batch forward_backward batch params ctx lr s = Ok (tt, s') ∧
    replicas_equal (heap s') params.
Proof.
  intros Hb Hlen Hts Hgv Hok Heq.
  destruct (train_batch_invariant forward_backward batch d lb params gparams
              shapes gradvals ctx n lr s Hb Hlen Hts Hgv Hok)
    as (s' & Hrun & _ & _ & Heq' & _).
  exists s'. split; [done|]. by apply Heq'.
Qed.

Lemma train_batch_keeps_replicas_equal_witness :
  ∃ s',
    train_batch checked_backward demo_batch [[10]; [20]] [gpu 0; gpu 1]
      (1 # 10) demo_training = Ok (tt, s') ∧
    replicas_equal (heap s') [[10]; [20]].
Proof.
  exact (train_batch_keeps_replicas_equal checked_backward demo_batch batch44
           demo_labels [[10]; [20]] [[11]; [21]] [[2]]
           [[[2%Q; 4%Q]]; [[2%Q; 4%Q]]] [gpu 0; gpu 1] 4
           (1 # 10) demo_training demo_batch_ok eq_refl demo_training_state
           demo_checked_gradients demo_gradvals_ok demo_replicas_equal).
Defined.

(** X12: a batch whose row count the devices do not divide evenly stops
    [train_batch] at the assertion of its first [split_and_load], whatever
    the parameters and the network are. *)
Theorem train_batch_indivisible
    (forward_backward :
       NDArray → NDArray → list NDArray → result (list (list Q)))
    (batch : DataBatch) (d : NDArray) (params : list (list loc))
    (ctx : list device) (n : nat) (lr : Q) (s : state) :
  data batch !! 0 = Some d → shape d !! 0 = Some n →
  1 ≤ length ctx → n `mod` length ctx ≠ 0 →
  train_batch forward_backward batch params ctx lr s = Raise AssertionError.
Proof.
  intros Hd Hn Hk Hdiv.
  assert (split_and_load d ctx = Raise AssertionError) as Hsplit.
  { unfold split_and_load, shape0. rewrite Hn.
    cbn [from_option mbind result_bind].
    unfold floordiv. destruct (decide (length ctx = 0)) as [|_]; [lia|].
    cbn [mbind result_bind].
    destruct (n / length ctx * length ctx =? n) eqn:E; [|done].
    apply Nat.eqb_eq in E. exfalso. apply Hdiv.
    apply Nat.Div0.div_exact. lia. }
  unfold train_batch. apply bind_raise. unfold index. rewrite Hd.
  cbn [from_option mbind result_bind]. by rewrite Hsplit.
Qed.

Lemma train_batch_indivisible_witness :
  data demo_batch !! 0 = Some batch44 ∧ shape batch44 !! 0 = Some 4 ∧
  1 ≤ length [gpu 0; gpu 1; gpu 2] ∧ 4 `mod` length [gpu 0; gpu 1; gpu 2] ≠ 0 ∧
  train_batch demo_backward demo_batch [[10]; [20]] [gpu 0; gpu 1; gpu 2]
    (1 # 10) demo_training = Raise AssertionError.
Proof.
  split; [reflexivity|]. split; [reflexivity|]. split; [cbn; lia|].
  split; [cbn; lia|].
  apply (train_batch_indivisible demo_backward demo_batch batch44 [[10]; [20]]
           [gpu 0; gpu 1; gpu 2] 4 (1 # 10) demo_training);
    [reflexivity|reflexivity|cbn; lia|cbn; lia].
Defined.

(** ** [valid_batch] *)

Lemma nd_sum_agreements (u v : list Q) :
  Qeq (foldr Qplus 0%Q
         (zip_with (λ a b, if Qeq_bool a b then 1%Q else 0%Q) u v))
      (inject_Z (Z.of_nat (agreements u v))).
Proof.
  unfold agreements. revert v.
  induction u as [|a u IH]; intros [|b v]; cbn [zip_with foldr];
    try reflexivity.
  rewrite filter_cons. cbn [fst snd]. destruct (Qeq_bool a b).
  - rewrite decide_True by exact I. cbn [length].
    transitivity (1 + inject_Z (Z.of_nat
      (length (filter (λ p : Q * Q, Is_true (Qeq_bool p.1 p.2)) (zip u v)))))%Q.
    + apply Qplus_comp; [reflexivity|apply IH].
    + rewrite Nat2Z.inj_succ. unfold Z.succ. rewrite inject_Z_plus.
      apply Qplus_comm.
  - rewrite decide_False by (intros []).
    transitivity (0 + inject_Z (Z.of_nat
      (length (filter (λ p : Q * Q, Is_true (Qeq_bool p.1 p.2)) (zip u v)))))%Q.
    + apply Qplus_comp; [reflexivity|apply IH].
    + apply Qplus_0_l.
Qed.

(** X13: [valid_batch] counts the correct predictions of the first device
    and changes nothing.  With the batch placed on the first device, the
    prediction computed from the first replica, and one prediction per
    label, the result is (numerically) the number of positions at which
    prediction and label agree, and the store is the one before the call:
    the devices and replicas other than the first are never used. *)
Theorem valid_batch_counts_agreements
    (predict : NDArray → list NDArray → result NDArray)
    (batch : DataBatch) (params : list (list loc)) (ctx : list device)
    (d lb pred : NDArray) (c0 : device) (W : list loc) (ws : list NDArray)
    (s : state) :
  data batch !! 0 = Some d → label batch !! 0 = Some lb →
  ctx !! 0 = Some c0 → params !! 0 = Some W → stored_at s W ws →
  predict (as_in_context d c0) ws = Ok pred →
  context pred = c0 → shape pred = shape lb →
  ∃ r, valid_batch predict batch params ctx s = Ok (r, s) ∧
       Qeq r (inject_Z (Z.of_nat (agreements (values pred) (values lb)))).
Proof.
  intros Hd Hlb Hc HW Hws Hp Hcp Hsp.
  eexists. split.
  - unfold valid_batch, index. rewrite Hd, Hc, HW, Hlb. cbn [from_option].
    do 3 (erewrite bind_ok by reflexivity).
    rewrite (bind_ok _ _ _ _ _ (mapM_deref_ok _ _ _ Hws)). rewrite Hp.
    do 3 (erewrite bind_ok by reflexivity).
    unfold nd_equal, same_context, same_shape.
    rewrite !bool_decide_eq_true_2 by done. reflexivity.
  - unfold nd_sum. cbn [values as_in_context]. apply nd_sum_agreements.
Qed.

Lemma valid_batch_counts_agreements_witness :
  ∃ r, valid_batch demo_predict demo_batch [[10]; [20]] [gpu 0; gpu 1]
         demo_training = Ok (r, demo_training) ∧
       Qeq r (inject_Z (Z.of_nat
         (agreements [0%Q; 0%Q; 0%Q; 0%Q] (values demo_labels)))).
Proof.
  apply (valid_batch_counts_agreements demo_predict demo_batch
           [[10]; [20]] [gpu 0; gpu 1] batch44 demo_labels
           {| context := gpu 0; shape := [4];
              values := [0%Q; 0%Q; 0%Q; 0%Q]; grad := None |}
           (gpu 0) [10] [demo_param (gpu 0) 11] demo_training);
    try reflexivity.
  by repeat constructor.
Defined.

(** X14: without any device [valid_batch] raises [IndexError], whatever the
    batch and the replicas are: [ctx[0]] does not exist. *)
Theorem valid_batch_no_devices
    (predict : NDArray → list NDArray → result NDArray)
    (batch : DataBatch) (params : list (list loc)) (s : state) :
  valid_batch predict batch params [] s = Raise IndexError.
Proof.
  unfold valid_batch, index. by destruct (data batch !! 0).
Qed.

(** ** [run] *)

Lemma run_trains_copies_witness :
  ∃ accs s',
    run checked_backward checked_predict [0; 1] [demo_batch] [demo_batch] 2
      (1 # 10) demo_state = Ok (accs, s') ∧
    length accs = 5 ∧
    Forall (λ a, (0 <= a.1)%Q ∧ (a.1 <= inject_Z (Z.of_nat a.2))%Q) accs ∧
    (∀ l, is_Some (heap demo_state !! l) →
          heap s' !! l = heap demo_state !! l).
Proof.
  apply (run_trains_copies checked_backward checked_predict [0; 1]
           [[1; 2]; [1; 2]] [demo_batch] [demo_batch] 2 (1 # 10) demo_state).
  - exact demo_originals_ok.
  - lia.
  - constructor; [|constructor]. exists batch44, demo_labels, 4.
    exact demo_batch_ok.
  - discriminate.
  - constructor; [|constructor]. exists batch44, demo_labels, 4.
    by repeat split.
  - apply demo_checked_backward.
  - apply demo_checked_predict.
Defined.

(** X16: [run] with no GPU stops at its first training batch: the list of
    devices is empty, no replica is made, and [split_and_load] divides the
    batch size by the number of devices. *)
Theorem run_without_gpus
    (forward_backward :
       NDArray → NDArray → list NDArray → result (list (list Q)))
    (predict : NDArray → list NDArray → result NDArray)
    (params : list loc) (batch : DataBatch) (train_data : list DataBatch)
    (valid_data : list DataBatch) (d : NDArray) (n : nat) (lr : Q)
    (s : state) :
  data batch !! 0 = Some d → shape d !! 0 = Some n →
  run forward_backward predict params (batch :: train_data) valid_data 0 lr s
  = Raise ZeroDivisionError.
Proof.
  intros Hd Hn. unfold run. cbn [seq fmap list_fmap].
  erewrite bind_ok by reflexivity.
  cbn [mapM_]. do 2 apply bind_raise. cbn [for_]. do 2 apply bind_raise.
  unfold index. rewrite Hd. cbn [from_option mbind result_bind].
  unfold split_and_load, shape0. by rewrite Hn.
Qed.

Lemma run_without_gpus_witness :
  data demo_batch !! 0 = Some batch44 ∧ shape batch44 !! 0 = Some 4 ∧
  run demo_backward demo_predict [0; 1] [demo_batch] [demo_batch] 0 (1 # 10)
    demo_state = Raise ZeroDivisionError.
Proof.
  split; [reflexivity|]. split; [reflexivity|].
  apply (run_without_gpus demo_backward demo_predict [0; 1] demo_batch []
           [demo_batch] batch44 4 (1 # 10) demo_state); reflexivity.
Defined.

(** * The accuracy metric of the conditional GAN notebook *)

Lemma facc_equal_lengths (label pred : nparray) :
  length (ravel label) = length (ravel pred) →
  facc label pred =
  Ok (np_mean ((λ pl : Q * Q, bool_eq (gt_half pl.1) pl.2)
                 <$> zip (ravel pred) (ravel label))).
Proof.
  intros Hlen. unfold facc, broadcast. by rewrite decide_True.
Qed.

Lemma positive_count (n : nat) : 0 < n → ¬ Qeq (inject_Z (Z.of_nat n)) 0.
Proof. intros Hn. unfold Qeq. cbn. lia. Qed.

Lemma fraction_bounds (c n : nat) :
  c ≤ n → 0 < n →
  (0 <= inject_Z (Z.of_nat c) / inject_Z (Z.of_nat n))%Q ∧
  (inject_Z (Z.of_nat c) / inject_Z (Z.of_nat n) <= 1)%Q.
Proof.
  intros Hc Hn.
  assert (0 < inject_Z (Z.of_nat n))%Q as Hpos.
  { unfold Qlt. cbn. lia. }
  split.
  - apply Qle_shift_div_l; [done|]. unfold Qle. cbn. lia.
  - apply Qle_shift_div_r; [done|]. unfold Qle. cbn. lia.
Qed.

Lemma fraction_complement (c c' n : nat) :
  c' + c = n → 0 < n →
  Qeq (inject_Z (Z.of_nat c') / inject_Z (Z.of_nat n))
      (1 - inject_Z (Z.of_nat c) / inject_Z (Z.of_nat n)).
Proof.
  intros Hsum Hn. pose proof (positive_count n Hn) as HN.
  assert (Qeq (inject_Z (Z.of_nat c'))
              (inject_Z (Z.of_nat n) - inject_Z (Z.of_nat c))) as Hc'.
  { rewrite <- Hsum, Nat2Z.inj_add. unfold Qeq. cbn. lia. }
  transitivity ((inject_Z (Z.of_nat n) - inject_Z (Z.of_nat c))
                / inject_Z (Z.of_nat n))%Q.
  - apply Qmult_comp; [exact Hc'|reflexivity].
  - field. exact HN.
Qed.

Lemma Qeq_bool_false (x y : Q) : ¬ Qeq x y → Qeq_bool x y = false.
Proof.
  intros H. destruct (Qeq_bool x y) eqn:E; [|done].
  by apply Qeq_bool_eq in E.
Qed.

Lemma bool_eq_flip (b : bool) (l : Q) :
  Qeq l 0 ∨ Qeq l 1 → bool_eq b (1 - l) = negb (bool_eq b l).
Proof.
  assert (¬ Qeq 1 0) as H10 by done.
  assert (¬ Qeq 0 1) as H01 by done.
  unfold bool_eq. intros [H|H]; destruct b.
  - rewrite (Qeq_bool_false 1 l), (Qeq_eq_bool 1 (1 - l)); [done| |].
    + transitivity (1 - 0)%Q; [done|].
      apply Qplus_comp; [reflexivity|]. apply Qopp_comp. by symmetry.
    + intros E. apply H10. by transitivity l.
  - rewrite (Qeq_eq_bool 0 l), (Qeq_bool_false 0 (1 - l)); [done| |].
    + intros E. apply H01. transitivity (1 - l)%Q; [done|].
      transitivity (1 - 0)%Q; [|done].
      apply Qplus_comp; [reflexivity|]. by apply Qopp_comp.
    + by symmetry.
  - rewrite (Qeq_eq_bool 1 l), (Qeq_bool_false 1 (1 - l)); [done| |].
    + intros E. apply H10. transitivity (1 - l)%Q; [done|].
      transitivity (1 - 1)%Q; [|done].
      apply Qplus_comp; [reflexivity|]. by apply Qopp_comp.
    + by symmetry.
  - rewrite (Qeq_bool_false 0 l), (Qeq_eq_bool 0 (1 - l)); [done| |].
    + transitivity (1 - 1)%Q; [done|].
      apply Qplus_comp; [reflexivity|]. apply Qopp_comp. by symmetry.
    + intros E. apply H01. by transitivity l.
Qed.

Lemma count_negb (bs : list bool) :
  length (filter Is_true (negb <$> bs)) + length (filter Is_true bs)
  = length bs.
Proof.
  induction bs as [|[] bs IH]; [done|..]; cbn [fmap list_fmap negb];
    rewrite !filter_cons.
  - rewrite decide_False by (intros []). rewrite decide_True by exact I.
    cbn [length]. lia.
  - rewrite decide_True by exact I. rewrite decide_False by (intros []).
    cbn [length]. lia.
Qed.

Lemma flipped_verdicts (u v : list Q) :
  Forall (λ l, Qeq l 0 ∨ Qeq l 1) v →
  (λ pl : Q * Q, bool_eq (gt_half pl.1) pl.2)
    <$> zip u ((λ l, Qminus 1 l) <$> v)
  = negb <$> ((λ pl : Q * Q, bool_eq (gt_half pl.1) pl.2) <$> zip u v).
Proof.
  intros Hv. revert u. induction Hv as [|l v Hl _ IH]; intros [|p u];
    try done.
  cbn [fmap list_fmap zip zip_with fst snd]. f_equal.
  - by apply bool_eq_flip.
  - apply IH.
Qed.

(** X17: on two arrays of as many entries, at least one, [facc] returns a
    fraction: a number between 0 and 1. *)
Theorem facc_is_a_fraction (label pred : nparray) :
  length (ravel label) = length (ravel pred) → ravel pred ≠ [] →
  ∃ a, facc label pred = Ok (Fin a) ∧ (0 <= a)%Q ∧ (a <= 1)%Q.
Proof.
  intros Hlen Hne. rewrite facc_equal_lengths by done.
  destruct (ravel pred) as [|p ps]; [done|].
  destruct (ravel label) as [|l ls]; [done|].
  cbn [zip zip_with fmap list_fmap np_mean]. eexists. split; [reflexivity|].
  apply fraction_bounds; [apply length_filter|cbn; lia].
Qed.

Lemma facc_is_a_fraction_witness :
  ∃ a, facc (mkArray [4] [1%Q; 1%Q; 0%Q; 0%Q])
            (mkArray [4; 1] [(9 # 10)%Q; (1 # 2)%Q; (1 # 10)%Q; (3 # 5)%Q])
       = Ok (Fin a) ∧ (0 <= a)%Q ∧ (a <= 1)%Q.
Proof.
  apply (facc_is_a_fraction (mkArray [4] [1%Q; 1%Q; 0%Q; 0%Q])
           (mkArray [4; 1] [(9 # 10)%Q; (1 # 2)%Q; (1 # 10)%Q; (3 # 5)%Q]));
    [reflexivity|discriminate].
Defined.

(** X18: exchanging the labels real (1) and fake (0) turns the accuracy
    [a] into [1 - a]: with labels that are all 0 or 1, every entry is
    counted as correct for exactly one of the two labellings. *)
Theorem facc_flipped_labels (label pred : nparray) :
  length (ravel label) = length (ravel pred) → ravel pred ≠ [] →
  Forall (λ l, Qeq l 0 ∨ Qeq l 1) (ravel label) →
  ∃ a a',
    facc label pred = Ok (Fin a) ∧
    facc (flip_labels label) pred = Ok (Fin a') ∧
    Qeq a' (1 - a).
Proof.
  intros Hlen Hne Hbin.
  rewrite facc_equal_lengths by done.
  rewrite facc_equal_lengths
    by (unfold flip_labels, ravel in *; cbn; by rewrite length_fmap).
  unfold flip_labels, ravel in *. cbn [np_values].
  rewrite flipped_verdicts by done.
  pose proof (count_negb ((λ pl : Q * Q, bool_eq (gt_half pl.1) pl.2)
                            <$> zip (np_values pred) (np_values label)))
    as Hcount.
  destruct (np_values pred) as [|p ps]; [done|].
  destruct (np_values label) as [|l ls]; [done|].
  cbn [zip zip_with fmap list_fmap np_mean] in *.
  eexists _, _. split; [reflexivity|]. split; [reflexivity|].
  cbn [length] in *. rewrite (length_fmap negb).
  apply fraction_complement; [exact Hcount|lia].
Qed.

Lemma facc_flipped_labels_witness :
  ∃ a a',
    facc (mkArray [4] [1%Q; 1%Q; 0%Q; 0%Q])
         (mkArray [4; 1] [(9 # 10)%Q; (1 # 2)%Q; (1 # 10)%Q; (3 # 5)%Q])
    = Ok (Fin a) ∧
    facc (flip_labels (mkArray [4] [1%Q; 1%Q; 0%Q; 0%Q]))
         (mkArray [4; 1] [(9 # 10)%Q; (1 # 2)%Q; (1 # 10)%Q; (3 # 5)%Q])
    = Ok (Fin a') ∧
    Qeq a' (1 - a).
Proof.
  apply (facc_flipped_labels (mkArray [4] [1%Q; 1%Q; 0%Q; 0%Q])
           (mkArray [4; 1] [(9 # 10)%Q; (1 # 2)%Q; (1 # 10)%Q; (3 # 5)%Q]));
    [reflexivity|discriminate|].
  repeat (constructor; [first [by left|by right]|]). constructor.
Defined.

(** X19: a label that is neither 0 nor 1 is never counted as correct,
    whatever the prediction: with such labels only, the accuracy is 0. *)
Theorem facc_labels_not_binary (label pred : nparray) :
  length (ravel label) = length (ravel pred) → ravel pred ≠ [] →
  Forall (λ l, ¬ Qeq l 0 ∧ ¬ Qeq l 1) (ravel label) →
  ∃ a, facc label pred = Ok (Fin a) ∧ Qeq a 0.
Proof.
  intros Hlen Hne Hnb. rewrite facc_equal_lengths by done.
  assert (filter Is_true ((λ pl : Q * Q, bool_eq (gt_half pl.1) pl.2)
                            <$> zip (ravel pred) (ravel label)) = []) as Hnone.
  { clear Hlen Hne. revert Hnb. generalize (ravel pred) (ravel label).
    intros u v Hv. revert u.
    induction Hv as [|l v [H0 H1] _ IH]; intros [|p u]; try done.
    cbn [zip zip_with fmap list_fmap fst snd]. rewrite filter_cons.
    rewrite decide_False; [apply IH|].
    unfold bool_eq. destruct (gt_half p).
    - rewrite Qeq_bool_false; [by intros []|]. intros E. by apply H1.
    - rewrite Qeq_bool_false; [by intros []|]. intros E. by apply H0. }
  destruct (ravel pred) as [|p ps]; [done|].
  destruct (ravel label) as [|l ls]; [done|].
  cbn [zip zip_with fmap list_fmap np_mean] in *. rewrite Hnone.
  eexists. split; [reflexivity|]. cbn [length]. done.
Qed.

Lemma facc_labels_not_binary_witness :
  ∃ a, facc (mkArray [2] [2%Q; (1 # 2)%Q]) (mkArray [2] [(9 # 10)%Q; 0%Q])
       = Ok (Fin a) ∧ Qeq a 0.
Proof.
  apply (facc_labels_not_binary (mkArray [2] [2%Q; (1 # 2)%Q])
           (mkArray [2] [(9 # 10)%Q; 0%Q])); [reflexivity|discriminate|].
  repeat (constructor; [split; by intros ?|]). constructor.
Defined.
